(** * stress-ng: the memthrash and opcode stressors

    A shallow embedding of [stress-memthrash.c] and [stress-opcode.c]:
    worker-pool sizing, the method registries and their meta-dispatch,
    the prime-stride table, the arena mapping retry loop, the opcode
    generators and the fork-per-attempt opcode driver.

    Conventions.
    - [uint32_t], [uint64_t] and [size_t] (LP64) are [Z] with the
      wrap-around written out ([u32], [u64]).
    - A C string is the [string] of its bytes before the terminator.
    - A function pointer is a constructor of an enumeration; comparing
      two function pointers is comparing constructors.
    - Calls into the rest of stress-ng that only produce effects
      ([fprintf], [stress_set_setting], [mmap], [usleep], ...) are
      recorded in an effect trace; calls whose result steers the code
      ([keep_stressing], [fork], [waitpid], [stress_mwc8], the clock)
      read their result from an explicit oracle argument. *)

From Stdlib Require Import ZArith Lia Bool String Ascii.
From stdpp Require Import base list.

Local Open Scope Z_scope.

(** ** Machine integers *)

Definition u8 (z : Z) : Z := z mod 2 ^ 8.
Definition u32 (z : Z) : Z := z mod 2 ^ 32.
Definition u64 (z : Z) : Z := z mod 2 ^ 64.

(** Exit statuses of a stressor ([EXIT_NO_RESOURCE] comes from
    stress-ng.h; only the distinction between the three matters). *)
Inductive exit_status : Set :=
| EXIT_SUCCESS
| EXIT_FAILURE
| EXIT_NO_RESOURCE.

(** [strcmp]: the difference of the first pair of bytes that differ,
    compared as [unsigned char]; zero when there is none. *)
Fixpoint strcmp (s1 s2 : string) : Z :=
  match s1, s2 with
  | EmptyString, EmptyString => 0
  | EmptyString, String c2 _ => - Z.of_N (N_of_ascii c2)
  | String c1 _, EmptyString => Z.of_N (N_of_ascii c1)
  | String c1 r1, String c2 r2 =>
      if Ascii.eqb c1 c2 then strcmp r1 r2
      else Z.of_N (N_of_ascii c1) - Z.of_N (N_of_ascii c2)
  end.

(** The strings that are C strings: no byte is the terminator. *)
Fixpoint is_c_string (s : string) : bool :=
  match s with
  | EmptyString => true
  | String c r => negb (Ascii.eqb c Ascii.zero) && is_c_string r
  end.

(** ASCII lower-casing and comparison without regard to case: the
    comparison the registry contract of the specification names.  The
    source never calls it; it is here to be compared with [strcmp]. *)
Definition spec_tolower (c : ascii) : ascii :=
  let n := N_of_ascii c in
  if ((65 <=? n) && (n <=? 90))%N then ascii_of_N (n + 32) else c.

Fixpoint spec_lowercase (s : string) : string :=
  match s with
  | EmptyString => EmptyString
  | String c r => String (spec_tolower c) (spec_lowercase r)
  end.

Definition spec_eq_nocase (s1 s2 : string) : bool :=
  String.eqb (spec_lowercase s1) (spec_lowercase s2).

(** Calls made for their effect only, in the order the code makes them.
    A pointer into a method table is the index of the entry. *)
Inductive effect : Set :=
| E_set_setting (name : string) (slot : nat)
| E_stderr (text : string)
| E_calloc
| E_free
| E_sighandler
| E_mmap (len flags : Z)
| E_munmap (len : Z)
| E_usleep (usec : Z)
| E_pr_inf
| E_pr_dbg
| E_pr_fail
| E_mwc32
| E_set_proc_name (op : Z)
| E_set_proc_state
| E_kill
| E_waitpid
| E_inc_counter.

Definition newline : string := String (ascii_of_nat 10) EmptyString.

(** ** Memory that can fault *)

(** An array in memory is the list of its cells (bytes for a
    [uint8_t *], 64-bit words for a [uint64_t *], ...), an address is
    the index of a cell.  An access is a function of the memory that
    fails ([None]) where the index is outside the array, and otherwise
    yields its result and the memory it leaves. *)
Definition mem_op (A : Type) : Type := list Z -> option (A * list Z).

#[global] Instance mem_op_ret : MRet mem_op := fun A x m => Some (x, m).

#[global] Instance mem_op_bind : MBind mem_op :=
  fun A B f c m =>
    match c m with
    | Some (x, m') => f x m'
    | None => None
    end.

Definition load (a : Z) : mem_op Z :=
  fun m =>
    if 0 <=? a then
      match m !! Z.to_nat a with
      | Some v => Some (v, m)
      | None => None
      end
    else None.

Definition store (a v : Z) : mem_op unit :=
  fun m =>
    if (0 <=? a) && (a <? Z.of_nat (length m))
    then Some (tt, <[Z.to_nat a := v]> m)
    else None.


(** ** stress-memthrash.c *)

Module Memthrash.

Definition MATRIX_SIZE_MAX_SHIFT : Z := 14.
Definition MATRIX_SIZE_MIN_SHIFT : Z := 10.
Definition MATRIX_SIZE : Z := Z.shiftl 1 MATRIX_SIZE_MAX_SHIFT.
Definition MEM_SIZE : Z := MATRIX_SIZE * MATRIX_SIZE.
Definition MEM_SIZE_PRIMES : Z := 1 + MATRIX_SIZE_MAX_SHIFT - MATRIX_SIZE_MIN_SHIFT.
Definition STRESS_CACHE_LINE_SHIFT : Z := 6.
Definition STRESS_CACHE_LINE_SIZE : Z := Z.shiftl 1 STRESS_CACHE_LINE_SHIFT.

(** *** Worker-pool sizing *)

(** [stress_memthrash_max]: both arguments are [uint32_t]. *)
Definition stress_memthrash_max (instances total_cpus : Z) : Z :=
  if (instances >=? total_cpus) || (instances =? 0) then 1
  else
    let max := total_cpus / instances in
    if total_cpus mod instances =? 0 then max else u32 (max + 1).

(** The [while (n > 1)] loop of [stress_memthash_optimal]; [None] only
    when the fuel runs out before the loop exits. *)
Fixpoint optimal_loop (fuel : nat) (n total_cpus : Z) : option Z :=
  match fuel with
  | O => None
  | S fuel' =>
      if n >? 1 then
        if total_cpus mod n =? 0 then Some n
        else optimal_loop fuel' (u32 (n - 1)) total_cpus
      else Some 1
  end.

(** [stress_memthash_optimal] (the source spells it so).  [n] starts at
    [instances] and only decreases, so [instances] iterations and the
    final test are all the loop can take. *)
Definition stress_memthash_optimal (instances total_cpus : Z) : option Z :=
  optimal_loop (S (Z.to_nat instances)) instances total_cpus.

(** *** The method registry *)

(** The addresses of the method functions, under the functions' names. *)
Module Ptr.

Inductive stress_memthrash_func_t : Set :=
| stress_memthrash_all
| stress_memthrash_random_chunk1
| stress_memthrash_random_chunk8
| stress_memthrash_random_chunk64
| stress_memthrash_random_chunk256
| stress_memthrash_random_chunkpage
| stress_memthrash_copy128
| stress_memthrash_flip_mem
| stress_memthrash_flush
| stress_memthrash_lock
| stress_memthrash_matrix
| stress_memthrash_memmove
| stress_memthrash_memset
| stress_memthrash_memset64
| stress_memthrash_mfence
| stress_memthrash_prefetch
| stress_memthrash_random
| stress_memthrash_spinread
| stress_memthrash_spinwrite
| stress_memthrash_swap
| stress_memthrash_swap64
| stress_memthrash_swapfwdrev
| stress_memthrash_tlb.

End Ptr.

#[global] Instance stress_memthrash_func_eq_dec : EqDecision Ptr.stress_memthrash_func_t.
Proof. solve_decision. Defined.

Record stress_memthrash_method_info_t : Set := {
  name : string;                    (* human readable form of stressor *)
  func : Ptr.stress_memthrash_func_t    (* the method function *)
}.

(** The preprocessor conditions that decide which entries the table has. *)
Record build_config : Set := {
  HAVE_INT128_T : bool;
  HAVE_ASM_X86_CLFLUSH : bool;
  MEM_LOCK_defined : bool;
  MAP_POPULATE_defined : bool
}.

Definition entry_if (present : bool) (e : stress_memthrash_method_info_t) :
  list stress_memthrash_method_info_t :=
  if present then [e] else [].

Definition memthrash_methods (cfg : build_config) : list stress_memthrash_method_info_t :=
  [ {| name := "all"; func := Ptr.stress_memthrash_all |};   (* MUST always be first! *)
    {| name := "chunk1"; func := Ptr.stress_memthrash_random_chunk1 |};
    {| name := "chunk8"; func := Ptr.stress_memthrash_random_chunk8 |};
    {| name := "chunk64"; func := Ptr.stress_memthrash_random_chunk64 |};
    {| name := "chunk256"; func := Ptr.stress_memthrash_random_chunk256 |};
    {| name := "chunkpage"; func := Ptr.stress_memthrash_random_chunkpage |} ]
  ++ entry_if (HAVE_INT128_T cfg) {| name := "copy128"; func := Ptr.stress_memthrash_copy128 |}
  ++ [ {| name := "flip"; func := Ptr.stress_memthrash_flip_mem |} ]
  ++ entry_if (HAVE_ASM_X86_CLFLUSH cfg) {| name := "flush"; func := Ptr.stress_memthrash_flush |}
  ++ entry_if (MEM_LOCK_defined cfg) {| name := "lock"; func := Ptr.stress_memthrash_lock |}
  ++ [ {| name := "matrix"; func := Ptr.stress_memthrash_matrix |};
       {| name := "memmove"; func := Ptr.stress_memthrash_memmove |};
       {| name := "memset"; func := Ptr.stress_memthrash_memset |};
       {| name := "memset64"; func := Ptr.stress_memthrash_memset64 |};
       {| name := "mfence"; func := Ptr.stress_memthrash_mfence |};
       {| name := "prefetch"; func := Ptr.stress_memthrash_prefetch |};
       {| name := "random"; func := Ptr.stress_memthrash_random |};
       {| name := "spinread"; func := Ptr.stress_memthrash_spinread |};
       {| name := "spinwrite"; func := Ptr.stress_memthrash_spinwrite |};
       {| name := "swap"; func := Ptr.stress_memthrash_swap |};
       {| name := "swap64"; func := Ptr.stress_memthrash_swap64 |};
       {| name := "swapfwdrev"; func := Ptr.stress_memthrash_swapfwdrev |};
       {| name := "tlb"; func := Ptr.stress_memthrash_tlb |} ].

Definition SIZEOF_ARRAY_memthrash_methods (cfg : build_config) : Z :=
  Z.of_nat (length (memthrash_methods cfg)).

(** *** The "all" meta-method *)

(** The initial value of the function's [static size_t i]. *)
Definition all_i_initial : Z := 1.

(** [stress_memthrash_all], as a function of the static [i] it finds and
    of [repeats], the number of times the [do ... while] condition
    ([!thread_terminate] and less than 0.01 s on the clock) holds before
    it first fails.  It yields the methods called, in order, and the
    static [i] it leaves; [None] when [i] is outside the table, where C
    gives the call no meaning. *)
Definition stress_memthrash_all (cfg : build_config) (i : Z) (repeats : nat) :
  option (list Ptr.stress_memthrash_func_t * Z) :=
  match memthrash_methods cfg !! Z.to_nat i with
  | None => None
  | Some info =>
      let calls := replicate (S repeats) (func info) in
      let i := u64 (i + 1) in
      let i := if i >=? SIZEOF_ARRAY_memthrash_methods cfg then 1 else i in
      Some (calls, i)
  end.

(** Consecutive invocations by one worker: the static [i] left by one
    is the [i] the next finds.  One [repeats] per invocation. *)
Fixpoint all_invocations (cfg : build_config) (i : Z) (slices : list nat) :
  option (list (list Ptr.stress_memthrash_func_t) * Z) :=
  match slices with
  | [] => Some ([], i)
  | repeats :: rest =>
      match stress_memthrash_all cfg i repeats with
      | None => None
      | Some (calls, i') =>
          match all_invocations cfg i' rest with
          | None => None
          | Some (more, i'') => Some (calls :: more, i'')
          end
      end
  end.

(** *** The "random" meta-method *)

(** [stress_mwc8() % SIZEOF_ARRAY(memthrash_methods)] for the value [r]
    that [stress_mwc8] returns. *)
Definition random_index (cfg : build_config) (r : Z) : Z :=
  r mod SIZEOF_ARRAY_memthrash_methods cfg.

(** [stress_memthrash_random], reading the successive results of
    [stress_mwc8] from [mwc8].  It yields the slot and the method it
    calls; [None] when [mwc8] ends before the [for (;;)] loop does. *)
Fixpoint stress_memthrash_random (cfg : build_config) (mwc8 : list Z) :
  option (Z * Ptr.stress_memthrash_func_t) :=
  match mwc8 with
  | [] => None
  | r :: rest =>
      let i := random_index cfg r in
      match memthrash_methods cfg !! Z.to_nat i with
      | None => None
      | Some info =>
          (* Don't run stress_memthrash_random/all to avoid recursion *)
          if bool_decide (func info <> Ptr.stress_memthrash_random)
             && bool_decide (func info <> Ptr.stress_memthrash_all)
          then Some (i, func info)
          else stress_memthrash_random cfg rest
      end
  end.

(** *** Method selection *)

(** The first [for] loop of [stress_set_memthrash_method]: the index of
    the first entry from slot [i] on whose name [strcmp] finds equal. *)
Fixpoint find_memthrash_method (wanted : string) (table : list stress_memthrash_method_info_t)
  (i : nat) : option nat :=
  match table with
  | [] => None
  | info :: rest =>
      if strcmp (name info) wanted =? 0 then Some i
      else find_memthrash_method wanted rest (S i)
  end.

(** [stress_set_memthrash_method] in a build with pthreads: the return
    value and the effects. *)
Definition stress_set_memthrash_method (cfg : build_config) (wanted : string) :
  Z * list effect :=
  match find_memthrash_method wanted (memthrash_methods cfg) 0 with
  | Some i => (0, [E_set_setting "memthrash-method" i])
  | None =>
      (-1,
       [E_stderr "memthrash-method must be one of:"]
       ++ List.map (fun info => E_stderr (" " ++ name info)%string) (memthrash_methods cfg)
       ++ [E_stderr newline])
  end.

(** *** The prime-stride table *)

Record stress_memthrash_primes_t : Set := {
  mem_size : Z;        (* memory size *)
  prime_stride : Z     (* prime cache sized stride *)
}.

Section Primes.

(** [stress_get_prime64] belongs to the core helpers, not to this file:
    the table is described for whatever [uint64_t] function it is. *)
Variable stress_get_prime64 : Z -> Z.

(** The [for (i = 0; i < MEM_SIZE_PRIMES; i++)] loop.  [1 << ...] is an
    [int] shift (at most [1 << 28]); the product is a [size_t]. *)
Fixpoint find_primes_loop (fuel : nat) (i : Z) (primes : list stress_memthrash_primes_t) :
  list stress_memthrash_primes_t :=
  match fuel with
  | O => primes
  | S fuel' =>
      if i <? MEM_SIZE_PRIMES then
        let mem_size := Z.shiftl 1 (2 * (i + MATRIX_SIZE_MIN_SHIFT)) in
        let cache_lines := mem_size / STRESS_CACHE_LINE_SIZE + 137 in
        let entry := {| mem_size := mem_size;
                        prime_stride :=
                          u64 (u64 (stress_get_prime64 (u64 cache_lines))
                               * STRESS_CACHE_LINE_SIZE) |} in
        find_primes_loop fuel' (i + 1) (<[Z.to_nat i := entry]> primes)
      else primes
  end.

(** The static array [stress_memthrash_primes] starts zeroed. *)
Definition stress_memthrash_primes_initial : list stress_memthrash_primes_t :=
  replicate (Z.to_nat MEM_SIZE_PRIMES) {| mem_size := 0; prime_stride := 0 |}.

Definition stress_memthrash_find_primes : list stress_memthrash_primes_t :=
  find_primes_loop (S (Z.to_nat MEM_SIZE_PRIMES)) 0 stress_memthrash_primes_initial.

End Primes.

(** *** Mapping the arena in the worker-pool child *)

(** Linux values of the [mmap] flags. *)
Definition MAP_PRIVATE : Z := 0x02.
Definition MAP_ANONYMOUS : Z := 0x20.
Definition MAP_POPULATE : Z := 0x8000.

(** What the surroundings answer during one pass through [mmap_retry]:
    whether [mmap] succeeds and, when it does not, what
    [keep_stressing_flag] returns before and after the sleep. *)
Record mmap_attempt : Set := {
  mmap_succeeds : bool;
  keep_stressing_flag_1 : bool;
  keep_stressing_flag_2 : bool
}.

(** Where [stress_memthrash_child] stands once the mapping is settled:
    it has returned, or it holds the arena (mapped with these flags) and
    goes on to create the threads. *)
Inductive mapping_outcome : Set :=
| Returned (rc : exit_status)
| Mapped (flags : Z).

(** The code between [mmap_retry:] and the thread-creation loop.  One
    [mmap_attempt] is consumed per pass; [None] when they run out while
    the code is still retrying. *)
Fixpoint mmap_retry (cfg : build_config) (flags : Z) (env : list mmap_attempt) :
  option mapping_outcome * list effect :=
  match env with
  | [] => (None, [])
  | a :: rest =>
      if mmap_succeeds a then (Some (Mapped flags), [E_mmap MEM_SIZE flags])
      else
        let flags' :=
          if MAP_POPULATE_defined cfg
          then Z.land flags (Z.lnot MAP_POPULATE)   (* Less aggressive, more OOMable *)
          else flags in
        if negb (keep_stressing_flag_1 a) then
          (Some (Returned EXIT_NO_RESOURCE), [E_mmap MEM_SIZE flags; E_pr_dbg; E_free])
        else if negb (keep_stressing_flag_2 a) then
          (* goto reap_mem *)
          (Some (Returned EXIT_SUCCESS),
           [E_mmap MEM_SIZE flags; E_usleep 100000; E_munmap MEM_SIZE; E_free])
        else
          let (out, effects) := mmap_retry cfg flags' rest in
          (out, [E_mmap MEM_SIZE flags; E_usleep 100000] ++ effects)
  end.

(** [stress_memthrash_child] up to the point where the arena is mapped. *)
Definition stress_memthrash_child (cfg : build_config) (calloc_succeeds : bool)
  (env : list mmap_attempt) : option mapping_outcome * list effect :=
  let flags := Z.lor MAP_PRIVATE MAP_ANONYMOUS in
  let flags := if MAP_POPULATE_defined cfg then Z.lor flags MAP_POPULATE else flags in
  if negb calloc_succeeds then
    (Some (Returned EXIT_NO_RESOURCE), [E_calloc; E_pr_inf])
  else
    let (out, effects) := mmap_retry cfg flags env in
    (out, [E_calloc; E_sighandler] ++ effects).

(** *** The messages of [stress_memthrash] *)

Inductive memthrash_message : Set :=
| Dbg_using_method (method_name : string)
| Inf_starting (max_threads num_instances total_cpus : Z)
| Inf_not_optimal (try_instead : Z).

(** What [stress_memthrash] logs before it runs the child, for the
    instance number, the number of instances, what
    [stress_get_processors_online] returns and the "memthrash-method"
    setting, if one is stored ([None] if the loop of
    [stress_memthash_optimal] cannot finish, or the setting points
    outside the table). *)
Definition stress_memthrash_messages (cfg : build_config)
  (instance num_instances processors_online : Z) (setting : option nat) :
  option (list memthrash_message) :=
  let total_cpus := u32 processors_online in
  let max_threads := stress_memthrash_max num_instances total_cpus in
  let memthrash_method := default 0%nat setting in
  match memthrash_methods cfg !! memthrash_method with
  | None => None
  | Some info =>
      if instance =? 0 then
        if u32 (max_threads * num_instances) >? total_cpus then
          match stress_memthash_optimal num_instances total_cpus with
          | Some n =>
              Some [Dbg_using_method (name info);
                    Inf_starting max_threads num_instances total_cpus;
                    Inf_not_optimal n]
          | None => None
          end
        else
          Some [Dbg_using_method (name info);
                Inf_starting max_threads num_instances total_cpus]
      else Some [Dbg_using_method (name info)]
  end.

(** *** The worker thread *)

(** The inner [for (j = MATRIX_SIZE_MIN_SHIFT; ...)] loop of
    [stress_memthrash_func].  [go] holds the successive values of
    [!thread_terminate && keep_stressing(args)]; the loop yields the
    [mem_size] of each call of the method and what is left of [go]. *)
Fixpoint memthrash_sweep (fuel : nat) (j : Z) (go : list bool) : list Z * list bool :=
  match fuel with
  | O => ([], go)
  | S fuel' =>
      if j <=? MATRIX_SIZE_MAX_SHIFT then
        match go with
        | true :: go' =>
            let mem_size := Z.shiftl 1 (2 * j) in
            let (calls, rest) := memthrash_sweep fuel' (j + 1) go' in
            (mem_size :: calls, rest)
        | false :: go' => ([], go')
        | [] => ([], [])
        end
      else ([], go)
  end.

(** The outer [while] loop: every pass reads one value of [go] and then
    sweeps the sizes. *)
Fixpoint memthrash_func_loop (fuel : nat) (go : list bool) : list Z :=
  match fuel with
  | O => []
  | S fuel' =>
      match go with
      | true :: go' =>
          let (calls, rest) :=
            memthrash_sweep (Z.to_nat (2 + MATRIX_SIZE_MAX_SHIFT - MATRIX_SIZE_MIN_SHIFT))
              MATRIX_SIZE_MIN_SHIFT go' in
          calls ++ memthrash_func_loop fuel' rest
      | _ => []
      end
  end.

(** [stress_memthrash_func]: the sizes it passes to the method, one call
    (followed by [inc_counter] and [shim_sched_yield]) per size. *)
Definition stress_memthrash_func (go : list bool) : list Z :=
  memthrash_func_loop (length go) go.

(** *** The "tlb" method *)

(** The loop that looks [size] (the [mem_size] argument) up in
    [stress_memthrash_primes], from index [i] on. *)
Fixpoint tlb_find_stride (fuel : nat) (i : Z) (primes : list stress_memthrash_primes_t)
  (size : Z) (prime_stride_default : Z) : Z :=
  match fuel with
  | O => prime_stride_default
  | S fuel' =>
      if i <? MEM_SIZE_PRIMES then
        match primes !! Z.to_nat i with
        | Some entry =>
            if size =? mem_size entry then prime_stride entry
            else tlb_find_stride fuel' (i + 1) primes size prime_stride_default
        | None => prime_stride_default
        end
      else prime_stride_default
  end.

(** Stride around memory in prime cache line strides, reads *)
Fixpoint tlb_reads (cache_lines : nat) (k prime_stride mask : Z) : mem_op unit :=
  match cache_lines with
  | O => mret tt
  | S cache_lines' =>
      _ ← load k;
      tlb_reads cache_lines' (Z.land (u64 (k + prime_stride)) mask) prime_stride mask
  end.

(** Stride around memory in prime cache line strides, writes *)
Fixpoint tlb_writes (cache_lines : nat) (j k prime_stride mask : Z) : mem_op unit :=
  match cache_lines with
  | O => mret tt
  | S cache_lines' =>
      store k (u8 j);;
      tlb_writes cache_lines' (j + 1) (Z.land (u64 (k + prime_stride)) mask)
        prime_stride mask
  end.

(** [stress_memthrash_tlb] on the arena as an array of bytes; [mwc16]
    is what [stress_mwc16] returns, [size] the [mem_size] argument. *)
Definition stress_memthrash_tlb (primes : list stress_memthrash_primes_t)
  (mwc16 size : Z) : mem_op unit :=
  let cache_lines := Z.shiftr size STRESS_CACHE_LINE_SHIFT in
  let mask := u64 (size - 1) in   (* assuming mem_size is a power of 2 *)
  let offset := Z.land mwc16 (STRESS_CACHE_LINE_SIZE - 1) in
  let prime_stride :=
    tlb_find_stride (S (Z.to_nat MEM_SIZE_PRIMES)) 0 primes size
      (u64 (65537 * STRESS_CACHE_LINE_SIZE)) in   (* prime default *)
  tlb_reads (Z.to_nat cache_lines) offset prime_stride mask;;
  tlb_writes (Z.to_nat cache_lines) 0 offset prime_stride mask.


(** *** Methods on 64-bit and 128-bit words *)

(** [while (ptr < end) { body; ptr += step; }] for [ptr] into an array of
    cells of [cell] bytes and [end] at [end_bytes] bytes from the start of
    the array.  [ptr] grows by [step >= 1] cells a turn, so [fuel] beyond
    [end_bytes] turns is never used up. *)
Fixpoint ptr_loop (fuel : nat) (cell step : Z) (body : Z -> mem_op unit)
  (ptr end_bytes : Z) : mem_op unit :=
  match fuel with
  | O => mret tt
  | S fuel' =>
      if cell * ptr <? end_bytes then
        body ptr;;
        ptr_loop fuel' cell step body (ptr + step) end_bytes
      else mret tt
  end.

(** [stress_memthrash_flip_mem] on the arena as an array of [uint64_t]. *)
Definition flip_mem_body (ptr : Z) : mem_op unit :=
  v ← load ptr;
  store ptr (Z.lxor v 0xffffffffffffffff).

Definition stress_memthrash_flip_mem (mem_size : Z) : mem_op unit :=
  ptr_loop (S (Z.to_nat mem_size)) 8 1 flip_mem_body 0 mem_size.

(** [stress_memthrash_memset64]; [val] is what [stress_mwc64] returns.
    The non-temporal stores of the SSE2 path and the plain stores of the
    fallback write the same eight words a turn. *)
Definition memset64_body (val : Z) (ptr : Z) : mem_op unit :=
  store (ptr + 0) val;;
  store (ptr + 1) val;;
  store (ptr + 2) val;;
  store (ptr + 3) val;;
  store (ptr + 4) val;;
  store (ptr + 5) val;;
  store (ptr + 6) val;;
  store (ptr + 7) val.

Definition stress_memthrash_memset64 (val mem_size : Z) : mem_op unit :=
  ptr_loop (S (Z.to_nat mem_size)) 8 8 (memset64_body val) 0 mem_size.

(** One half of the body of [stress_memthrash_swap64]: eight words read
    into [r0 .. r7], then written back with the two groups of four
    exchanged. *)
Definition swap64_block (ptr : Z) : mem_op unit :=
  r0 ← load (ptr + 0);
  r1 ← load (ptr + 1);
  r2 ← load (ptr + 2);
  r3 ← load (ptr + 3);
  r4 ← load (ptr + 4);
  r5 ← load (ptr + 5);
  r6 ← load (ptr + 6);
  r7 ← load (ptr + 7);
  store (ptr + 0) r4;;
  store (ptr + 1) r5;;
  store (ptr + 2) r6;;
  store (ptr + 3) r7;;
  store (ptr + 4) r0;;
  store (ptr + 5) r1;;
  store (ptr + 6) r2;;
  store (ptr + 7) r3.

Definition swap64_body (ptr : Z) : mem_op unit :=
  swap64_block ptr;;
  swap64_block (ptr + 8).

Definition stress_memthrash_swap64 (mem_size : Z) : mem_op unit :=
  ptr_loop (S (Z.to_nat mem_size)) 8 16 swap64_body 0 mem_size.

(** One half of the body of [stress_memthrash_copy128], on the arena as
    an array of [__uint128_t]. *)
Definition copy128_block (ptr : Z) : mem_op unit :=
  r0 ← load (ptr + 8);
  r1 ← load (ptr + 9);
  r2 ← load (ptr + 10);
  r3 ← load (ptr + 11);
  r4 ← load (ptr + 12);
  r5 ← load (ptr + 13);
  r6 ← load (ptr + 14);
  r7 ← load (ptr + 15);
  store (ptr + 0) r0;;
  store (ptr + 1) r1;;
  store (ptr + 2) r2;;
  store (ptr + 3) r3;;
  store (ptr + 4) r4;;
  store (ptr + 5) r5;;
  store (ptr + 6) r6;;
  store (ptr + 7) r7.

Definition copy128_body (ptr : Z) : mem_op unit :=
  copy128_block ptr;;
  copy128_block (ptr + 8).

(** [stress_memthrash_copy128]: [end] is 128 bytes short of [mem_size]. *)
Definition stress_memthrash_copy128 (mem_size : Z) : mem_op unit :=
  ptr_loop (S (Z.to_nat mem_size)) 16 16 copy128_body 0 (mem_size - 128).

(** The two loops of [stress_memthrash_swapfwdrev], for [mem_size] a
    multiple of 8 so that [end - 1] is a word of the array: [fwd] and
    [rev] are word indices, [end_bytes] is [mem_size]. *)
Fixpoint swapfwdrev_first (fuel : nat) (fwd rev end_bytes : Z) : mem_op unit :=
  match fuel with
  | O => mret tt
  | S fuel' =>
      if 8 * fwd <? end_bytes then
        tmp ← load fwd;
        v ← load rev;
        store fwd v;;
        store rev tmp;;
        swapfwdrev_first fuel' (fwd + 1) (rev - 1) end_bytes
      else mret tt
  end.

Fixpoint swapfwdrev_second (fuel : nat) (fwd rev end_bytes : Z) : mem_op unit :=
  match fuel with
  | O => mret tt
  | S fuel' =>
      if 8 * fwd <? end_bytes then
        tmp ← load rev;
        v ← load fwd;
        store rev v;;
        store fwd tmp;;
        swapfwdrev_second fuel' (fwd + 1) (rev - 1) end_bytes
      else mret tt
  end.

Definition stress_memthrash_swapfwdrev (mem_size : Z) : mem_op unit :=
  let end_ := mem_size / 8 in
  swapfwdrev_first (S (Z.to_nat mem_size)) 0 (end_ - 1) mem_size;;
  swapfwdrev_second (S (Z.to_nat mem_size)) 0 (end_ - 1) mem_size.


(** *** The threads of the worker-pool child *)

(** Linux values of the two error numbers the child looks at. *)
Definition ESRCH : Z := 3.
Definition EAGAIN : Z := 11.

(** What the child does with its threads, in order. *)
Inductive pool_event : Set :=
| P_create (slot : nat)            (* pthread_create for pthread_info[slot] *)
| P_create_failed (ret : Z)        (* pr_fail: pthread create failed *)
| P_pause
| P_terminate                      (* thread_terminate = true *)
| P_join (slot : nat)              (* pthread_join on pthread_info[slot].pthread *)
| P_join_failed (ret : Z)          (* pr_fail: pthread join failed *)
| P_munmap
| P_free.

(** What the surroundings answer in one turn of the creation loop: the
    value of [pthread_create] and, when that is 0, of the
    [keep_stressing_flag] call that follows. *)
Record create_answer : Set := {
  pthread_create_ret : Z;
  keep_stressing_flag_after : bool
}.

(** The [for (i = 0; i < max_threads; i++)] loop that creates the
    threads, with [n] turns to go, on the [ret] fields of
    [pthread_info]; it ends in [pause()] or leaves for [reap:].  [None]
    when the answers run out. *)
Fixpoint create_threads (n i : nat) (answers : list create_answer) (info : list Z) :
  option (list Z * list pool_event) :=
  match n with
  | O => Some (info, [P_pause])
  | S n' =>
      match answers with
      | [] => None
      | a :: rest =>
          let info := <[i := pthread_create_ret a]> info in
          if pthread_create_ret a =? 0 then
            if keep_stressing_flag_after a then
              match create_threads n' (S i) rest info with
              | Some (info', events) => Some (info', P_create i :: events)
              | None => None
              end
            else Some (info, [P_create i])   (* goto reap *)
          else if pthread_create_ret a =? EAGAIN then
            (* Just give up and go to next thread *)
            match create_threads n' (S i) rest info with
            | Some (info', events) => Some (info', P_create i :: events)
            | None => None
            end
          else
            (* Something really unexpected *)
            Some (info, [P_create i; P_create_failed (pthread_create_ret a)])
      end
  end.

(** The loop after [reap:], with [n] turns to go; [join_ret] is what
    [pthread_join] returns for a slot.  The array has [max_threads]
    slots, so the loop meets no index outside it. *)
Fixpoint reap_threads (n i : nat) (join_ret : nat -> Z) (info : list Z) :
  list Z * list pool_event :=
  match n with
  | O => (info, [])
  | S n' =>
      match info !! i with
      | Some ret =>
          if ret =? 0 then
            let ret := join_ret i in
            let (info', events) := reap_threads n' (S i) join_ret (<[i := ret]> info) in
            (info',
             P_join i ::
             (if negb (ret =? 0) && negb (ret =? ESRCH) then [P_join_failed ret] else [])
             ++ events)
          else reap_threads n' (S i) join_ret info
      | None => (info, [])
      end
  end.

(** [stress_memthrash_child] from the point where the arena is mapped:
    the [pthread_info] array comes zeroed from [calloc]. *)
Definition stress_memthrash_child_threads (max_threads : nat)
  (answers : list create_answer) (join_ret : nat -> Z) :
  option (exit_status * list Z * list pool_event) :=
  let pthread_info := replicate max_threads 0 in
  match create_threads max_threads 0 answers pthread_info with
  | None => None
  | Some (pthread_info, created) =>
      let (pthread_info, reaped) := reap_threads max_threads 0 join_ret pthread_info in
      Some (EXIT_SUCCESS, pthread_info,
            created ++ [P_terminate] ++ reaped ++ [P_munmap; P_free])
  end.


(** *** Methods on bytes *)

(** The loop of [stress_memthrash_swap], with [n] turns to go before
    [i] reaches 65536; [go] holds the values of [!thread_terminate] the
    loop reads (the thread is terminated where they end). *)
Fixpoint swap_loop (n : nat) (go : list bool) (offset1 offset2 mem_size : Z) :
  mem_op unit :=
  match n, go with
  | S n', true :: go' =>
      tmp ← load offset1;
      v ← load offset2;
      store offset1 v;;
      store offset2 tmp;;
      let offset1 := u64 (offset1 + 129) in
      let offset1 := if offset1 >=? mem_size then u64 (offset1 - mem_size) else offset1 in
      let offset2 := u64 (offset2 + 65) in
      let offset2 := if offset2 >=? mem_size then u64 (offset2 - mem_size) else offset2 in
      swap_loop n' go' offset1 offset2 mem_size
  | _, _ => mret tt
  end.

(** [stress_memthrash_swap] on the arena as an array of bytes;
    [mwc32_1] and [mwc32_2] are what the two calls of [stress_mwc32]
    return.  With [mem_size = 0] the two remainders have no meaning in
    C. *)
Definition stress_memthrash_swap (mwc32_1 mwc32_2 : Z) (go : list bool) (mem_size : Z) :
  mem_op unit :=
  if mem_size =? 0 then fun _ => None
  else swap_loop (Z.to_nat 65536) go (mwc32_1 mod mem_size) (mwc32_2 mod mem_size) mem_size.


(** The inner loop of [stress_memthrash_matrix], over [j]. *)
Fixpoint matrix_row (fuel : nat) (i j : Z) : mem_op unit :=
  match fuel with
  | O => mret tt
  | S fuel' =>
      if j <? MATRIX_SIZE then
        let i1 := u64 (i * MATRIX_SIZE + j) in
        let i2 := u64 (j * MATRIX_SIZE + i) in
        tmp ← load i1;
        v ← load i2;
        store i1 v;;
        store i2 tmp;;
        matrix_row fuel' i (u64 (j + 16))
      else mret tt
  end.

(** The outer loop, over [i]: [terminate turn] is the value of
    [thread_terminate] read before turn number [turn], [mwc8 turn] what
    [stress_mwc8] returns after it.  [i] grows by at least 1 a turn, so
    [fuel] beyond [MATRIX_SIZE] turns is never used up. *)
Fixpoint matrix_loop (fuel turn : nat) (terminate : nat -> bool) (mwc8 : nat -> Z)
  (i : Z) : mem_op unit :=
  match fuel with
  | O => mret tt
  | S fuel' =>
      if negb (terminate turn) && (i <? MATRIX_SIZE) then
        matrix_row (S (Z.to_nat MATRIX_SIZE)) i 0;;
        matrix_loop fuel' (S turn) terminate mwc8
          (u64 (i + (Z.land (mwc8 turn) 0xf + 1)))
      else mret tt
  end.

(** [stress_memthrash_matrix] on the arena as an array of bytes; it
    does not look at [mem_size]. *)
Definition stress_memthrash_matrix (terminate : nat -> bool) (mwc8 : nat -> Z)
  (mem_size : Z) : mem_op unit :=
  matrix_loop (S (Z.to_nat MATRIX_SIZE)) 0 terminate mwc8 0.


(** [memset(mem + offset, c, n)] on an array of bytes. *)
Fixpoint memset (offset c : Z) (n : nat) : mem_op unit :=
  match n with
  | O => mret tt
  | S n' => store offset (u8 c);; memset (offset + 1) c n'
  end.

(** The loop of [stress_memthrash_random_chunk], with [n] turns to go
    before [i] reaches [max]: [terminate i] is the value of
    [thread_terminate] read before turn [i], [mwc32 i] and [mwc8 i] what
    [stress_mwc32] and [stress_mwc8] return in it. *)
Fixpoint random_chunk_loop (n i : nat) (terminate : nat -> bool) (mwc32 mwc8 : nat -> Z)
  (chunk_size chunks : Z) : mem_op unit :=
  match n with
  | O => mret tt
  | S n' =>
      if terminate i then mret tt
      else
        let chunk := mwc32 i mod chunks in
        let offset := u64 (chunk * chunk_size) in
        memset offset (mwc8 i) (Z.to_nat chunk_size);;
        random_chunk_loop n' (S i) terminate mwc32 mwc8 chunk_size chunks
  end.

(** [stress_memthrash_random_chunk]; [max] is what [stress_mwc16]
    returns.  With [chunk_size = 0] the division has no meaning in C. *)
Definition stress_memthrash_random_chunk (max : Z) (terminate : nat -> bool)
  (mwc32 mwc8 : nat -> Z) (chunk_size mem_size : Z) : mem_op unit :=
  if chunk_size =? 0 then fun _ => None
  else
    let chunks := mem_size / chunk_size in
    let chunks := if chunks <? 1 then 1 else chunks in
    random_chunk_loop (Z.to_nat max) 0 terminate mwc32 mwc8 chunk_size chunks.

(** The five methods that call it; [page_size] is [args->page_size]. *)
Definition stress_memthrash_random_chunkpage (page_size : Z) (max : Z)
  (terminate : nat -> bool) (mwc32 mwc8 : nat -> Z) (mem_size : Z) : mem_op unit :=
  stress_memthrash_random_chunk max terminate mwc32 mwc8 page_size mem_size.

Definition stress_memthrash_random_chunk256 (max : Z)
  (terminate : nat -> bool) (mwc32 mwc8 : nat -> Z) (mem_size : Z) : mem_op unit :=
  stress_memthrash_random_chunk max terminate mwc32 mwc8 256 mem_size.

Definition stress_memthrash_random_chunk64 (max : Z)
  (terminate : nat -> bool) (mwc32 mwc8 : nat -> Z) (mem_size : Z) : mem_op unit :=
  stress_memthrash_random_chunk max terminate mwc32 mwc8 64 mem_size.

Definition stress_memthrash_random_chunk8 (max : Z)
  (terminate : nat -> bool) (mwc32 mwc8 : nat -> Z) (mem_size : Z) : mem_op unit :=
  stress_memthrash_random_chunk max terminate mwc32 mwc8 8 mem_size.

Definition stress_memthrash_random_chunk1 (max : Z)
  (terminate : nat -> bool) (mwc32 mwc8 : nat -> Z) (mem_size : Z) : mem_op unit :=
  stress_memthrash_random_chunk max terminate mwc32 mwc8 1 mem_size.


End Memthrash.

(** ** stress-opcode.c *)

Module Opcode.

Definition PAGES : Z := 16.

(** [reverse64]: three mask-and-shift rounds on a [uint64_t]; a left
    shift of a [uint64_t] drops the bits shifted out. *)
Definition reverse64 (x : Z) : Z :=
  let x := Z.lor (Z.shiftr (Z.land x 0xf0f0f0f0f0f0f0f0) 4)
                 (u64 (Z.shiftl (Z.land x 0x0f0f0f0f0f0f0f0f) 4)) in
  let x := Z.lor (Z.shiftr (Z.land x 0xcccccccccccccccc) 2)
                 (u64 (Z.shiftl (Z.land x 0x3333333333333333) 2)) in
  let x := Z.lor (Z.shiftr (Z.land x 0xaaaaaaaaaaaaaaaa) 1)
                 (u64 (Z.shiftl (Z.land x 0x5555555555555555) 1)) in
  x.

(** *** Memory of the child *)

(** The [opcodes] mapping is a list of bytes; an address is an offset
    from [opcodes].  The generators below write inside the mapping only
    (a store outside it leaves the list as it is). *)
Definition store8 (mem : list Z) (addr : Z) (v : Z) : list Z :=
  <[Z.to_nat addr := u8 v]> mem.

(** A store of a [width]-byte unsigned integer, least significant byte
    first (a little-endian host). *)
Fixpoint store_le (width : nat) (mem : list Z) (addr : Z) (v : Z) : list Z :=
  match width with
  | O => mem
  | S width' => store_le width' (store8 mem addr v) (addr + 1) (Z.shiftr v 8)
  end.

(** [while (i--) *(ops++) = v;] for [ops] pointing to [width]-byte
    units: memory and [ops] when the loop ends. *)
Fixpoint fill_units (i : nat) (width : nat) (mem : list Z) (ops : Z) (v : Z) :
  list Z * Z :=
  match i with
  | O => (mem, ops)
  | S i' => fill_units i' width (store_le width mem ops v) (ops + Z.of_nat width) v
  end.

(** [while (ops < (uint8_t * )ops_end) *ops++ = 0x00;] *)
Fixpoint zero_slop (fuel : nat) (mem : list Z) (ops ops_end : Z) : list Z :=
  match fuel with
  | O => mem
  | S fuel' =>
      if ops <? ops_end then zero_slop fuel' (store8 mem ops 0x00) (ops + 1) ops_end
      else mem
  end.

(** *** The "inc" generator *)

(** [stress_opcode_inc], with the compile-time [STRESS_OPCODE_SIZE] as
    its first argument and [op] the value it reads from [*op]. *)
Definition stress_opcode_inc (STRESS_OPCODE_SIZE : Z)
  (page_size ops_begin ops_end op : Z) (mem : list Z) : list Z :=
  if STRESS_OPCODE_SIZE =? 8 then
    let tmp8 := Z.land op 0xff in
    fst (fill_units (Z.to_nat page_size) 1 mem ops_begin tmp8)
  else if STRESS_OPCODE_SIZE =? 16 then
    let tmp16 := Z.land op 0xffff in
    fst (fill_units (Z.to_nat (Z.shiftr page_size 1)) 2 mem ops_begin tmp16)
  else if STRESS_OPCODE_SIZE =? 48 then
    let tmp64 := op in
    let '(mem, ops) := fill_units (Z.to_nat (page_size / 6)) 6 mem ops_begin tmp64 in
    (* There is some slop at the end *)
    zero_slop (Z.to_nat (ops_end - ops)) mem ops ops_end
  else if STRESS_OPCODE_SIZE =? 64 then
    let tmp64 := op in
    fst (fill_units (Z.to_nat (Z.shiftr page_size 3)) 8 mem ops_begin tmp64)
  else
    (* default: case 32 *)
    let tmp32 := Z.land op 0xffffffff in
    fst (fill_units (Z.to_nat (Z.shiftr page_size 2)) 4 mem ops_begin tmp32).

(** Modelled from the spec: [STRESS_OPCODE_MASK] for an opcode size
    other than the default is defined outside this file.  The spec has
    the counter advance modulo the opcode size's value space, so the
    mask is [2 ^ size - 1]; for the default size 64 this is the
    [0xffffffffffffffff] of the source. *)
Definition STRESS_OPCODE_MASK (STRESS_OPCODE_SIZE : Z) : Z :=
  Z.ones STRESS_OPCODE_SIZE.

(** *** The method registry *)

Module Ptr.

Inductive stress_opcode_func : Set :=
| stress_opcode_random
| stress_opcode_text
| stress_opcode_inc
| stress_opcode_mixed.

End Ptr.

#[global] Instance stress_opcode_func_eq_dec : EqDecision Ptr.stress_opcode_func.
Proof. solve_decision. Defined.

(** Both fields are pointers, [None] for [NULL]. *)
Record stress_opcode_method_info_t : Set := {
  name : option string;
  func : option Ptr.stress_opcode_func
}.

Definition stress_opcode_methods : list stress_opcode_method_info_t :=
  [ {| name := Some "random"%string; func := Some Ptr.stress_opcode_random |};
    {| name := Some "text"%string; func := Some Ptr.stress_opcode_text |};
    {| name := Some "inc"%string; func := Some Ptr.stress_opcode_inc |};
    {| name := Some "mixed"%string; func := Some Ptr.stress_opcode_mixed |};
    {| name := None; func := None |} ].

(** [for (info = stress_opcode_methods; info->func; info++)] looking for
    the name: the loop ends at the first entry without a function. *)
Fixpoint find_opcode_method (wanted : string) (table : list stress_opcode_method_info_t)
  (i : nat) : option nat :=
  match table with
  | [] => None
  | info :: rest =>
      match func info, name info with
      | Some _, Some n =>
          if strcmp n wanted =? 0 then Some i
          else find_opcode_method wanted rest (S i)
      | _, _ => None
      end
  end.

(** The same loop printing the names. *)
Fixpoint print_methods (table : list stress_opcode_method_info_t) : list effect :=
  match table with
  | [] => []
  | info :: rest =>
      match func info, name info with
      | Some _, Some n => E_stderr (" " ++ n)%string :: print_methods rest
      | _, _ => []
      end
  end.

(** [stress_set_opcode_method] where the stressor is implemented. *)
Definition stress_set_opcode_method (wanted : string) : Z * list effect :=
  match find_opcode_method wanted stress_opcode_methods 0 with
  | Some i => (0, [E_set_setting "opcode-method" i])
  | None =>
      (-1,
       [E_stderr "opcode-method must be one of:"]
       ++ print_methods stress_opcode_methods
       ++ [E_stderr newline])
  end.

(** *** The child of one attempt *)

(** How a process ends: [_exit] with a status, or a signal that is not
    caught.  [stress_badhandler] ends the child with [_exit(1)]. *)
Inductive process_end : Set :=
| Exited (rc : exit_status)
| Killed (signum : Z).

(** What the surroundings answer in the child: which of the set-up calls
    succeed; whether the [shim_seccomp] call of turn [i] of the execute
    loop, if it is made with no filter in force, loads the filter; and
    for turn [i] whether the call into the generated code returns
    ([None]) or the child ends in it, or after it and before the next
    turn. *)
Record child_env : Set := {
  drop_capabilities_ok : bool;
  sighandlers_ok : bool;
  opcodes_mmap_ok : bool;
  setitimer_ok : bool;
  seccomp_loads : nat -> bool;
  call_ends : nat -> option process_end
}.

(** The [for (i = 0; i < opcode_loops; i++)] loop of the child; [op] is
    the shared [*op].  [HAVE_SECCOMP] is the preprocessor condition
    around the [shim_seccomp] call ([HAVE_LINUX_SECCOMP_H] and
    [SECCOMP_SET_MODE_FILTER] defined), and [filtered] tells that an
    earlier turn has loaded the filter [prog].  The filter (with
    [__NR_exit_group] defined, as on Linux) allows [exit_group] and
    [write] and traps every other system call, so the
    [seccomp] call of a later turn is trapped itself: the child gets
    [SIGSYS], one of [sigs], and [stress_badhandler] ends it with
    [_exit(1)], which the filter lets through, as it does the
    [_exit(0)] after the loop. *)
Fixpoint execute_loop (HAVE_SECCOMP : bool) (loops : nat) (i : nat) (filtered : bool)
  (mask op : Z) (seccomp_loads : nat -> bool)
  (call_ends : nat -> option process_end) : Z * process_end :=
  match loops with
  | O => (op, Exited EXIT_SUCCESS)
  | S loops' =>
      if HAVE_SECCOMP && filtered then
        (* Limit syscall using seccomp: trapped by the filter in force *)
        (op, Exited EXIT_FAILURE)
      else
        let filtered := HAVE_SECCOMP && seccomp_loads i in
        let op := Z.land (u64 (op + 1)) mask in
        match call_ends i with
        | Some e => (op, e)
        | None =>
            execute_loop HAVE_SECCOMP loops' (S i) filtered mask op seccomp_loads call_ends
        end
  end.

Record child_result : Set := {
  child_op : Z;                     (* the shared *op when the child ends *)
  child_end : process_end;
  child_opcodes : option (list Z)   (* the mapping after the generator ran *)
}.

(** The [pid == 0] branch of [stress_opcode].  [generate] is
    [opcode_method->func]: given [page_size], [ops_begin], [ops_end],
    the value of [*op] and the mapping, the mapping it leaves. *)
Definition stress_opcode_child (HAVE_SECCOMP : bool)
  (generate : Z -> Z -> Z -> Z -> list Z -> list Z)
  (STRESS_OPCODE_SIZE page_size op : Z) (env : child_env) : child_result :=
  let opcode_bytes := Z.shiftr STRESS_OPCODE_SIZE 3 in
  let opcode_loops := page_size / opcode_bytes in
  if negb (drop_capabilities_ok env) then
    {| child_op := op; child_end := Exited EXIT_NO_RESOURCE; child_opcodes := None |}
  else if negb (sighandlers_ok env) then
    {| child_op := op; child_end := Exited EXIT_FAILURE; child_opcodes := None |}
  else if negb (opcodes_mmap_ok env) then
    {| child_op := op; child_end := Exited EXIT_NO_RESOURCE; child_opcodes := None |}
  else
    (* Force pages resident *)
    let opcodes := replicate (Z.to_nat (page_size * PAGES)) 0x00 in
    let ops_begin := page_size in
    let ops_end := page_size * (PAGES - 1) in
    let opcodes := generate page_size ops_begin ops_end op opcodes in
    if negb (setitimer_ok env) then
      {| child_op := op; child_end := Exited EXIT_NO_RESOURCE;
         child_opcodes := Some opcodes |}
    else
      let (op', e) :=
        execute_loop HAVE_SECCOMP (Z.to_nat opcode_loops) 0 false
          (STRESS_OPCODE_MASK STRESS_OPCODE_SIZE) op (seccomp_loads env) (call_ends env) in
      {| child_op := op'; child_end := e; child_opcodes := Some opcodes |}.

(** *** The driver *)

(** What the parent meets after a successful [fork]: how the child ended
    and where it left the shared [*op], and what [waitpid] did. *)
Record forked_child : Set := {
  waitpid_fails : bool;
  errno_is_EINTR : bool;
  wait_status : process_end;
  op_after : Z
}.

(** One [fork()] as the parent sees it, with the answer of the
    [keep_stressing(args)] call that follows, if one does. *)
Inductive fork_event : Set :=
| Fork_redo                                     (* pid < 0, stress_redo_fork(errno) *)
| Fork_failed (keep_stressing : bool)           (* pid < 0, no redo *)
| Forked (child : forked_child) (keep_stressing : bool).   (* pid > 0 *)

Record driver_state : Set := {
  counter : Z;    (* the bogo-op counter behind inc_counter(args) *)
  shared_op : Z   (* *op *)
}.

Definition wait_for_child (child : forked_child) : list effect :=
  [E_waitpid]
  ++ (if waitpid_fails child then
        (if errno_is_EINTR child then [] else [E_pr_dbg])
        ++ [E_kill; E_kill; E_waitpid]
      else [])
  ++ [E_inc_counter].

(** The [do { ... } while (keep_stressing(args))] loop up to [finish:] or
    [err:], which set [rc].  [at_again] tells that control is at the
    [again:] label rather than at the top of the body; [None] when the
    events run out with the loop still going. *)
Fixpoint driver_loop (method : Ptr.stress_opcode_func) (at_again : bool)
  (events : list fork_event) (st : driver_state) :
  option exit_status * driver_state * list effect :=
  let top :=
    if at_again then []
    else E_mwc32 ::
         (if bool_decide (method = Ptr.stress_opcode_inc)
          then [E_set_proc_name (shared_op st)] else []) in
  match events with
  | [] => (None, st, top)
  | Fork_redo :: rest =>
      let '(rc, st', effects) := driver_loop method true rest st in
      (rc, st', top ++ effects)
  | Fork_failed keep_stressing :: _ =>
      if negb keep_stressing then (Some EXIT_SUCCESS, st, top)
      else (Some EXIT_NO_RESOURCE, st, top ++ [E_pr_fail])
  | Forked child keep_stressing :: rest =>
      let st1 := {| counter := u64 (counter st + 1); shared_op := op_after child |} in
      if keep_stressing then
        let '(rc, st', effects) := driver_loop method false rest st1 in
        (rc, st', top ++ wait_for_child child ++ effects)
      else (Some EXIT_SUCCESS, st1, top ++ wait_for_child child)
  end.

(** [stress_opcode] as seen from the parent: [op_start] is the value
    computed for [*op] from the instance number. *)
Definition stress_opcode (page_size : Z) (op_mmap_ok : bool)
  (method : Ptr.stress_opcode_func)
  (op_start : Z) (counter0 : Z) (events : list fork_event) :
  option exit_status * driver_state * list effect :=
  if negb op_mmap_ok then
    (Some EXIT_NO_RESOURCE, {| counter := counter0; shared_op := 0 |}, [E_pr_inf])
  else
    let '(rc, st, effects) :=
      driver_loop method false events
        {| counter := counter0; shared_op := u64 op_start |} in
    match rc with
    | None => (None, st, E_set_proc_state :: effects)
    | Some _ => (rc, st, E_set_proc_state :: effects ++ [E_set_proc_state; E_munmap page_size])
    end.

(** *** The "random" and "mixed" generators *)

(** [stress_opcode_random], reading the successive results of
    [stress_mwc32] from [mwc32]: the mapping it leaves and the results
    it has not used; [None] if [mwc32] ends before the loop does. *)
Fixpoint stress_opcode_random (mwc32 : list Z) (ops ops_end : Z) (mem : list Z) :
  option (list Z * list Z) :=
  match mwc32 with
  | [] => if ops <? ops_end then None else Some (mem, [])
  | r :: rest =>
      if ops <? ops_end then
        stress_opcode_random rest (ops + 4) ops_end (store_le 4 mem ops r)
      else Some (mem, r :: rest)
  end.

(** [stress_opcode_mixed], reading the successive results of
    [stress_mwc64] from [mwc64]; [tmp] is the value of [*op]. *)
Fixpoint stress_opcode_mixed (mwc64 : list Z) (tmp : Z) (ops ops_end : Z) (mem : list Z) :
  option (list Z * list Z) :=
  match mwc64 with
  | [] => if ops <? ops_end then None else Some (mem, [])
  | rnd :: rest =>
      if ops <? ops_end then
        let mem := store_le 8 mem ops tmp in
        let mem := store_le 8 mem (ops + 8) (Z.lxor tmp 0xffffffff) in   (* Inverted *)
        let mem := store_le 8 mem (ops + 16) (Z.lxor (Z.shiftr tmp 1) tmp) in   (* Gray *)
        let mem := store_le 8 mem (ops + 24) (reverse64 tmp) in
        let mem := store_le 8 mem (ops + 32) rnd in
        let mem := store_le 8 mem (ops + 40) (Z.lxor rnd 0xffffffff) in
        let mem := store_le 8 mem (ops + 48) (Z.lxor (Z.shiftr rnd 1) rnd) in
        let mem := store_le 8 mem (ops + 56) (reverse64 rnd) in
        stress_opcode_mixed rest tmp (ops + 64) ops_end mem
      else Some (mem, rnd :: rest)
  end.


(** *** The "text" generator *)

(** [memcpy(dst, text_start + src, n)], byte by byte: [text] is the
    memory from [text_start] on, the destination is in the mapping. *)
Fixpoint copy_text (n : nat) (text : list Z) (src dst : Z) : mem_op unit :=
  match n with
  | O => mret tt
  | S n' =>
      match text !! Z.to_nat src with
      | Some b => store dst b;; copy_text n' text (src + 1) (dst + 1)
      | None => fun _ => None
      end
  end.

(** The [for (ops = ops_begin; ops < ops_end; ops++)] loop of
    [stress_opcode_text]; [mwc8 turn] is what [stress_mwc8] returns in
    turn number [turn]. *)
Fixpoint corrupt_text (fuel turn : nat) (mwc8 : nat -> Z) (ops ops_end : Z) :
  mem_op unit :=
  match fuel with
  | O => mret tt
  | S fuel' =>
      if ops <? ops_end then
        let rnd := u8 (mwc8 turn) in
        (* 1 in 8 chance of random bit corruption *)
        (if rnd <? 32 then
           let bit := u8 (Z.shiftl 1 (Z.land rnd 7)) in
           b ← load ops;
           store ops (u8 (Z.lxor b bit))
         else mret tt);;
        corrupt_text fuel' (S turn) mwc8 (ops + 1) ops_end
      else mret tt
  end.

(** [stress_opcode_text]: [text_addr] is what [stress_text_addr]
    returns and [text] the memory from the [text_start] it sets,
    [mwc64modn] is [stress_mwc64modn]; [mwc32] feeds
    [stress_opcode_random] when the text is the shorter. *)
Definition stress_opcode_text (text : list Z) (text_addr : Z) (mwc64modn : Z -> Z)
  (mwc8 : nat -> Z) (mwc32 : list Z) (ops_begin ops_end : Z) : mem_op unit :=
  let ops_len := u64 (ops_end - ops_begin) in
  let text_len := u64 (text_addr - 8) in
  if text_len <? ops_len then
    fun mem =>
      match stress_opcode_random mwc32 ops_begin ops_end mem with
      | Some (mem', _) => Some (tt, mem')
      | None => None
      end
  else
    let offset := Z.land (mwc64modn (u64 (text_len - ops_len))) (u64 (Z.lnot 0x7)) in
    copy_text (Z.to_nat ops_len) text offset ops_begin;;
    corrupt_text (Z.to_nat ops_len) 0 mwc8 ops_begin ops_end.


End Opcode.

(** * Notions used in the statements *)

(** Ceiling of a quotient of positive integers, as the specification
    writes it. *)
Definition ceil_div (a b : Z) : Z := (a + b - 1) / b.

(** What the specification asks of the advisory instance count [r] for
    [w] requested instances on [c] CPUs: the largest divisor of [c] in
    [2..w] when there is one, and 1 when there is none. *)
Definition largest_divisor_upto (w c r : Z) : Prop :=
  ((exists m, 2 <= m <= w /\ Z.divide m c) ->
     2 <= r <= w /\ Z.divide r c /\
     forall m, 2 <= m <= w -> Z.divide m c -> m <= r) /\
  ((forall m, 2 <= m <= w -> ~ Z.divide m c) -> r = 1).

(** One round of [reverse64]: the bits under [mhi] move down by [k],
    the bits under [mlo] move up by [k]. *)
Definition swap_round (k mhi mlo x : Z) : Z :=
  Z.lor (Z.shiftr (Z.land x mhi) k) (u64 (Z.shiftl (Z.land x mlo) k)).

(** The bit of the argument that a round puts at position [n]. *)
Definition round_source (k n : Z) : Z :=
  if Z.land n k =? 0 then n + k else n - k.

Definition reverse64_source (n : Z) : Z :=
  round_source 4 (round_source 2 (round_source 1 n)).

Definition bit_positions : list Z := List.map Z.of_nat (List.seq 0 64).

(** The masks of a round select, at every position of a 64-bit word,
    exactly the bit [round_source] names. *)
Definition round_masks_ok (k mhi mlo : Z) : bool :=
  forallb (fun n =>
    let hi := Z.testbit mhi (n + k) in
    let lo := Z.testbit mlo (n - k) in
    if Z.land n k =? 0 then hi && negb lo else negb hi && lo) bit_positions.

Definition in_word (n : Z) : bool := (0 <=? n) && (n <? 64).

(** A build with every optional method: x86-64 Linux with GCC. *)
Definition linux_x86_64 : Memthrash.build_config :=
  {| Memthrash.HAVE_INT128_T := true;
     Memthrash.HAVE_ASM_X86_CLFLUSH := true;
     Memthrash.MEM_LOCK_defined := true;
     Memthrash.MAP_POPULATE_defined := true |}.

(** The two meta-methods of the memthrash registry. *)
Definition is_meta (f : Memthrash.Ptr.stress_memthrash_func_t) : bool :=
  bool_decide (f = Memthrash.Ptr.stress_memthrash_all)
  || bool_decide (f = Memthrash.Ptr.stress_memthrash_random).

(** The value [r] of [stress_mwc8] selects the slot of a meta-method. *)
Definition meta_draw (cfg : Memthrash.build_config) (r : Z) : bool :=
  match Memthrash.memthrash_methods cfg !! Z.to_nat (Memthrash.random_index cfg r) with
  | Some info => is_meta (Memthrash.func info)
  | None => false
  end.

(** Among the 256 values of [stress_mwc8], the number of those that
    draw [slot]. *)
Definition draws_landing_on (cfg : Memthrash.build_config) (slot : Z) : nat :=
  length (List.filter (fun r => Memthrash.random_index cfg r =? slot)
                      (List.map Z.of_nat (List.seq 0 256))).

(** The calls one invocation of "all" makes when it has selected
    [info] and its time slice allows [repeats] further rounds. *)
Definition slice_calls (repeats : nat) (info : Memthrash.stress_memthrash_method_info_t) :
  list Memthrash.Ptr.stress_memthrash_func_t :=
  replicate (S repeats) (Memthrash.func info).

(** What [stress_set_memthrash_method] and [stress_set_opcode_method]
    print when they reject a name. *)
Definition rejection (option_name : string) (names : list string) : list effect :=
  [E_stderr (option_name ++ " must be one of:")%string]
  ++ List.map (fun n => E_stderr (" " ++ n)%string) names
  ++ [E_stderr newline].

Definition opcode_method_names : list string :=
  ["random"; "text"; "inc"; "mixed"]%string.

(** Trial division: [n] has a divisor [d'] with [d <= d'] and
    [d' * d' <= n]. *)
Fixpoint spec_has_divisor_from (fuel : nat) (d n : Z) : bool :=
  match fuel with
  | O => false
  | S fuel' =>
      if n <? d * d then false
      else if n mod d =? 0 then true
      else spec_has_divisor_from fuel' (d + 1) n
  end.

Definition spec_is_prime (n : Z) : bool :=
  (2 <=? n) && negb (spec_has_divisor_from (Z.to_nat (Z.sqrt n)) 2 n).

Fixpoint spec_next_prime_from (fuel : nat) (n : Z) : Z :=
  match fuel with
  | O => n
  | S fuel' => if spec_is_prime n then n else spec_next_prime_from fuel' (n + 1)
  end.

(** Modelled from the spec: [stress_get_prime64] is defined in the core
    helpers of stress-ng, outside these two files; the specification
    calls it nextPrime.  Here it is the least prime not below [n],
    searched for among the 2000 numbers from [n] on.  It serves as an
    instance of the helper; the table is described for every helper. *)
Definition spec_next_prime (n : Z) : Z := spec_next_prime_from 2000 n.

(** The table entry for the region size [4 ^ shift]. *)
Definition prime_stride_entry (stress_get_prime64 : Z -> Z) (shift : Z) :
  Memthrash.stress_memthrash_primes_t :=
  let s := 4 ^ shift in
  {| Memthrash.mem_size := s;
     Memthrash.prime_stride := u64 (u64 (stress_get_prime64 (s / 64 + 137)) * 64) |}.

Definition MiB : Z := 2 ^ 20.

(** A pass through [mmap_retry] after which the code retries: the
    mapping failed and [keep_stressing_flag] held before and after the
    sleep. *)
Definition retried (a : Memthrash.mmap_attempt) : bool :=
  negb (Memthrash.mmap_succeeds a)
  && Memthrash.keep_stressing_flag_1 a
  && Memthrash.keep_stressing_flag_2 a.

Definition initial_flags (cfg : Memthrash.build_config) : Z :=
  if Memthrash.MAP_POPULATE_defined cfg
  then Z.lor (Z.lor Memthrash.MAP_PRIVATE Memthrash.MAP_ANONYMOUS) Memthrash.MAP_POPULATE
  else Z.lor Memthrash.MAP_PRIVATE Memthrash.MAP_ANONYMOUS.

(** The flags of the pass that follows [failures] failed passes. *)
Definition flags_after (cfg : Memthrash.build_config) (failures : nat) : Z :=
  match failures with
  | O => initial_flags cfg
  | S _ => Z.lor Memthrash.MAP_PRIVATE Memthrash.MAP_ANONYMOUS
  end.

(** What [failures] failed and retried passes do: each maps with the
    flags of its turn and sleeps 100 ms. *)
Fixpoint retry_effects (cfg : Memthrash.build_config) (done failures : nat) : list effect :=
  match failures with
  | O => []
  | S failures' =>
      [E_mmap Memthrash.MEM_SIZE (flags_after cfg done); E_usleep 100000]
      ++ retry_effects cfg (S done) failures'
  end.

(** The same event with the exit status of the child blotted out. *)
Definition forget_status (e : Opcode.fork_event) : Opcode.fork_event :=
  match e with
  | Opcode.Forked c keep_stressing =>
      Opcode.Forked
        {| Opcode.waitpid_fails := Opcode.waitpid_fails c;
           Opcode.errno_is_EINTR := Opcode.errno_is_EINTR c;
           Opcode.wait_status := Opcode.Exited EXIT_SUCCESS;
           Opcode.op_after := Opcode.op_after c |}
        keep_stressing
  | _ => e
  end.

(** What the sequence of [fork] results and [keep_stressing] answers
    alone determines: the return code of the driver and the number of
    children it has waited for.  Nothing about a child is looked at. *)
Fixpoint verdict (events : list Opcode.fork_event) : option (exit_status * nat) :=
  match events with
  | [] => None
  | Opcode.Fork_redo :: rest => verdict rest
  | Opcode.Fork_failed keep_stressing :: _ =>
      Some (if keep_stressing then EXIT_NO_RESOURCE else EXIT_SUCCESS, O)
  | Opcode.Forked _ keep_stressing :: rest =>
      if keep_stressing then
        match verdict rest with
        | Some (rc, n) => Some (rc, S n)
        | None => None
        end
      else Some (EXIT_SUCCESS, 1%nat)
  end.

(** The set-up of the child gets as far as the generator. *)
Definition reaches_generator (env : Opcode.child_env) : bool :=
  Opcode.drop_capabilities_ok env && Opcode.sighandlers_ok env
  && Opcode.opcodes_mmap_ok env.

(** Turn [i] of the execute loop is the last the child begins: the
    call of that turn does not return, or its [shim_seccomp] call loads
    the filter, which then traps the [seccomp] call of the next turn. *)
Definition last_turn (HAVE_SECCOMP : bool) (env : Opcode.child_env) (i : nat) : bool :=
  match Opcode.call_ends env i with
  | Some _ => true
  | None => HAVE_SECCOMP && Opcode.seccomp_loads env i
  end.

(** The first of the turns [i], [i + 1], ..., [i + n - 1] for which
    [stop] holds, and [i + n] if there is none. *)
Fixpoint first_turn (n i : nat) (stop : nat -> bool) : nat :=
  match n with
  | O => i
  | S n' => if stop i then i else first_turn n' (S i) stop
  end.

(** The number of calls into the generated code that a child with
    [loops] turns to make begins: those up to and including its last
    turn, and all [loops] if no turn is the last. *)
Definition calls_begun (HAVE_SECCOMP : bool) (loops : nat) (env : Opcode.child_env) : nat :=
  Nat.min (S (first_turn loops 0 (last_turn HAVE_SECCOMP env))) loops.

(** How that child ends: the way the call of its last turn ends; with
    [_exit(1)] from the handler of [SIGSYS] when that call returns and
    another turn follows; with [_exit(0)] otherwise. *)
Definition child_ends (HAVE_SECCOMP : bool) (loops : nat) (env : Opcode.child_env) :
  Opcode.process_end :=
  let k := first_turn loops 0 (last_turn HAVE_SECCOMP env) in
  if (k <? loops)%nat then
    match Opcode.call_ends env k with
    | Some e => e
    | None =>
        if (S k <? loops)%nat then Opcode.Exited EXIT_FAILURE
        else Opcode.Exited EXIT_SUCCESS
    end
  else Opcode.Exited EXIT_SUCCESS.

(** The same number for the 8-bit opcode size, one call per byte of the
    page; none when the child fails to set its timer. *)
Definition slots_begun (HAVE_SECCOMP : bool) (page_size : Z) (env : Opcode.child_env) : nat :=
  if Opcode.setitimer_ok env
  then calls_begun HAVE_SECCOMP (Z.to_nat page_size) env
  else O.

(** The [opcodes] mapping with the first interior page filled with
    [byte] and everything else still zero: the low guard page, the
    filled page, the 13 further interior pages and the high guard page. *)
Definition first_page_filled (page_size : Z) (byte : Z) : list Z :=
  replicate (Z.to_nat page_size) 0
  ++ replicate (Z.to_nat page_size) byte
  ++ replicate (Z.to_nat (14 * page_size)) 0.

(** A child in which every call into the generated code returns; the
    kernel loads the filter when asked. *)
Definition all_calls_return : Opcode.child_env :=
  {| Opcode.drop_capabilities_ok := true;
     Opcode.sighandlers_ok := true;
     Opcode.opcodes_mmap_ok := true;
     Opcode.setitimer_ok := true;
     Opcode.seccomp_loads := fun _ => true;
     Opcode.call_ends := fun _ => None |}.

(** A child that faults in its first call and leaves through
    [stress_badhandler]. *)
Definition first_call_faults : Opcode.child_env :=
  {| Opcode.drop_capabilities_ok := true;
     Opcode.sighandlers_ok := true;
     Opcode.opcodes_mmap_ok := true;
     Opcode.setitimer_ok := true;
     Opcode.seccomp_loads := fun _ => true;
     Opcode.call_ends := fun _ => Some (Opcode.Exited EXIT_FAILURE) |}.

(** The number of instances [w] uses the [c] CPUs without a worker to
    spare: there are no instances to speak of, or [w] divides [c]. *)
Definition cpu_optimal (w c : Z) : bool :=
  (w =? 0) || ((w <=? c) && (c mod w =? 0)).

(** The five region sizes of the worker, [4 ^ 10 .. 4 ^ 14]. *)
Definition size_ladder : list Z := (fun shift => 4 ^ shift) <$> [10; 11; 12; 13; 14].

(** The offsets the "tlb" method visits in one pass of [n] steps from
    [k] on. *)
Fixpoint tlb_offsets (n : nat) (k prime_stride mask : Z) : list Z :=
  match n with
  | O => []
  | S n' => k :: tlb_offsets n' (Z.land (u64 (k + prime_stride)) mask) prime_stride mask
  end.

(** Bytes [j], [j + 1], ... stored at the offsets [offsets], in order. *)
Fixpoint write_bytes (offsets : list Z) (j : Z) (mem : list Z) : list Z :=
  match offsets with
  | [] => mem
  | k :: rest => write_bytes rest (j + 1) (<[Z.to_nat k := u8 j]> mem)
  end.


(** The [width] bytes of an unsigned integer, least significant first,
    and the integer a list of bytes stands for. *)
Fixpoint le_bytes (width : nat) (v : Z) : list Z :=
  match width with
  | O => []
  | S width' => u8 v :: le_bytes width' (Z.shiftr v 8)
  end.

Fixpoint le_decode (bytes : list Z) : Z :=
  match bytes with
  | [] => 0
  | b :: rest => b + 256 * le_decode rest
  end.

(** For an opcode size: how many units the "inc" generator writes, the
    bytes in a unit, and the value of a unit. *)
Definition inc_units (STRESS_OPCODE_SIZE page_size op : Z) : nat * nat * Z :=
  if STRESS_OPCODE_SIZE =? 8 then (Z.to_nat page_size, 1%nat, Z.land op 0xff)
  else if STRESS_OPCODE_SIZE =? 16 then
    (Z.to_nat (Z.shiftr page_size 1), 2%nat, Z.land op 0xffff)
  else if STRESS_OPCODE_SIZE =? 48 then (Z.to_nat (page_size / 6), 6%nat, op)
  else if STRESS_OPCODE_SIZE =? 64 then (Z.to_nat (Z.shiftr page_size 3), 8%nat, op)
  else (Z.to_nat (Z.shiftr page_size 2), 4%nat, Z.land op 0xffffffff).

(** What the "inc" generator makes of the bytes between [ops_begin] and
    [ops_end]: the units, then zeros to the end for the 48-bit size and
    the old bytes for the other sizes. *)
Definition inc_interior (STRESS_OPCODE_SIZE page_size op : Z) (interior : list Z) : list Z :=
  let '(n, width, v) := inc_units STRESS_OPCODE_SIZE page_size op in
  concat (replicate n (le_bytes width v))
  ++ (if STRESS_OPCODE_SIZE =? 48
      then replicate (length interior - n * width) 0
      else drop (n * width) interior).


(** The 64 bytes the "mixed" generator writes for the counter [tmp] and
    one random value [rnd]. *)
Definition mixed_block (tmp rnd : Z) : list Z :=
  le_bytes 8 tmp
  ++ le_bytes 8 (Z.lxor tmp 0xffffffff)
  ++ le_bytes 8 (Z.lxor (Z.shiftr tmp 1) tmp)
  ++ le_bytes 8 (Opcode.reverse64 tmp)
  ++ le_bytes 8 rnd
  ++ le_bytes 8 (Z.lxor rnd 0xffffffff)
  ++ le_bytes 8 (Z.lxor (Z.shiftr rnd 1) rnd)
  ++ le_bytes 8 (Opcode.reverse64 rnd).


(** [f] applied to each of the first [n] chunks of [step] cells of a
    list, the rest left as it is. *)
Fixpoint chunks_apply (n step : nat) (f : list Z -> list Z) (l : list Z) : list Z :=
  match n with
  | O => l
  | S n' => f (take step l) ++ chunks_apply n' step f (drop step l)
  end.

(** A 64-bit word with every bit inverted. *)
Definition complement64 (v : Z) : Z := Z.lxor v 0xffffffffffffffff.

(** Sixteen words as [stress_memthrash_swap64] leaves them: in each
    group of eight, the two groups of four exchanged. *)
Definition swap64_words (blk : list Z) : list Z :=
  take 4 (drop 4 blk) ++ take 4 blk ++ take 4 (drop 12 blk) ++ take 4 (drop 8 blk).


(** The array with the words at [i] and [j] exchanged. *)
Definition swap_cells (i j : nat) (m : list Z) : list Z :=
  match m !! i, m !! j with
  | Some x, Some y => <[j := x]> (<[i := y]> m)
  | _, _ => m
  end.

(** [c] exchanges, the first of the words at [a] and [b1 - 1], each
    later one a word further from both ends. *)
Fixpoint swap_pass (c a b1 : nat) (m : list Z) : list Z :=
  match c with
  | O => m
  | S c' => swap_pass c' (S a) (pred b1) (swap_cells a (pred b1) m)
  end.


(** The answers the creation loop of the worker-pool child uses up: it
    goes on after a thread created with stressing still wanted and after
    [EAGAIN], and at most [n] times. *)
Fixpoint attempts (n : nat) (answers : list Memthrash.create_answer) :
  list Memthrash.create_answer :=
  match n, answers with
  | S n', a :: rest =>
      if (Memthrash.pthread_create_ret a =? 0) && Memthrash.keep_stressing_flag_after a
         || (Memthrash.pthread_create_ret a =? Memthrash.EAGAIN)
      then a :: attempts n' rest
      else [a]
  | _, _ => []
  end.

(** The slots on which the events call [pthread_create], [pthread_join]. *)
Definition created_slots (events : list Memthrash.pool_event) : list nat :=
  omap (fun e => match e with Memthrash.P_create i => Some i | _ => None end) events.

Definition joined_slots (events : list Memthrash.pool_event) : list nat :=
  omap (fun e => match e with Memthrash.P_join i => Some i | _ => None end) events.

(** Slot [i] holds a thread that was created, or was never reached. *)
Definition thread_or_untouched (tried : list Memthrash.create_answer) (i : nat) : bool :=
  match tried !! i with
  | Some a => Memthrash.pthread_create_ret a =? 0
  | None => true
  end.


(** Byte [k] of the array is as it was, or holds the byte of one of the
    [memset] calls. *)
Definition kept_or_set (mwc8 : nat -> Z) (old new : list Z) (k : nat) : Prop :=
  new !! k = old !! k \/ exists i : nat, new !! k = Some (u8 (mwc8 i)).


(** A byte of the text as the "text" generator leaves it when
    [stress_mwc8] returns [rnd] for it: one bit flipped for [rnd] below
    32, the byte itself otherwise. *)
Definition flip_bit (rnd t : Z) : Z :=
  if u8 rnd <? 32 then u8 (Z.lxor t (2 ^ (u8 rnd mod 8))) else t.

(** The number of bit positions below 8 in which two bytes differ. *)
Definition bits_apart (a b : Z) : nat :=
  length (List.filter (fun k => xorb (Z.testbit a k) (Z.testbit b k))
                      (List.map Z.of_nat (List.seq 0 8))).


(** * Properties *)

(** ** Worker-pool sizing *)

Lemma ceil_div_exact (a b : Z) :
  0 < b -> a mod b = 0 -> ceil_div a b = a / b.
Proof.
  intros Hb Hm. unfold ceil_div.
  pose proof (Z.div_mod a b ltac:(lia)) as Hd.
  rewrite Hm in Hd.
  symmetry. apply Z.div_unique_pos with (r := b - 1); lia.
Qed.

Lemma ceil_div_inexact (a b : Z) :
  0 < b -> a mod b <> 0 -> ceil_div a b = a / b + 1.
Proof.
  intros Hb Hm. unfold ceil_div.
  pose proof (Z.div_mod a b ltac:(lia)) as Hd.
  pose proof (Z.mod_pos_bound a b Hb) as Hr.
  symmetry. apply Z.div_unique_pos with (r := a mod b - 1); lia.
Qed.

Lemma ceil_div_bounds (a b : Z) :
  0 < b -> (ceil_div a b - 1) * b < a <= ceil_div a b * b.
Proof.
  intros Hb.
  pose proof (Z.div_mod a b ltac:(lia)) as Hd.
  pose proof (Z.mod_pos_bound a b Hb) as Hr.
  destruct (Z.eq_dec (a mod b) 0) as [Hz | Hnz].
  - rewrite (ceil_div_exact a b Hb Hz). nia.
  - rewrite (ceil_div_inexact a b Hb Hnz). nia.
Qed.

Lemma u32_small (z : Z) : 0 <= z < 2 ^ 32 -> u32 z = z.
Proof. intros H. unfold u32. apply Z.mod_small. exact H. Qed.

Lemma u64_small (z : Z) : 0 <= z < 2 ^ 64 -> u64 z = z.
Proof. intros H. unfold u64. apply Z.mod_small. exact H. Qed.

Lemma memthrash_max_covering (w c : Z) :
  0 <= w < 2 ^ 32 -> 0 <= c < 2 ^ 32 -> (c <= w \/ w = 0) ->
  Memthrash.stress_memthrash_max w c = 1.
Proof.
  intros Hw Hc Hcase. unfold Memthrash.stress_memthrash_max.
  destruct (Z.geb_spec w c); destruct (Z.eqb_spec w 0); simpl; try reflexivity; lia.
Qed.

Lemma memthrash_max_dividing (w c : Z) :
  0 < w < c -> c < 2 ^ 32 ->
  Memthrash.stress_memthrash_max w c = ceil_div c w.
Proof.
  intros Hw Hc. unfold Memthrash.stress_memthrash_max.
  destruct (Z.geb_spec w c); [lia |].
  destruct (Z.eqb_spec w 0); [lia |]. simpl.
  destruct (Z.eqb_spec (c mod w) 0) as [Hz | Hnz].
  - symmetry. apply ceil_div_exact; lia.
  - rewrite ceil_div_inexact by lia.
    apply u32_small.
    pose proof (Z.div_mod c w ltac:(lia)) as Hd.
    pose proof (Z.mod_pos_bound c w ltac:(lia)) as Hr.
    assert (0 <= c / w) by (apply Z.div_pos; lia).
    assert (c / w < c) by nia.
    lia.
Qed.

(** C1. For [uint32_t] arguments [w] and [c >= 1],
    [stress_memthrash_max w c] is 1 when [w = 0] or [w >= c] and the
    ceiling of [c / w] otherwise (the least [r] with [c <= r * w]); so
    for [w >= 1] the result times [w] is at most [c + w], and the result
    is at least 1 in every case. *)
Theorem C1_memthrash_max_spec (w c : Z) :
  0 <= w < 2 ^ 32 -> 1 <= c < 2 ^ 32 ->
  let r := Memthrash.stress_memthrash_max w c in
  ((w = 0 \/ w >= c) -> r = 1) /\
  (~ (w = 0 \/ w >= c) -> r = ceil_div c w /\ (r - 1) * w < c <= r * w) /\
  (1 <= w -> r * w <= c + w) /\
  1 <= r.
Proof.
  intros Hw Hc r.
  assert (Hone : (w = 0 \/ w >= c) -> r = 1).
  { intros H. apply memthrash_max_covering; lia. }
  assert (Hceil : ~ (w = 0 \/ w >= c) -> r = ceil_div c w).
  { intros H. apply memthrash_max_dividing; lia. }
  destruct (Z_lt_le_dec 0 w) as [Hpos | Hzero];
    [destruct (Z_lt_le_dec w c) as [Hlt | Hge] |].
  - assert (Hr : r = ceil_div c w) by (apply Hceil; lia).
    pose proof (ceil_div_bounds c w Hpos) as Hb. rewrite <- Hr in Hb.
    split; [intros; lia |].
    split; [intros _; split; [exact Hr | lia] |].
    split; [intros _; nia | nia].
  - assert (Hr : r = 1) by (apply Hone; lia).
    split; [intros _; exact Hr |].
    split; [intros Hn; exfalso; apply Hn; lia |].
    split; [intros _; lia | lia].
  - assert (Hr : r = 1) by (apply Hone; lia).
    split; [intros _; exact Hr |].
    split; [intros Hn; exfalso; apply Hn; lia |].
    split; [intros _; lia | lia].
Qed.

Lemma C1_memthrash_max_spec_witness :
  0 <= 3 < 2 ^ 32 /\ 1 <= 8 < 2 ^ 32 /\
  let r := Memthrash.stress_memthrash_max 3 8 in
  ((3 = 0 \/ 3 >= 8) -> r = 1) /\
  (~ (3 = 0 \/ 3 >= 8) -> r = ceil_div 8 3 /\ (r - 1) * 3 < 8 <= r * 3) /\
  (1 <= 3 -> r * 3 <= 8 + 3) /\
  1 <= r.
Proof.
  split; [lia |]. split; [lia |].
  apply (C1_memthrash_max_spec 3 8); lia.
Defined.

Example memthrash_max_1_8 : Memthrash.stress_memthrash_max 1 8 = 8.
Proof. reflexivity. Qed.

Example memthrash_max_3_8 : Memthrash.stress_memthrash_max 3 8 = 3.
Proof. reflexivity. Qed.

Example memthrash_max_8_8 : Memthrash.stress_memthrash_max 8 8 = 1.
Proof. reflexivity. Qed.

Lemma optimal_loop_spec (fuel : nat) (c : Z) :
  1 <= c ->
  forall n, 0 <= n < 2 ^ 32 -> (Z.to_nat n < fuel)%nat ->
  exists r, Memthrash.optimal_loop fuel n c = Some r /\
            largest_divisor_upto n c r /\
            Z.divide r c /\ (r <= n \/ r = 1).
Proof.
  intros Hc. induction fuel as [| fuel IH]; intros n Hn Hfuel; [lia |].
  simpl. destruct (Z.gtb_spec n 1) as [Hgt | Hle].
  - destruct (Z.eqb_spec (c mod n) 0) as [Hdiv | Hndiv].
    + exists n. split; [reflexivity |].
      assert (Hd : Z.divide n c) by (apply Z.mod_divide; lia).
      split; [| split; [exact Hd | left; lia]].
      split.
      * intros _. split; [lia |]. split; [exact Hd |]. intros m Hm _. lia.
      * intros Hnone. exfalso. apply (Hnone n); [lia | exact Hd].
    + rewrite u32_small by lia.
      destruct (IH (n - 1)) as (r & Hr & [Hsome Hnone] & Hrd & Hrle); [lia | lia |].
      exists r. split; [exact Hr |].
      assert (Hnd : ~ Z.divide n c).
      { intros Hd. apply Hndiv. apply Z.mod_divide; [lia | exact Hd]. }
      assert (Hnarrow : forall m, 2 <= m <= n -> Z.divide m c -> 2 <= m <= n - 1).
      { intros m Hm Hd. destruct (Z.eq_dec m n) as [-> | Hne]; [contradiction | lia]. }
      split; [| split; [exact Hrd | lia]].
      split.
      * intros (m & Hm & Hd).
        destruct Hsome as (Hr1 & Hr2 & Hr3);
          [exists m; split; [apply Hnarrow |]; assumption |].
        split; [lia |]. split; [exact Hr2 |].
        intros m' Hm' Hd'. apply Hr3; [apply Hnarrow |]; assumption.
      * intros Hno. apply Hnone. intros m Hm. apply Hno. lia.
  - exists 1. split; [reflexivity |].
    split; [| split; [apply Z.divide_1_l | right; reflexivity]].
    split.
    + intros (m & Hm & _). lia.
    + intros _. reflexivity.
Qed.

(** C9. For [uint32_t] arguments [w] and [c >= 1],
    [stress_memthash_optimal w c] returns: it yields the largest [n]
    with [2 <= n <= w] that divides [c] when there is one and 1
    otherwise; so its result divides [c] and is at most [w], or is 1. *)
Theorem C9_memthash_optimal_spec (w c : Z) :
  0 <= w < 2 ^ 32 -> 1 <= c < 2 ^ 32 ->
  exists r,
    Memthrash.stress_memthash_optimal w c = Some r /\
    largest_divisor_upto w c r /\
    Z.divide r c /\ (r <= w \/ r = 1).
Proof.
  intros Hw Hc. unfold Memthrash.stress_memthash_optimal.
  apply optimal_loop_spec; lia.
Qed.

Lemma C9_memthash_optimal_spec_witness :
  0 <= 5 < 2 ^ 32 /\ 1 <= 12 < 2 ^ 32 /\
  exists r,
    Memthrash.stress_memthash_optimal 5 12 = Some r /\
    largest_divisor_upto 5 12 r /\
    Z.divide r 12 /\ (r <= 5 \/ r = 1).
Proof.
  split; [lia |]. split; [lia |].
  apply (C9_memthash_optimal_spec 5 12); lia.
Defined.

Example memthash_optimal_5_12 : Memthrash.stress_memthash_optimal 5 12 = Some 4.
Proof. reflexivity. Qed.

Example memthash_optimal_6_7 : Memthrash.stress_memthash_optimal 6 7 = Some 1.
Proof. reflexivity. Qed.

Example memthash_optimal_0_8 : Memthrash.stress_memthash_optimal 0 8 = Some 1.
Proof. reflexivity. Qed.

(** ** [reverse64] *)

Lemma testbit_above_64 (m i : Z) :
  0 <= m < 2 ^ 64 -> 64 <= i -> Z.testbit m i = false.
Proof.
  intros Hm Hi. rewrite <- (Z.mod_small m (2 ^ 64)) by exact Hm.
  apply Z.mod_pow2_bits_high. lia.
Qed.

Lemma u64_testbit (a n : Z) :
  Z.testbit (u64 a) n = (n <? 64) && Z.testbit a n.
Proof.
  unfold u64. destruct (Z.ltb_spec n 64) as [Hlt | Hge]; simpl.
  - apply Z.mod_pow2_bits_low. exact Hlt.
  - apply Z.mod_pow2_bits_high. lia.
Qed.

Lemma swap_round_testbit (k mhi mlo x n : Z) :
  0 <= n ->
  Z.testbit (swap_round k mhi mlo x) n =
    (Z.testbit x (n + k) && Z.testbit mhi (n + k))
    || ((n <? 64) && (Z.testbit x (n - k) && Z.testbit mlo (n - k))).
Proof.
  intros Hn. unfold swap_round.
  rewrite Z.lor_spec, Z.shiftr_spec, u64_testbit, Z.shiftl_spec by exact Hn.
  rewrite !Z.land_spec. reflexivity.
Qed.

Lemma in_bit_positions (n : Z) : 0 <= n < 64 -> In n bit_positions.
Proof.
  intros Hn. unfold bit_positions.
  apply in_map_iff. exists (Z.to_nat n). split; [lia |].
  apply in_seq. lia.
Qed.

Lemma forallb_bit_positions (P : Z -> bool) (n : Z) :
  forallb P bit_positions = true -> 0 <= n < 64 -> P n = true.
Proof.
  intros Hall Hn. rewrite forallb_forall in Hall.
  apply Hall, in_bit_positions, Hn.
Qed.

Lemma swap_round_moves (k mhi mlo x n : Z) :
  round_masks_ok k mhi mlo = true -> 0 <= n < 64 ->
  Z.testbit (swap_round k mhi mlo x) n = Z.testbit x (round_source k n).
Proof.
  intros Hok Hn.
  pose proof (forallb_bit_positions _ n Hok Hn) as Hmask. cbv beta zeta in Hmask.
  rewrite swap_round_testbit by lia. unfold round_source.
  destruct (Z.ltb_spec n 64); [| lia].
  destruct (Z.land n k =? 0);
    destruct (Z.testbit mhi (n + k)); destruct (Z.testbit mlo (n - k));
    simpl in Hmask; try discriminate; simpl;
    rewrite ?andb_true_r, ?andb_false_r, ?orb_false_r; reflexivity.
Qed.

Lemma swap_round_high (k mhi mlo x n : Z) :
  0 <= k -> 0 <= mhi < 2 ^ 64 -> 64 <= n ->
  Z.testbit (swap_round k mhi mlo x) n = false.
Proof.
  intros Hk Hm Hn. rewrite swap_round_testbit by lia.
  rewrite (testbit_above_64 mhi (n + k)) by lia.
  destruct (Z.ltb_spec n 64); [lia |].
  rewrite andb_false_r. reflexivity.
Qed.

Lemma reverse64_rounds (x : Z) :
  Opcode.reverse64 x =
    swap_round 1 0xaaaaaaaaaaaaaaaa 0x5555555555555555
      (swap_round 2 0xcccccccccccccccc 0x3333333333333333
         (swap_round 4 0xf0f0f0f0f0f0f0f0 0x0f0f0f0f0f0f0f0f x)).
Proof. reflexivity. Qed.

Lemma round_source_in_word (k n : Z) :
  forallb (fun n => in_word (round_source k n)) bit_positions = true ->
  0 <= n < 64 -> 0 <= round_source k n < 64.
Proof.
  intros Hall Hn.
  pose proof (forallb_bit_positions _ n Hall Hn) as H. cbv beta in H.
  unfold in_word in H. apply andb_true_iff in H. destruct H as [H1 H2].
  apply Z.leb_le in H1. apply Z.ltb_lt in H2. lia.
Qed.

Lemma reverse64_testbit (x n : Z) :
  0 <= n < 64 ->
  Z.testbit (Opcode.reverse64 x) n = Z.testbit x (reverse64_source n).
Proof.
  intros Hn. rewrite reverse64_rounds. unfold reverse64_source.
  assert (H1 : 0 <= round_source 1 n < 64)
    by (apply round_source_in_word; [vm_compute; reflexivity | exact Hn]).
  assert (H2 : 0 <= round_source 2 (round_source 1 n) < 64)
    by (apply round_source_in_word; [vm_compute; reflexivity | exact H1]).
  rewrite swap_round_moves by (vm_compute; reflexivity || exact Hn).
  rewrite swap_round_moves by (vm_compute; reflexivity || exact H1).
  rewrite swap_round_moves by (vm_compute; reflexivity || exact H2).
  reflexivity.
Qed.

Lemma reverse64_source_involutive (n : Z) :
  0 <= n < 64 ->
  0 <= reverse64_source n < 64 /\ reverse64_source (reverse64_source n) = n.
Proof.
  intros Hn.
  pose proof (forallb_bit_positions
    (fun n => in_word (reverse64_source n)
              && (reverse64_source (reverse64_source n) =? n)) n
    ltac:(vm_compute; reflexivity) Hn) as H.
  cbv beta in H. apply andb_true_iff in H. destruct H as [Hin Heq].
  unfold in_word in Hin. apply andb_true_iff in Hin. destruct Hin as [Ha Hb].
  apply Z.leb_le in Ha. apply Z.ltb_lt in Hb. apply Z.eqb_eq in Heq.
  split; [lia | exact Heq].
Qed.

Lemma reverse64_range (x : Z) : 0 <= Opcode.reverse64 x < 2 ^ 64.
Proof.
  assert (Hhigh : forall n, 64 <= n -> Z.testbit (Opcode.reverse64 x) n = false).
  { intros n Hn. rewrite reverse64_rounds. apply swap_round_high; lia. }
  assert (Hnn : 0 <= Opcode.reverse64 x).
  { apply Z.bits_iff_nonneg_ex. exists 63. intros m Hm. apply Hhigh. lia. }
  split; [exact Hnn |].
  destruct (Z_lt_le_dec (Opcode.reverse64 x) (2 ^ 64)) as [Hlt | Hge]; [exact Hlt |].
  exfalso.
  assert (Hpos : 0 < Opcode.reverse64 x) by lia.
  pose proof (Z.bit_log2 _ Hpos) as Hbit.
  assert (Hlog : 64 <= Z.log2 (Opcode.reverse64 x)).
  { apply Z.log2_le_pow2; [exact Hpos | exact Hge]. }
  rewrite Hhigh in Hbit by exact Hlog. discriminate.
Qed.

(** C10. For every 64-bit [x], [reverse64 (reverse64 x) = x]; so
    [reverse64] is a bijection on 64-bit words: it maps them to 64-bit
    words and is injective on them. *)
Theorem C10_reverse64_involutive (x : Z) :
  0 <= x < 2 ^ 64 ->
  Opcode.reverse64 (Opcode.reverse64 x) = x /\
  0 <= Opcode.reverse64 x < 2 ^ 64 /\
  (forall y, 0 <= y < 2 ^ 64 -> Opcode.reverse64 x = Opcode.reverse64 y -> x = y).
Proof.
  intros Hx.
  assert (Hinv : forall z, 0 <= z < 2 ^ 64 ->
                           Opcode.reverse64 (Opcode.reverse64 z) = z).
  { intros z Hz. apply Z.bits_inj'. intros n Hn.
    destruct (Z_lt_le_dec n 64) as [Hlt | Hge].
    - destruct (reverse64_source_involutive n ltac:(lia)) as [Hin Hback].
      rewrite reverse64_testbit by lia.
      rewrite reverse64_testbit by exact Hin.
      rewrite Hback. reflexivity.
    - rewrite (testbit_above_64 z n) by assumption.
      apply testbit_above_64; [apply reverse64_range | exact Hge]. }
  split; [apply Hinv; exact Hx |].
  split; [apply reverse64_range |].
  intros y Hy Heq.
  rewrite <- (Hinv x Hx), <- (Hinv y Hy), Heq. reflexivity.
Qed.

Lemma C10_reverse64_involutive_witness :
  0 <= 0x0123456789abcdef < 2 ^ 64 /\
  Opcode.reverse64 (Opcode.reverse64 0x0123456789abcdef) = 0x0123456789abcdef /\
  0 <= Opcode.reverse64 0x0123456789abcdef < 2 ^ 64 /\
  (forall y, 0 <= y < 2 ^ 64 ->
     Opcode.reverse64 0x0123456789abcdef = Opcode.reverse64 y ->
     0x0123456789abcdef = y).
Proof.
  split; [lia |].
  apply (C10_reverse64_involutive 0x0123456789abcdef); lia.
Defined.

Example reverse64_bytes : Opcode.reverse64 0x0123456789abcdef = 0x80c4a2e691d5b3f7.
Proof. reflexivity. Qed.

(** ** The memthrash registry *)

(** One goal per combination of the preprocessor conditions that shape
    the table. *)
Ltac each_build cfg := destruct cfg as [[] [] [] ?].

Lemma memthrash_methods_length (cfg : Memthrash.build_config) :
  (20 <= length (Memthrash.memthrash_methods cfg) <= 23)%nat.
Proof.
  each_build cfg; cbn; lia.
Qed.

Lemma memthrash_methods_first (cfg : Memthrash.build_config) :
  Memthrash.memthrash_methods cfg !! 0%nat =
    Some {| Memthrash.name := "all";
            Memthrash.func := Memthrash.Ptr.stress_memthrash_all |}.
Proof. reflexivity. Qed.

Lemma memthrash_methods_NoDup (cfg : Memthrash.build_config) :
  NoDup (Memthrash.func <$> Memthrash.memthrash_methods cfg).
Proof.
  each_build cfg; apply (bool_decide_unpack _); vm_compute; reflexivity.
Qed.

Lemma SIZEOF_ARRAY_bounds (cfg : Memthrash.build_config) :
  20 <= Memthrash.SIZEOF_ARRAY_memthrash_methods cfg <= 23.
Proof.
  unfold Memthrash.SIZEOF_ARRAY_memthrash_methods.
  pose proof (memthrash_methods_length cfg). lia.
Qed.

(** *** "random" *)

Lemma random_index_range (cfg : Memthrash.build_config) (r : Z) :
  0 <= Memthrash.random_index cfg r < Memthrash.SIZEOF_ARRAY_memthrash_methods cfg.
Proof.
  unfold Memthrash.random_index. apply Z.mod_pos_bound.
  pose proof (SIZEOF_ARRAY_bounds cfg). lia.
Qed.

Lemma random_index_lookup (cfg : Memthrash.build_config) (r : Z) :
  is_Some (Memthrash.memthrash_methods cfg !! Z.to_nat (Memthrash.random_index cfg r)).
Proof.
  apply lookup_lt_is_Some.
  pose proof (random_index_range cfg r) as H.
  unfold Memthrash.SIZEOF_ARRAY_memthrash_methods in H. lia.
Qed.

Lemma is_meta_false (f : Memthrash.Ptr.stress_memthrash_func_t) :
  is_meta f = false <->
  f <> Memthrash.Ptr.stress_memthrash_all /\ f <> Memthrash.Ptr.stress_memthrash_random.
Proof.
  unfold is_meta. rewrite orb_false_iff, !bool_decide_eq_false. tauto.
Qed.

Lemma random_guard (f : Memthrash.Ptr.stress_memthrash_func_t) :
  bool_decide (f <> Memthrash.Ptr.stress_memthrash_random)
  && bool_decide (f <> Memthrash.Ptr.stress_memthrash_all) = negb (is_meta f).
Proof.
  destruct f; reflexivity.
Qed.

Lemma random_step (cfg : Memthrash.build_config) (r : Z) (rest : list Z) :
  exists info,
    Memthrash.memthrash_methods cfg !! Z.to_nat (Memthrash.random_index cfg r) = Some info /\
    meta_draw cfg r = is_meta (Memthrash.func info) /\
    Memthrash.stress_memthrash_random cfg (r :: rest) =
      if is_meta (Memthrash.func info)
      then Memthrash.stress_memthrash_random cfg rest
      else Some (Memthrash.random_index cfg r, Memthrash.func info).
Proof.
  destruct (random_index_lookup cfg r) as [info Hinfo].
  exists info. split; [exact Hinfo |]. split.
  - unfold meta_draw. rewrite Hinfo. reflexivity.
  - simpl. rewrite Hinfo, random_guard.
    destruct (is_meta (Memthrash.func info)); reflexivity.
Qed.

(** C3, as the code has it.  Each draw is [stress_mwc8() % N], a slot in
    [0, N) (slot 0 included).  A draw that lands on the "all" or the
    "random" slot is drawn again; the first other draw decides: the
    method called is the one in that slot, it is neither "all" nor
    "random", and its slot is not 0.  The loop goes on exactly as long
    as the draws land on the two meta slots. *)
Theorem C3_random_dispatch (cfg : Memthrash.build_config) (mwc8 : list Z) :
  Forall (fun r => 0 <= Memthrash.random_index cfg r
                   < Memthrash.SIZEOF_ARRAY_memthrash_methods cfg) mwc8 /\
  match Memthrash.stress_memthrash_random cfg mwc8 with
  | Some (i, f) =>
      exists skipped r rest,
        mwc8 = skipped ++ r :: rest /\
        forallb (meta_draw cfg) skipped = true /\
        meta_draw cfg r = false /\
        i = Memthrash.random_index cfg r /\
        Memthrash.func <$> Memthrash.memthrash_methods cfg !! Z.to_nat i = Some f /\
        f <> Memthrash.Ptr.stress_memthrash_all /\
        f <> Memthrash.Ptr.stress_memthrash_random /\
        1 <= i < Memthrash.SIZEOF_ARRAY_memthrash_methods cfg
  | None => forallb (meta_draw cfg) mwc8 = true
  end.
Proof.
  split.
  - apply Forall_forall. intros r _. apply random_index_range.
  - induction mwc8 as [| r rest IH]; [reflexivity |].
    destruct (random_step cfg r rest) as (info & Hinfo & Hmeta & Hstep).
    rewrite Hstep. destruct (is_meta (Memthrash.func info)) eqn:Hm.
    + destruct (Memthrash.stress_memthrash_random cfg rest) as [[i f] |].
      * destruct IH as (skipped & r' & rest' & -> & Hsk & Hr' & Hrest).
        exists (r :: skipped), r', rest'. split; [reflexivity |].
        split; [simpl; rewrite Hmeta, Hsk; reflexivity |].
        split; [exact Hr' | exact Hrest].
      * simpl. rewrite Hmeta, IH. reflexivity.
    + apply is_meta_false in Hm. destruct Hm as [Hall Hrandom].
      exists [], r, rest. split; [reflexivity |]. split; [reflexivity |].
      split; [exact Hmeta |]. split; [reflexivity |].
      split; [rewrite Hinfo; reflexivity |].
      split; [exact Hall |]. split; [exact Hrandom |].
      pose proof (random_index_range cfg r) as Hrange.
      split; [| lia].
      destruct (Z.eq_dec (Memthrash.random_index cfg r) 0) as [Hz | Hnz]; [| lia].
      exfalso. rewrite Hz in Hinfo. change (Z.to_nat 0) with 0%nat in Hinfo.
      rewrite memthrash_methods_first in Hinfo.
      injection Hinfo as <-. apply Hall. reflexivity.
Qed.

(** C3, as the specification states it, does not hold: the draw is not
    confined to [1, N), nor is it uniform.  When [stress_mwc8] returns 0
    the drawn slot is 0, the "all" slot; it is then drawn again.  With
    23 methods, 12 of the 256 byte values draw slot 0 and 11 draw
    slot 22. *)
Lemma C3_random_draws_slot_zero :
  Memthrash.random_index linux_x86_64 0 = 0 /\
  ~ (1 <= Memthrash.random_index linux_x86_64 0
     < Memthrash.SIZEOF_ARRAY_memthrash_methods linux_x86_64) /\
  Memthrash.stress_memthrash_random linux_x86_64 [0; 16; 1] =
    Some (1, Memthrash.Ptr.stress_memthrash_random_chunk1) /\
  draws_landing_on linux_x86_64 0 = 12%nat /\
  draws_landing_on linux_x86_64 22 = 11%nat.
Proof.
  split; [reflexivity |].
  split; [vm_compute; intros [H _]; apply H; reflexivity |].
  split; [reflexivity |]. split; vm_compute; reflexivity.
Qed.

Example random_skips_meta_slots :
  Memthrash.stress_memthrash_random linux_x86_64 [23; 0; 39; 61] =
    Some (15, Memthrash.Ptr.stress_memthrash_prefetch).
Proof. reflexivity. Qed.

Example random_runs_out :
  Memthrash.stress_memthrash_random linux_x86_64 [0; 16; 23; 39] = None.
Proof. reflexivity. Qed.

(** *** "all" *)

Lemma all_step (cfg : Memthrash.build_config) (i : nat) (repeats : nat)
  (info : Memthrash.stress_memthrash_method_info_t) :
  Memthrash.memthrash_methods cfg !! i = Some info ->
  Memthrash.stress_memthrash_all cfg (Z.of_nat i) repeats =
    Some (slice_calls repeats info,
          if (S i =? length (Memthrash.memthrash_methods cfg))%nat
          then 1 else Z.of_nat (S i)).
Proof.
  intros Hinfo. unfold Memthrash.stress_memthrash_all.
  rewrite Nat2Z.id, Hinfo.
  pose proof (lookup_lt_Some _ _ _ Hinfo) as Hlt.
  pose proof (memthrash_methods_length cfg) as Hlen.
  rewrite u64_small by lia.
  unfold Memthrash.SIZEOF_ARRAY_memthrash_methods, slice_calls.
  destruct (Nat.eqb_spec (S i) (length (Memthrash.memthrash_methods cfg))) as [He | Hne];
    destruct (Z.geb_spec (Z.of_nat i + 1) (Z.of_nat (length (Memthrash.memthrash_methods cfg))));
    try lia; repeat f_equal; lia.
Qed.

Lemma all_invocations_from (cfg : Memthrash.build_config) (slices : list nat) :
  forall i : nat,
    (1 <= i < length (Memthrash.memthrash_methods cfg))%nat ->
    (i + length slices <= length (Memthrash.memthrash_methods cfg))%nat ->
    Memthrash.all_invocations cfg (Z.of_nat i) slices =
      Some (zip_with slice_calls slices (drop i (Memthrash.memthrash_methods cfg)),
            if (i + length slices =? length (Memthrash.memthrash_methods cfg))%nat
            then 1 else Z.of_nat (i + length slices)).
Proof.
  induction slices as [| repeats rest IH]; intros i Hi Hlen.
  - cbn [Memthrash.all_invocations zip_with length].
    destruct (Nat.eqb_spec (i + 0) (length (Memthrash.memthrash_methods cfg)));
      [lia |]. repeat f_equal. lia.
  - destruct (lookup_lt_is_Some_2 (Memthrash.memthrash_methods cfg) i ltac:(lia))
      as [info Hinfo].
    cbn [Memthrash.all_invocations]. rewrite (all_step cfg i repeats info Hinfo).
    rewrite (drop_S _ _ _ Hinfo). cbn [zip_with length] in *.
    destruct (Nat.eqb_spec (S i) (length (Memthrash.memthrash_methods cfg))) as [He | Hne].
    + assert (rest = []) as -> by (destruct rest; [reflexivity | cbn [length] in Hlen; lia]).
      cbn [Memthrash.all_invocations zip_with length].
      destruct (Nat.eqb_spec (i + 1) (length (Memthrash.memthrash_methods cfg)));
        [reflexivity | lia].
    + rewrite (IH (S i)) by lia.
      replace (S i + length rest)%nat with (i + S (length rest))%nat by lia.
      reflexivity.
Qed.

(** C4. From the fresh state ([i = 1]), [N - 1] consecutive invocations
    of "all" select the entries of slots [1 .. N-1] in table order, one
    entry per invocation (within its 10 ms slice an invocation calls
    the selected method once and then again while the slice lasts), and
    leave [i = 1] again, so that the next invocation starts the
    rotation over.  No method occurs twice in the table and every method
    other than "all" lies in slots [1 .. N-1]: each is selected by
    exactly one of the [N - 1] invocations. *)
Theorem C4_all_round_robin (cfg : Memthrash.build_config) (slices : list nat) :
  length slices = (length (Memthrash.memthrash_methods cfg) - 1)%nat ->
  Memthrash.all_invocations cfg Memthrash.all_i_initial slices =
    Some (zip_with slice_calls slices (drop 1 (Memthrash.memthrash_methods cfg)),
          Memthrash.all_i_initial) /\
  head <$> zip_with slice_calls slices (drop 1 (Memthrash.memthrash_methods cfg)) =
    Some <$> (Memthrash.func <$> drop 1 (Memthrash.memthrash_methods cfg)) /\
  NoDup (Memthrash.func <$> Memthrash.memthrash_methods cfg) /\
  Memthrash.func <$> Memthrash.memthrash_methods cfg =
    Memthrash.Ptr.stress_memthrash_all
      :: (Memthrash.func <$> drop 1 (Memthrash.memthrash_methods cfg)).
Proof.
  intros Hlen. pose proof (memthrash_methods_length cfg) as HN.
  split; [| split; [| split]].
  - change Memthrash.all_i_initial with (Z.of_nat 1).
    rewrite all_invocations_from by lia.
    destruct (Nat.eqb_spec (1 + length slices) (length (Memthrash.memthrash_methods cfg)));
      [reflexivity | lia].
  - assert (Hl : length slices = length (drop 1 (Memthrash.memthrash_methods cfg)))
      by (rewrite length_drop; lia).
    revert Hl. generalize (drop 1 (Memthrash.memthrash_methods cfg)) as table.
    clear Hlen HN. induction slices as [| r rest IH]; intros [| info table] Hl;
      try discriminate; [reflexivity |].
    cbn [zip_with fmap list_fmap slice_calls replicate head]. f_equal.
    apply IH. cbn [length] in Hl. lia.
  - apply memthrash_methods_NoDup.
  - reflexivity.
Qed.

Lemma C4_all_round_robin_witness :
  length (replicate 22 2%nat) = (length (Memthrash.memthrash_methods linux_x86_64) - 1)%nat /\
  Memthrash.all_invocations linux_x86_64 Memthrash.all_i_initial
    (replicate 22 2%nat) =
    Some (zip_with slice_calls (replicate 22 2%nat)
            (drop 1 (Memthrash.memthrash_methods linux_x86_64)),
          Memthrash.all_i_initial) /\
  head <$> zip_with slice_calls (replicate 22 2%nat)
             (drop 1 (Memthrash.memthrash_methods linux_x86_64)) =
    Some <$> (Memthrash.func <$> drop 1 (Memthrash.memthrash_methods linux_x86_64)) /\
  NoDup (Memthrash.func <$> Memthrash.memthrash_methods linux_x86_64) /\
  Memthrash.func <$> Memthrash.memthrash_methods linux_x86_64 =
    Memthrash.Ptr.stress_memthrash_all
      :: (Memthrash.func <$> drop 1 (Memthrash.memthrash_methods linux_x86_64)).
Proof.
  split; [reflexivity |].
  apply (C4_all_round_robin linux_x86_64 (replicate 22 2%nat)). reflexivity.
Defined.

Example all_first_three :
  Memthrash.all_invocations linux_x86_64 Memthrash.all_i_initial [0; 1; 0]%nat =
    Some ([[Memthrash.Ptr.stress_memthrash_random_chunk1];
           [Memthrash.Ptr.stress_memthrash_random_chunk8;
            Memthrash.Ptr.stress_memthrash_random_chunk8];
           [Memthrash.Ptr.stress_memthrash_random_chunk64]], 4).
Proof. reflexivity. Qed.

Example all_wraps_to_one :
  Memthrash.stress_memthrash_all linux_x86_64 22 0 =
    Some ([Memthrash.Ptr.stress_memthrash_tlb], 1).
Proof. reflexivity. Qed.

(** ** Method selection *)

Lemma N_of_ascii_inj (c1 c2 : ascii) : N_of_ascii c1 = N_of_ascii c2 -> c1 = c2.
Proof.
  intros H. rewrite <- (ascii_N_embedding c1), <- (ascii_N_embedding c2), H.
  reflexivity.
Qed.

Lemma N_of_ascii_zero (c : ascii) : N_of_ascii c = 0%N -> c = Ascii.zero.
Proof. intros H. apply N_of_ascii_inj. rewrite H. reflexivity. Qed.

Lemma is_c_string_cons (c : ascii) (r : string) :
  is_c_string (String c r) = true -> c <> Ascii.zero /\ is_c_string r = true.
Proof.
  simpl. intros H. apply andb_true_iff in H. destruct H as [Hc Hr].
  split; [| exact Hr]. intros ->. discriminate.
Qed.

Lemma strcmp_zero (s1 s2 : string) :
  is_c_string s1 = true -> is_c_string s2 = true ->
  (strcmp s1 s2 = 0 <-> s1 = s2).
Proof.
  revert s2. induction s1 as [| c1 r1 IH]; intros [| c2 r2] H1 H2.
  - simpl. tauto.
  - apply is_c_string_cons in H2. destruct H2 as [Hc2 _].
    simpl. split; [| discriminate]. intros H. exfalso. apply Hc2.
    apply N_of_ascii_zero. lia.
  - apply is_c_string_cons in H1. destruct H1 as [Hc1 _].
    simpl. split; [| discriminate]. intros H. exfalso. apply Hc1.
    apply N_of_ascii_zero. lia.
  - apply is_c_string_cons in H1. destruct H1 as [_ Hr1].
    apply is_c_string_cons in H2. destruct H2 as [_ Hr2].
    simpl. destruct (Ascii.eqb_spec c1 c2) as [-> | Hne].
    + rewrite (IH r2 Hr1 Hr2). split; [intros ->; reflexivity | intros [= ->]; reflexivity].
    + split; [| intros [= -> _]; contradiction].
      intros H. exfalso. apply Hne. apply N_of_ascii_inj. lia.
Qed.

Lemma strcmp_eqb (s1 s2 : string) :
  is_c_string s1 = true -> is_c_string s2 = true ->
  (strcmp s1 s2 =? 0) = String.eqb s1 s2.
Proof.
  intros H1 H2. pose proof (strcmp_zero s1 s2 H1 H2) as Hz.
  destruct (Z.eqb_spec (strcmp s1 s2) 0) as [He | Hne];
    destruct (String.eqb_spec s1 s2) as [Hs | Hns]; tauto.
Qed.

Lemma memthrash_names_c_strings (cfg : Memthrash.build_config) :
  Forall (fun info => is_c_string (Memthrash.name info) = true)
         (Memthrash.memthrash_methods cfg).
Proof.
  each_build cfg; repeat (constructor; [reflexivity |]); constructor.
Qed.

Lemma find_memthrash_method_spec (wanted : string)
  (table : list Memthrash.stress_memthrash_method_info_t) :
  is_c_string wanted = true ->
  Forall (fun info => is_c_string (Memthrash.name info) = true) table ->
  forall i,
    match Memthrash.find_memthrash_method wanted table i with
    | Some j =>
        exists k info, j = (i + k)%nat /\ table !! k = Some info /\
                       Memthrash.name info = wanted /\
                       wanted ∉ Memthrash.name <$> take k table
    | None => wanted ∉ Memthrash.name <$> table
    end.
Proof.
  intros Hw Htable. induction Htable as [| info rest Hinfo Hrest IH]; intros i.
  - simpl. apply not_elem_of_nil.
  - simpl. rewrite (strcmp_eqb _ _ Hinfo Hw).
    destruct (String.eqb_spec (Memthrash.name info) wanted) as [He | Hne].
    + exists 0%nat, info. split; [lia |]. split; [reflexivity |].
      split; [exact He |]. simpl. apply not_elem_of_nil.
    + specialize (IH (S i)).
      destruct (Memthrash.find_memthrash_method wanted rest (S i)) as [j |].
      * destruct IH as (k & info' & -> & Hk & Hname & Hbefore).
        exists (S k), info'. split; [lia |]. split; [exact Hk |].
        split; [exact Hname |]. simpl. rewrite not_elem_of_cons.
        split; [congruence | exact Hbefore].
      * rewrite not_elem_of_cons. split; [congruence | exact IH].
Qed.

Lemma find_opcode_method_spec (wanted : string) :
  is_c_string wanted = true ->
  match Opcode.find_opcode_method wanted Opcode.stress_opcode_methods 0 with
  | Some j => opcode_method_names !! j = Some wanted
  | None => wanted ∉ opcode_method_names
  end.
Proof.
  intros Hw. unfold Opcode.stress_opcode_methods, opcode_method_names.
  cbn [Opcode.find_opcode_method Opcode.func Opcode.name].
  rewrite !strcmp_eqb by (exact Hw || reflexivity).
  destruct (String.eqb_spec "random" wanted) as [<- | H0]; [reflexivity |].
  destruct (String.eqb_spec "text" wanted) as [<- | H1]; [reflexivity |].
  destruct (String.eqb_spec "inc" wanted) as [<- | H2]; [reflexivity |].
  destruct (String.eqb_spec "mixed" wanted) as [<- | H3]; [reflexivity |].
  rewrite !not_elem_of_cons. repeat split; try congruence. apply not_elem_of_nil.
Qed.

(** C5, as the code has it.  For every C string [wanted], both
    [stress_set_memthrash_method] and [stress_set_opcode_method] compare
    with [strcmp]: they succeed (return 0, and store a pointer to the
    first entry of that name as the method setting) if and only if
    [wanted] is exactly a registered name; otherwise they return -1,
    store nothing, and print every registered name to stderr. *)
Theorem C5_method_lookup_exact (cfg : Memthrash.build_config) (wanted : string) :
  is_c_string wanted = true ->
  (((wanted ∈ Memthrash.name <$> Memthrash.memthrash_methods cfg) /\
    exists i, Memthrash.name <$> Memthrash.memthrash_methods cfg !! i = Some wanted /\
              Memthrash.stress_set_memthrash_method cfg wanted =
                (0, [E_set_setting "memthrash-method" i]))
   \/
   ((wanted ∉ Memthrash.name <$> Memthrash.memthrash_methods cfg) /\
    Memthrash.stress_set_memthrash_method cfg wanted =
      (-1, rejection "memthrash-method"
             (Memthrash.name <$> Memthrash.memthrash_methods cfg))))
  /\
  (((wanted ∈ opcode_method_names) /\
    exists i, opcode_method_names !! i = Some wanted /\
              Opcode.stress_set_opcode_method wanted =
                (0, [E_set_setting "opcode-method" i]))
   \/
   ((wanted ∉ opcode_method_names) /\
    Opcode.stress_set_opcode_method wanted =
      (-1, rejection "opcode-method" opcode_method_names))).
Proof.
  intros Hw. split.
  - pose proof (find_memthrash_method_spec wanted _ Hw
                  (memthrash_names_c_strings cfg) 0%nat) as Hfind.
    unfold Memthrash.stress_set_memthrash_method.
    destruct (Memthrash.find_memthrash_method wanted (Memthrash.memthrash_methods cfg) 0)
      as [j |].
    + left. destruct Hfind as (k & info & -> & Hk & Hname & _).
      assert (Hlk : Memthrash.name <$> Memthrash.memthrash_methods cfg !! k = Some wanted)
        by (rewrite Hk; simpl; rewrite Hname; reflexivity).
      split.
      * apply list_elem_of_lookup. exists k. rewrite list_lookup_fmap. exact Hlk.
      * exists k. split; [exact Hlk | reflexivity].
    + right. split; [exact Hfind |].
      unfold rejection. rewrite List.map_map. reflexivity.
  - pose proof (find_opcode_method_spec wanted Hw) as Hfind.
    unfold Opcode.stress_set_opcode_method.
    destruct (Opcode.find_opcode_method wanted Opcode.stress_opcode_methods 0) as [j |].
    + left. split.
      * apply list_elem_of_lookup. exists j. exact Hfind.
      * exists j. split; [exact Hfind | reflexivity].
    + right. split; [exact Hfind | reflexivity].
Qed.

Lemma C5_method_lookup_exact_witness :
  is_c_string "inc" = true /\
  ((("inc"%string ∈ Memthrash.name <$> Memthrash.memthrash_methods linux_x86_64) /\
    exists i, Memthrash.name <$> Memthrash.memthrash_methods linux_x86_64 !! i
                = Some "inc"%string /\
              Memthrash.stress_set_memthrash_method linux_x86_64 "inc" =
                (0, [E_set_setting "memthrash-method" i]))
   \/
   (("inc"%string ∉ Memthrash.name <$> Memthrash.memthrash_methods linux_x86_64) /\
    Memthrash.stress_set_memthrash_method linux_x86_64 "inc" =
      (-1, rejection "memthrash-method"
             (Memthrash.name <$> Memthrash.memthrash_methods linux_x86_64))))
  /\
  ((("inc"%string ∈ opcode_method_names) /\
    exists i, opcode_method_names !! i = Some "inc"%string /\
              Opcode.stress_set_opcode_method "inc" =
                (0, [E_set_setting "opcode-method" i]))
   \/
   (("inc"%string ∉ opcode_method_names) /\
    Opcode.stress_set_opcode_method "inc" =
      (-1, rejection "opcode-method" opcode_method_names))).
Proof.
  split; [reflexivity |].
  apply (C5_method_lookup_exact linux_x86_64 "inc"). reflexivity.
Defined.

Example set_memthrash_method_memset64 :
  Memthrash.stress_set_memthrash_method linux_x86_64 "memset64" =
    (0, [E_set_setting "memthrash-method" 13]).
Proof. reflexivity. Qed.

Example set_opcode_method_inc :
  Opcode.stress_set_opcode_method "inc" = (0, [E_set_setting "opcode-method" 2]).
Proof. reflexivity. Qed.

(** C5, as the specification states it, does not hold: the comparison
    is not blind to case.  "ALL" equals the registered "all" when case
    is set aside, and so does "INC" the registered "inc"; both are
    rejected, with the list of names printed and nothing stored. *)
Lemma C5_uppercase_name_rejected :
  spec_eq_nocase "all" "ALL" = true /\
  ("all"%string ∈ Memthrash.name <$> Memthrash.memthrash_methods linux_x86_64) /\
  Memthrash.stress_set_memthrash_method linux_x86_64 "ALL" =
    (-1, rejection "memthrash-method"
           (Memthrash.name <$> Memthrash.memthrash_methods linux_x86_64)) /\
  spec_eq_nocase "inc" "INC" = true /\
  ("inc"%string ∈ opcode_method_names) /\
  Opcode.stress_set_opcode_method "INC" =
    (-1, rejection "opcode-method" opcode_method_names).
Proof.
  split; [reflexivity |].
  split; [apply list_elem_of_lookup; exists 0%nat; reflexivity |].
  split; [reflexivity |]. split; [reflexivity |].
  split; [apply list_elem_of_lookup; exists 2%nat; reflexivity |].
  reflexivity.
Qed.

Example set_opcode_method_unknown :
  Opcode.stress_set_opcode_method "dec" =
    (-1, [E_stderr "opcode-method must be one of:"; E_stderr " random";
          E_stderr " text"; E_stderr " inc"; E_stderr " mixed"; E_stderr newline]).
Proof. reflexivity. Qed.

(** ** The prime-stride table *)

Lemma find_primes_table (stress_get_prime64 : Z -> Z) :
  Memthrash.stress_memthrash_find_primes stress_get_prime64 =
    prime_stride_entry stress_get_prime64 <$> [10; 11; 12; 13; 14].
Proof. reflexivity. Qed.

(** C7, as the code has it.  [stress_memthrash_find_primes] fills one
    entry per shift 10, 11, 12, 13, 14, in this order: the region size
    is [4 ^ shift], that is 1, 4, 16, 64 and 256 MiB, and the stride is
    [stress_get_prime64 (size / 64 + 137) * 64] in [size_t] arithmetic,
    which is the product itself whenever the helper's prime is below
    [2 ^ 58]. *)
Theorem C7_prime_stride_table (stress_get_prime64 : Z -> Z) :
  (forall shift, shift ∈ [10; 11; 12; 13; 14] ->
     0 <= stress_get_prime64 (4 ^ shift / 64 + 137) < 2 ^ 58) ->
  Memthrash.stress_memthrash_find_primes stress_get_prime64 =
    prime_stride_entry stress_get_prime64 <$> [10; 11; 12; 13; 14] /\
  Memthrash.mem_size <$> Memthrash.stress_memthrash_find_primes stress_get_prime64 =
    [1 * MiB; 4 * MiB; 16 * MiB; 64 * MiB; 256 * MiB] /\
  Memthrash.prime_stride <$> Memthrash.stress_memthrash_find_primes stress_get_prime64 =
    (fun shift => stress_get_prime64 (4 ^ shift / 64 + 137) * 64) <$> [10; 11; 12; 13; 14].
Proof.
  intros Hsmall. rewrite find_primes_table.
  split; [reflexivity |]. split; [reflexivity |].
  rewrite <- list_fmap_compose. apply list_fmap_ext.
  intros i shift Hshift. apply list_elem_of_lookup_2 in Hshift.
  specialize (Hsmall shift Hshift).
  unfold compose, prime_stride_entry. cbn [Memthrash.prime_stride].
  rewrite (u64_small (stress_get_prime64 _)) by lia.
  apply u64_small. lia.
Qed.

Lemma C7_prime_stride_table_witness :
  (forall shift, shift ∈ [10; 11; 12; 13; 14] ->
     0 <= spec_next_prime (4 ^ shift / 64 + 137) < 2 ^ 58) /\
  Memthrash.stress_memthrash_find_primes spec_next_prime =
    prime_stride_entry spec_next_prime <$> [10; 11; 12; 13; 14] /\
  Memthrash.mem_size <$> Memthrash.stress_memthrash_find_primes spec_next_prime =
    [1 * MiB; 4 * MiB; 16 * MiB; 64 * MiB; 256 * MiB] /\
  Memthrash.prime_stride <$> Memthrash.stress_memthrash_find_primes spec_next_prime =
    (fun shift => spec_next_prime (4 ^ shift / 64 + 137) * 64) <$> [10; 11; 12; 13; 14].
Proof.
  assert (H : forall shift, shift ∈ [10; 11; 12; 13; 14] ->
                0 <= spec_next_prime (4 ^ shift / 64 + 137) < 2 ^ 58).
  { intros shift Hin.
    repeat (apply elem_of_cons in Hin; destruct Hin as [-> | Hin];
            [vm_compute; split; [discriminate | reflexivity] |]).
    apply elem_of_nil in Hin. contradiction. }
  split; [exact H | apply (C7_prime_stride_table spec_next_prime H)].
Defined.

(** C7, as the specification states it, does not hold: the region
    sizes do not stop at 16 MiB.  The entries for shifts 13 and 14 hold
    64 MiB and 256 MiB. *)
Lemma C7_region_sizes_exceed_16MiB :
  Memthrash.mem_size <$> Memthrash.stress_memthrash_find_primes spec_next_prime
    = [1 * MiB; 4 * MiB; 16 * MiB; 64 * MiB; 256 * MiB] /\
  Memthrash.mem_size <$> Memthrash.stress_memthrash_find_primes spec_next_prime !! 4%nat
    = Some (256 * MiB) /\
  ~ (256 * MiB <= 16 * MiB).
Proof.
  split; [reflexivity |].
  split; [reflexivity | vm_compute; intros H; apply H; reflexivity].
Qed.

Example prime_strides_with_next_prime :
  Memthrash.stress_memthrash_find_primes spec_next_prime =
    [ {| Memthrash.mem_size := 1048576; Memthrash.prime_stride := 16529 * 64 |};
      {| Memthrash.mem_size := 4194304; Memthrash.prime_stride := 65677 * 64 |};
      {| Memthrash.mem_size := 16777216; Memthrash.prime_stride := 262303 * 64 |};
      {| Memthrash.mem_size := 67108864; Memthrash.prime_stride := 1048717 * 64 |};
      {| Memthrash.mem_size := 268435456; Memthrash.prime_stride := 4194451 * 64 |} ].
Proof. vm_compute. reflexivity. Qed.

(** ** Mapping the arena *)

Lemma flags_after_drop (cfg : Memthrash.build_config) (n : nat) :
  (if Memthrash.MAP_POPULATE_defined cfg
   then Z.land (flags_after cfg n) (Z.lnot Memthrash.MAP_POPULATE)
   else flags_after cfg n) = flags_after cfg (S n).
Proof.
  destruct cfg as [? ? ? []]; destruct n; reflexivity.
Qed.

Lemma mmap_retry_retried (cfg : Memthrash.build_config)
  (failed env : list Memthrash.mmap_attempt) :
  forallb retried failed = true ->
  forall n : nat,
    Memthrash.mmap_retry cfg (flags_after cfg n) (failed ++ env) =
      (fst (Memthrash.mmap_retry cfg (flags_after cfg (n + length failed)) env),
       retry_effects cfg n (length failed)
       ++ snd (Memthrash.mmap_retry cfg (flags_after cfg (n + length failed)) env)).
Proof.
  induction failed as [| a failed IH]; intros Hall n.
  - cbn [app length retry_effects]. rewrite Nat.add_0_r.
    destruct (Memthrash.mmap_retry cfg (flags_after cfg n) env). reflexivity.
  - cbn [forallb] in Hall. apply andb_true_iff in Hall. destruct Hall as [Ha Hall].
    unfold retried in Ha. apply andb_true_iff in Ha. destruct Ha as [Ha H2].
    apply andb_true_iff in Ha. destruct Ha as [H0 H1].
    apply negb_true_iff in H0.
    cbn [app Memthrash.mmap_retry length retry_effects]. rewrite H0, H1, H2.
    cbn [negb]. rewrite flags_after_drop, (IH Hall (S n)).
    replace (S n + length failed)%nat with (n + S (length failed))%nat by lia.
    reflexivity.
Qed.

Lemma mmap_retry_last (cfg : Memthrash.build_config) (flags : Z)
  (last : Memthrash.mmap_attempt) (rest : list Memthrash.mmap_attempt) :
  retried last = false ->
  exists tail,
    Memthrash.mmap_retry cfg flags (last :: rest) =
      (Some (if Memthrash.mmap_succeeds last then Memthrash.Mapped flags
             else if Memthrash.keep_stressing_flag_1 last
                  then Memthrash.Returned EXIT_SUCCESS
                  else Memthrash.Returned EXIT_NO_RESOURCE),
       E_mmap Memthrash.MEM_SIZE flags :: tail) /\
    (In (E_usleep 100000) tail <->
     Memthrash.mmap_succeeds last = false /\ Memthrash.keep_stressing_flag_1 last = true).
Proof.
  unfold retried. intros Hlast. cbn [Memthrash.mmap_retry].
  destruct (Memthrash.mmap_succeeds last) eqn:Hok; cbn [negb].
  - exists []. split; [reflexivity |]. split.
    + intros [].
    + intros [[=] _].
  - destruct (Memthrash.keep_stressing_flag_1 last) eqn:H1; cbn [negb].
    + destruct (Memthrash.keep_stressing_flag_2 last) eqn:H2; [discriminate |].
      cbn [negb]. eexists. split; [reflexivity |]. split.
      * intros _. split; reflexivity.
      * intros _. left. reflexivity.
    + eexists. split; [reflexivity |]. split.
      * intros [[=] | [[=] | []]].
      * intros [_ [=]].
Qed.

(** C8, as the code has it.  As long as the mapping fails and
    [keep_stressing_flag] holds both before and after the sleep, the
    child sleeps 100 ms and maps again, without [MAP_POPULATE] from the
    second attempt on.  The first pass that is not such a retry settles
    it: the mapping succeeded and the child goes on with the arena; or
    the flag was down right after the failed [mmap], and the child
    returns [EXIT_NO_RESOURCE]; or the flag went down during the sleep,
    and the child returns [EXIT_SUCCESS] by way of [reap_mem].  While
    every pass is a retry the child is still in the loop. *)
Theorem C8_mmap_retry_outcome (cfg : Memthrash.build_config)
  (failed : list Memthrash.mmap_attempt) (last : Memthrash.mmap_attempt)
  (rest : list Memthrash.mmap_attempt) :
  forallb retried failed = true ->
  retried last = false ->
  fst (Memthrash.stress_memthrash_child cfg true failed) = None /\
  fst (Memthrash.stress_memthrash_child cfg true (failed ++ last :: rest)) =
    Some (if Memthrash.mmap_succeeds last
          then Memthrash.Mapped (flags_after cfg (length failed))
          else if Memthrash.keep_stressing_flag_1 last
               then Memthrash.Returned EXIT_SUCCESS
               else Memthrash.Returned EXIT_NO_RESOURCE) /\
  (exists tail,
     snd (Memthrash.stress_memthrash_child cfg true (failed ++ last :: rest)) =
       [E_calloc; E_sighandler]
       ++ retry_effects cfg 0 (length failed)
       ++ E_mmap Memthrash.MEM_SIZE (flags_after cfg (length failed)) :: tail /\
     (In (E_usleep 100000) tail <->
      Memthrash.mmap_succeeds last = false /\
      Memthrash.keep_stressing_flag_1 last = true)) /\
  Z.testbit (flags_after cfg 0) 15 = Memthrash.MAP_POPULATE_defined cfg /\
  (forall n, Z.testbit (flags_after cfg (S n)) 15 = false).
Proof.
  intros Hfailed Hlast.
  assert (Hchild : forall env,
    Memthrash.stress_memthrash_child cfg true env =
      (fst (Memthrash.mmap_retry cfg (flags_after cfg 0) env),
       [E_calloc; E_sighandler] ++ snd (Memthrash.mmap_retry cfg (flags_after cfg 0) env))).
  { intros env. unfold Memthrash.stress_memthrash_child. cbn [negb].
    change (if Memthrash.MAP_POPULATE_defined cfg
            then Z.lor (Z.lor Memthrash.MAP_PRIVATE Memthrash.MAP_ANONYMOUS)
                       Memthrash.MAP_POPULATE
            else Z.lor Memthrash.MAP_PRIVATE Memthrash.MAP_ANONYMOUS)
      with (flags_after cfg 0).
    destruct (Memthrash.mmap_retry cfg (flags_after cfg 0) env). reflexivity. }
  destruct (mmap_retry_last cfg (flags_after cfg (length failed)) last rest Hlast)
    as (tail & Hfinal & Htail).
  split; [| split; [| split; [| split]]].
  - rewrite Hchild. cbn [fst].
    rewrite <- (app_nil_r failed), (mmap_retry_retried cfg failed [] Hfailed 0%nat).
    reflexivity.
  - rewrite Hchild. cbn [fst].
    rewrite (mmap_retry_retried cfg failed (last :: rest) Hfailed 0%nat).
    cbn [fst Nat.add]. rewrite Hfinal. reflexivity.
  - exists tail. split; [| exact Htail].
    rewrite Hchild. cbn [snd].
    rewrite (mmap_retry_retried cfg failed (last :: rest) Hfailed 0%nat).
    cbn [snd Nat.add]. rewrite Hfinal. reflexivity.
  - destruct cfg as [? ? ? []]; reflexivity.
  - intros n. reflexivity.
Qed.

Lemma C8_mmap_retry_outcome_witness :
  let slept := {| Memthrash.mmap_succeeds := false;
                  Memthrash.keep_stressing_flag_1 := true;
                  Memthrash.keep_stressing_flag_2 := true |} in
  let stopped := {| Memthrash.mmap_succeeds := false;
                    Memthrash.keep_stressing_flag_1 := false;
                    Memthrash.keep_stressing_flag_2 := false |} in
  forallb retried [slept; slept] = true /\
  retried stopped = false /\
  fst (Memthrash.stress_memthrash_child linux_x86_64 true [slept; slept]) = None /\
  fst (Memthrash.stress_memthrash_child linux_x86_64 true ([slept; slept] ++ stopped :: []))
    = Some (if Memthrash.mmap_succeeds stopped
            then Memthrash.Mapped (flags_after linux_x86_64 (length [slept; slept]))
            else if Memthrash.keep_stressing_flag_1 stopped
                 then Memthrash.Returned EXIT_SUCCESS
                 else Memthrash.Returned EXIT_NO_RESOURCE) /\
  (exists tail,
     snd (Memthrash.stress_memthrash_child linux_x86_64 true
            ([slept; slept] ++ stopped :: [])) =
       [E_calloc; E_sighandler]
       ++ retry_effects linux_x86_64 0 (length [slept; slept])
       ++ E_mmap Memthrash.MEM_SIZE (flags_after linux_x86_64 (length [slept; slept]))
          :: tail /\
     (In (E_usleep 100000) tail <->
      Memthrash.mmap_succeeds stopped = false /\
      Memthrash.keep_stressing_flag_1 stopped = true)) /\
  Z.testbit (flags_after linux_x86_64 0) 15 = Memthrash.MAP_POPULATE_defined linux_x86_64 /\
  (forall n, Z.testbit (flags_after linux_x86_64 (S n)) 15 = false).
Proof.
  intros slept stopped.
  split; [reflexivity |]. split; [reflexivity |].
  apply (C8_mmap_retry_outcome linux_x86_64 [slept; slept] stopped []); reflexivity.
Defined.

Example mmap_stop_before_sleep :
  Memthrash.stress_memthrash_child linux_x86_64 true
    [ {| Memthrash.mmap_succeeds := false;
         Memthrash.keep_stressing_flag_1 := true;
         Memthrash.keep_stressing_flag_2 := true |};
      {| Memthrash.mmap_succeeds := false;
         Memthrash.keep_stressing_flag_1 := false;
         Memthrash.keep_stressing_flag_2 := false |} ] =
    (Some (Memthrash.Returned EXIT_NO_RESOURCE),
     [E_calloc; E_sighandler;
      E_mmap Memthrash.MEM_SIZE 0x8022; E_usleep 100000;
      E_mmap Memthrash.MEM_SIZE 0x22; E_pr_dbg; E_free]).
Proof. reflexivity. Qed.

(** C8, as the specification states it, does not hold: giving up on
    the stop condition does not always yield the resource-exhausted
    status.  When the flag goes down during the 100 ms sleep the child
    gives up without an arena and returns [EXIT_SUCCESS]. *)
Lemma C8_stop_during_sleep_returns_success :
  Memthrash.stress_memthrash_child linux_x86_64 true
    [ {| Memthrash.mmap_succeeds := false;
         Memthrash.keep_stressing_flag_1 := true;
         Memthrash.keep_stressing_flag_2 := false |} ] =
    (Some (Memthrash.Returned EXIT_SUCCESS),
     [E_calloc; E_sighandler;
      E_mmap Memthrash.MEM_SIZE 0x8022; E_usleep 100000;
      E_munmap Memthrash.MEM_SIZE; E_free]) /\
  EXIT_SUCCESS <> EXIT_NO_RESOURCE.
Proof. split; [reflexivity | discriminate]. Qed.

Example mmap_second_attempt_succeeds :
  Memthrash.stress_memthrash_child linux_x86_64 true
    [ {| Memthrash.mmap_succeeds := false;
         Memthrash.keep_stressing_flag_1 := true;
         Memthrash.keep_stressing_flag_2 := true |};
      {| Memthrash.mmap_succeeds := true;
         Memthrash.keep_stressing_flag_1 := true;
         Memthrash.keep_stressing_flag_2 := true |} ] =
    (Some (Memthrash.Mapped 0x22),
     [E_calloc; E_sighandler;
      E_mmap Memthrash.MEM_SIZE 0x8022; E_usleep 100000;
      E_mmap Memthrash.MEM_SIZE 0x22]).
Proof. reflexivity. Qed.

(** ** The opcode driver *)

Lemma driver_loop_forget (method : Opcode.Ptr.stress_opcode_func)
  (events : list Opcode.fork_event) :
  forall at_again st,
    Opcode.driver_loop method at_again (forget_status <$> events) st =
    Opcode.driver_loop method at_again events st.
Proof.
  induction events as [| e rest IH]; intros at_again st; [reflexivity |].
  destruct e as [| keep | c keep]; cbn [fmap list_fmap forget_status Opcode.driver_loop].
  - rewrite IH. reflexivity.
  - reflexivity.
  - cbn [Opcode.op_after]. destruct keep; [rewrite IH |]; reflexivity.
Qed.

Lemma u64_succ (a : Z) (n : nat) :
  u64 (u64 (a + 1) + Z.of_nat n) = u64 (a + Z.of_nat (S n)).
Proof.
  unfold u64. rewrite Zplus_mod_idemp_l. f_equal. lia.
Qed.

Lemma driver_loop_verdict (method : Opcode.Ptr.stress_opcode_func)
  (events : list Opcode.fork_event) :
  forall at_again st,
    match verdict events with
    | Some (rc, n) =>
        fst (fst (Opcode.driver_loop method at_again events st)) = Some rc /\
        u64 (Opcode.counter (snd (fst (Opcode.driver_loop method at_again events st)))) =
          u64 (Opcode.counter st + Z.of_nat n)
    | None => fst (fst (Opcode.driver_loop method at_again events st)) = None
    end.
Proof.
  induction events as [| e rest IH]; intros at_again st; [reflexivity |].
  destruct e as [| keep | c keep]; cbn [verdict Opcode.driver_loop].
  - specialize (IH true st).
    destruct (Opcode.driver_loop method true rest st) as [[rc' st'] eff].
    exact IH.
  - destruct keep; cbn [negb fst snd]; (split; [reflexivity |]);
      rewrite Z.add_0_r; reflexivity.
  - destruct keep.
    + specialize (IH false {| Opcode.counter := u64 (Opcode.counter st + 1);
                              Opcode.shared_op := Opcode.op_after c |}).
      destruct (Opcode.driver_loop method false rest _) as [[rc' st'] eff].
      cbn [fst snd] in *. destruct (verdict rest) as [[rc n] |]; [| exact IH].
      destruct IH as [Hrc Hn]. split; [exact Hrc |].
      rewrite Hn. cbn [Opcode.counter]. apply u64_succ.
    + cbn [fst snd Opcode.counter]. split; [reflexivity |].
      unfold u64. rewrite Zmod_mod. reflexivity.
Qed.

Lemma stress_opcode_results (page_size : Z) (method : Opcode.Ptr.stress_opcode_func)
  (op_start counter0 : Z) (events : list Opcode.fork_event) :
  fst (Opcode.stress_opcode page_size true method op_start counter0 events) =
    fst (Opcode.driver_loop method false events
           {| Opcode.counter := counter0; Opcode.shared_op := u64 op_start |}).
Proof.
  unfold Opcode.stress_opcode. cbn [negb].
  destruct (Opcode.driver_loop method false events _) as [[[rc |] st] eff]; reflexivity.
Qed.

(** C2. Whatever status the child ends with (an exit, a fatal signal,
    the watchdog through the signal handler), the parent does the same:
    it waits, counts one bogo operation and goes on to the loop
    condition [keep_stressing(args)].  The whole run of the driver is
    the same when every status is replaced by a clean exit; its return
    code and the number of operations counted are fixed by the results
    of [fork] and the answers of [keep_stressing] alone, and the only
    code other than [EXIT_SUCCESS] comes from a [fork] that failed. *)
Theorem C2_child_status_ignored (page_size : Z) (method : Opcode.Ptr.stress_opcode_func)
  (op_start counter0 : Z) (events : list Opcode.fork_event) :
  Opcode.stress_opcode page_size true method op_start counter0 (forget_status <$> events) =
    Opcode.stress_opcode page_size true method op_start counter0 events /\
  match verdict events with
  | Some (rc, n) =>
      fst (fst (Opcode.stress_opcode page_size true method op_start counter0 events))
        = Some rc /\
      u64 (Opcode.counter
             (snd (fst (Opcode.stress_opcode page_size true method op_start counter0 events))))
        = u64 (counter0 + Z.of_nat n)
  | None =>
      fst (fst (Opcode.stress_opcode page_size true method op_start counter0 events)) = None
  end /\
  (forall (c : Opcode.forked_child) (keep_stressing at_again : bool)
          (rest : list Opcode.fork_event) (st : Opcode.driver_state),
     let counted := {| Opcode.counter := u64 (Opcode.counter st + 1);
                       Opcode.shared_op := Opcode.op_after c |} in
     fst (Opcode.driver_loop method at_again (Opcode.Forked c keep_stressing :: rest) st) =
       (if keep_stressing
        then fst (Opcode.driver_loop method false rest counted)
        else (Some EXIT_SUCCESS, counted)) /\
     In E_inc_counter (Opcode.wait_for_child c)).
Proof.
  split; [| split].
  - unfold Opcode.stress_opcode. cbn [negb]. rewrite driver_loop_forget. reflexivity.
  - rewrite stress_opcode_results.
    pose proof (driver_loop_verdict method events false
                  {| Opcode.counter := counter0; Opcode.shared_op := u64 op_start |}) as H.
    destruct (verdict events) as [[rc n] |]; exact H.
  - intros c keep at_again rest st counted. split.
    + cbn [Opcode.driver_loop]. fold counted. destruct keep; [| reflexivity].
      destruct (Opcode.driver_loop method false rest counted) as [[rc st'] eff].
      reflexivity.
    + unfold Opcode.wait_for_child. apply in_or_app. right.
      apply in_or_app. right. left. reflexivity.
Qed.

Example driver_counts_a_crash :
  Opcode.stress_opcode 4096 true Opcode.Ptr.stress_opcode_inc 0x90 0
    [ Opcode.Forked {| Opcode.waitpid_fails := false; Opcode.errno_is_EINTR := false;
                       Opcode.wait_status := Opcode.Killed 11;
                       Opcode.op_after := 0x91 |} true;
      Opcode.Fork_redo;
      Opcode.Forked {| Opcode.waitpid_fails := true; Opcode.errno_is_EINTR := false;
                       Opcode.wait_status := Opcode.Exited EXIT_FAILURE;
                       Opcode.op_after := 0x92 |} false ] =
    (Some EXIT_SUCCESS,
     {| Opcode.counter := 2; Opcode.shared_op := 0x92 |},
     [E_set_proc_state;
      E_mwc32; E_set_proc_name 0x90; E_waitpid; E_inc_counter;
      E_mwc32; E_set_proc_name 0x91;
      E_waitpid; E_pr_dbg; E_kill; E_kill; E_waitpid; E_inc_counter;
      E_set_proc_state; E_munmap 4096]).
Proof. reflexivity. Qed.

Example driver_fork_failure :
  fst (fst (Opcode.stress_opcode 4096 true Opcode.Ptr.stress_opcode_random 0 0
              [Opcode.Fork_redo; Opcode.Fork_failed true])) = Some EXIT_NO_RESOURCE.
Proof. reflexivity. Qed.

(** ** The "inc" generator and the shared counter *)

Lemma land_ff (x : Z) : Z.land x 0xff = x mod 2 ^ 8.
Proof. change 0xff with (Z.ones 8). apply Z.land_ones. lia. Qed.

Lemma u8_land_ff (x : Z) : u8 (Z.land x 0xff) = Z.land x 0xff.
Proof. unfold u8. rewrite land_ff. apply Zmod_mod. Qed.

Lemma fill_bytes (v : Z) (n : nat) :
  forall pre old post : list Z,
    length old = n ->
    fst (Opcode.fill_units n 1 (pre ++ old ++ post) (Z.of_nat (length pre)) v) =
      pre ++ replicate n (u8 v) ++ post.
Proof.
  induction n as [| n IH]; intros pre old post Hlen.
  - destruct old; [reflexivity | discriminate].
  - destruct old as [| x old]; [discriminate |].
    cbn [Opcode.fill_units Opcode.store_le]. unfold Opcode.store8.
    rewrite Nat2Z.id.
    replace (<[length pre:=u8 v]> (pre ++ (x :: old) ++ post))
      with ((pre ++ [u8 v]) ++ old ++ post).
    2:{ rewrite <- app_assoc. cbn [app].
        pose proof (insert_app_r pre (x :: old ++ post) 0 (u8 v)) as Hins.
        rewrite Nat.add_0_r in Hins. rewrite Hins. reflexivity. }
    replace (Z.of_nat (length pre) + Z.of_nat 1)
      with (Z.of_nat (length (pre ++ [u8 v])))
      by (rewrite length_app; cbn [length]; lia).
    rewrite IH by (cbn [length] in Hlen; lia).
    rewrite <- app_assoc. reflexivity.
Qed.

Lemma inc8_generates (page_size op : Z) :
  0 < page_size ->
  Opcode.stress_opcode_inc 8 page_size page_size (page_size * (Opcode.PAGES - 1)) op
    (replicate (Z.to_nat (page_size * Opcode.PAGES)) 0) =
    first_page_filled page_size (Z.land op 0xff).
Proof.
  intros Hps. unfold Opcode.stress_opcode_inc, first_page_filled, Opcode.PAGES.
  cbn [Z.eqb Pos.eqb].
  replace (Z.to_nat (page_size * 16))
    with (Z.to_nat page_size + (Z.to_nat page_size + Z.to_nat (14 * page_size)))%nat by lia.
  rewrite !replicate_add.
  pose proof (fill_bytes (Z.land op 0xff) (Z.to_nat page_size)
                (replicate (Z.to_nat page_size) 0) (replicate (Z.to_nat page_size) 0)
                (replicate (Z.to_nat (14 * page_size)) 0) (length_replicate _ _)) as Hfill.
  rewrite length_replicate, Z2Nat.id in Hfill by lia.
  rewrite Hfill, u8_land_ff. reflexivity.
Qed.

Lemma opcode_mask_step (size op : Z) :
  0 <= size <= 64 ->
  Z.land (u64 (op + 1)) (Opcode.STRESS_OPCODE_MASK size) = (op + 1) mod 2 ^ size.
Proof.
  intros Hsize. unfold Opcode.STRESS_OPCODE_MASK, u64. rewrite Z.land_ones by lia.
  apply Z.mod_mod_divide. exists (2 ^ (64 - size)).
  rewrite <- Z.pow_add_r by lia. f_equal. lia.
Qed.

Lemma first_turn_bounds (stop : nat -> bool) (n : nat) :
  forall i, (i <= first_turn n i stop <= i + n)%nat.
Proof.
  induction n as [| n IH]; intros i; cbn [first_turn]; [lia |].
  destruct (stop i); [lia |]. specialize (IH (S i)). lia.
Qed.

(** The execute loop, from a turn that begins with no filter in force:
    the counter and the end of the child in terms of the last turn. *)
Lemma execute_loop_closed (HAVE_SECCOMP : bool) (size : Z) (env : Opcode.child_env)
  (n : nat) :
  0 <= size <= 64 ->
  forall (i : nat) (op : Z),
    Opcode.execute_loop HAVE_SECCOMP n i false (Opcode.STRESS_OPCODE_MASK size) op
      (Opcode.seccomp_loads env) (Opcode.call_ends env) =
      (match n with
       | O => op
       | S _ =>
           (op + Z.of_nat (Nat.min (S (first_turn n i (last_turn HAVE_SECCOMP env) - i)) n))
           mod 2 ^ size
       end,
       if (first_turn n i (last_turn HAVE_SECCOMP env) - i <? n)%nat then
         match Opcode.call_ends env (first_turn n i (last_turn HAVE_SECCOMP env)) with
         | Some e => e
         | None =>
             if (S (first_turn n i (last_turn HAVE_SECCOMP env) - i) <? n)%nat
             then Opcode.Exited EXIT_FAILURE
             else Opcode.Exited EXIT_SUCCESS
         end
       else Opcode.Exited EXIT_SUCCESS).
Proof.
  intros Hsize. induction n as [| n IH]; intros i op.
  - cbn [Opcode.execute_loop first_turn]. rewrite Nat.sub_diag. reflexivity.
  - cbn [Opcode.execute_loop first_turn]. rewrite andb_false_r.
    rewrite opcode_mask_step by exact Hsize.
    destruct (Opcode.call_ends env i) as [e |] eqn:Hcall.
    + assert (Hstop : last_turn HAVE_SECCOMP env i = true)
        by (unfold last_turn; rewrite Hcall; reflexivity).
      rewrite Hstop, Nat.sub_diag, Hcall. reflexivity.
    + destruct (HAVE_SECCOMP && Opcode.seccomp_loads env i) eqn:Hfilter.
      * assert (Hstop : last_turn HAVE_SECCOMP env i = true)
          by (unfold last_turn; rewrite Hcall; exact Hfilter).
        rewrite Hstop, Nat.sub_diag, Hcall.
        apply andb_true_iff in Hfilter. destruct Hfilter as [-> _].
        destruct n as [| n]; cbn [Opcode.execute_loop andb]; reflexivity.
      * assert (Hstop : last_turn HAVE_SECCOMP env i = false)
          by (unfold last_turn; rewrite Hcall; exact Hfilter).
        rewrite Hstop, IH.
        pose proof (first_turn_bounds (last_turn HAVE_SECCOMP env) n (S i)) as Hk.
        set (k := first_turn n (S i) (last_turn HAVE_SECCOMP env)) in *.
        replace (k - i)%nat with (S (k - S i)) by lia.
        change (S (k - S i) <? S n)%nat with (k - S i <? n)%nat.
        change (S (S (k - S i)) <? S n)%nat with (S (k - S i) <? n)%nat.
        f_equal. destruct n as [| n].
        -- replace (k - S i)%nat with 0%nat by lia. reflexivity.
        -- rewrite Zplus_mod_idemp_l. f_equal. lia.
Qed.

(** The child whose set-up gets as far as the generator. *)
Lemma child_runs (HAVE_SECCOMP : bool) (generate : Z -> Z -> Z -> Z -> list Z -> list Z)
  (size page_size op : Z) (env : Opcode.child_env) :
  0 <= size <= 64 -> reaches_generator env = true ->
  let loops := Z.to_nat (page_size / Z.shiftr size 3) in
  let opcodes :=
    generate page_size page_size (page_size * (Opcode.PAGES - 1)) op
      (replicate (Z.to_nat (page_size * Opcode.PAGES)) 0) in
  Opcode.stress_opcode_child HAVE_SECCOMP generate size page_size op env =
    if Opcode.setitimer_ok env then
      {| Opcode.child_op :=
           match loops with
           | O => op
           | S _ => (op + Z.of_nat (calls_begun HAVE_SECCOMP loops env)) mod 2 ^ size
           end;
         Opcode.child_end := child_ends HAVE_SECCOMP loops env;
         Opcode.child_opcodes := Some opcodes |}
    else
      {| Opcode.child_op := op;
         Opcode.child_end := Opcode.Exited EXIT_NO_RESOURCE;
         Opcode.child_opcodes := Some opcodes |}.
Proof.
  intros Hsize Hgen loops opcodes. unfold reaches_generator in Hgen.
  apply andb_true_iff in Hgen. destruct Hgen as [Hgen Hmap].
  apply andb_true_iff in Hgen. destruct Hgen as [Hcap Hsig].
  unfold Opcode.stress_opcode_child.
  rewrite Hcap, Hsig, Hmap. cbn [negb]. fold loops. fold opcodes.
  destruct (Opcode.setitimer_ok env); cbn [negb]; [| reflexivity].
  rewrite (execute_loop_closed HAVE_SECCOMP size env loops Hsize 0 op).
  unfold calls_begun, child_ends. rewrite !Nat.sub_0_r. reflexivity.
Qed.

Lemma calls_begun_le (HAVE_SECCOMP : bool) (loops : nat) (env : Opcode.child_env) :
  (calls_begun HAVE_SECCOMP loops env <= loops)%nat.
Proof. unfold calls_begun. lia. Qed.

Lemma calls_begun_last_turn_first (HAVE_SECCOMP : bool) (loops : nat)
  (env : Opcode.child_env) :
  (1 <= loops)%nat -> last_turn HAVE_SECCOMP env 0 = true ->
  calls_begun HAVE_SECCOMP loops env = 1%nat /\
  child_ends HAVE_SECCOMP loops env =
    match Opcode.call_ends env 0 with
    | Some e => e
    | None =>
        if (1 <? loops)%nat then Opcode.Exited EXIT_FAILURE
        else Opcode.Exited EXIT_SUCCESS
    end.
Proof.
  intros Hloops Hlast. unfold calls_begun, child_ends.
  destruct loops as [| n]; [lia |]. cbn [first_turn]. rewrite Hlast.
  split; [lia | reflexivity].
Qed.

Lemma calls_begun_no_last_turn (HAVE_SECCOMP : bool) (env : Opcode.child_env) (n : nat) :
  forall i,
    (forall j, (j < n)%nat -> last_turn HAVE_SECCOMP env (i + j) = false) ->
    first_turn n i (last_turn HAVE_SECCOMP env) = (i + n)%nat.
Proof.
  induction n as [| n IH]; intros i Hnone; cbn [first_turn]; [lia |].
  pose proof (Hnone 0%nat ltac:(lia)) as H0. rewrite Nat.add_0_r in H0. rewrite H0.
  rewrite IH; [lia |]. intros j Hj. rewrite Nat.add_succ_comm. apply Hnone. lia.
Qed.

Lemma child_inc8 (HAVE_SECCOMP : bool) (page_size op : Z) (env : Opcode.child_env) :
  0 < page_size -> reaches_generator env = true ->
  Opcode.child_opcodes
    (Opcode.stress_opcode_child HAVE_SECCOMP (Opcode.stress_opcode_inc 8) 8 page_size op env) =
    Some (first_page_filled page_size (Z.land op 0xff)) /\
  Z.land (Opcode.child_op
            (Opcode.stress_opcode_child HAVE_SECCOMP (Opcode.stress_opcode_inc 8) 8
               page_size op env))
         0xff =
    (Z.land op 0xff + Z.of_nat (slots_begun HAVE_SECCOMP page_size env)) mod 2 ^ 8.
Proof.
  intros Hps Hgen.
  rewrite (child_runs HAVE_SECCOMP (Opcode.stress_opcode_inc 8) 8 page_size op env
             ltac:(lia) Hgen).
  rewrite (inc8_generates page_size op Hps).
  change (Z.shiftr 8 3) with 1. rewrite Z.div_1_r. unfold slots_begun.
  destruct (Opcode.setitimer_ok env); cbn [Opcode.child_opcodes Opcode.child_op].
  - split; [reflexivity |].
    destruct (Z.to_nat page_size) as [| n] eqn:Hn; [lia |].
    rewrite !land_ff, Zmod_mod, Zplus_mod_idemp_l. reflexivity.
  - split; [reflexivity |].
    rewrite !land_ff, Z.add_0_r, Zmod_mod. reflexivity.
Qed.

Lemma first_page_filled_lookup (page_size byte : Z) (a : nat) :
  0 < page_size -> (a < Z.to_nat (16 * page_size))%nat ->
  first_page_filled page_size byte !! a =
    Some (if decide (Z.to_nat page_size <= a < Z.to_nat (2 * page_size))%nat
          then byte else 0).
Proof.
  intros Hps Ha. unfold first_page_filled.
  destruct (decide (Z.to_nat page_size <= a < Z.to_nat (2 * page_size))%nat) as [Hin | Hout].
  - rewrite lookup_app_r by (rewrite length_replicate; lia).
    rewrite lookup_app_l by (rewrite !length_replicate; lia).
    apply lookup_replicate_2. rewrite length_replicate. lia.
  - destruct (Nat.lt_ge_cases a (Z.to_nat page_size)) as [Hlow | Hhigh].
    + rewrite lookup_app_l by (rewrite length_replicate; lia).
      apply lookup_replicate_2. lia.
    + rewrite lookup_app_r by (rewrite length_replicate; lia).
      rewrite lookup_app_r by (rewrite !length_replicate; lia).
      apply lookup_replicate_2. rewrite !length_replicate. lia.
Qed.

(** Between two attempts the parent leaves [*op] alone: the next
    attempt starts from the value the child left. *)
Lemma driver_hands_on_shared_op (method : Opcode.Ptr.stress_opcode_func)
  (c : Opcode.forked_child) (st : Opcode.driver_state) :
  Opcode.shared_op
    (snd (fst (Opcode.driver_loop method false [Opcode.Forked c true] st))) =
    Opcode.op_after c.
Proof. reflexivity. Qed.

(** C6, as the code has it.  With an 8-bit opcode size the "inc"
    generator writes the low 8 bits of [*op] into the [page_size] bytes
    from [ops_begin] on, the first page after the low guard page; the
    other interior pages keep the zeros of the [memset].  The child adds
    one to the shared [*op], modulo [2 ^ 8], before every call into the
    generated code that it begins, so the byte of the next attempt is
    the byte of this one plus the number of calls begun (at most
    [page_size] of them, none if the timer cannot be set).  When turn 0
    is the last turn, because the first call does not return or
    because the filter is compiled in and is loaded in that turn, the
    child begins exactly one call and the bytes of the two attempts
    differ by exactly one modulo [2 ^ 8]. *)
Theorem C6_inc8_first_page (HAVE_SECCOMP : bool) (page_size op : Z)
  (env env' : Opcode.child_env) :
  0 < page_size ->
  reaches_generator env = true ->
  reaches_generator env' = true ->
  let first :=
    Opcode.stress_opcode_child HAVE_SECCOMP (Opcode.stress_opcode_inc 8) 8 page_size op env in
  let second :=
    Opcode.stress_opcode_child HAVE_SECCOMP (Opcode.stress_opcode_inc 8) 8 page_size
      (Opcode.child_op first) env' in
  Opcode.child_opcodes first = Some (first_page_filled page_size (Z.land op 0xff)) /\
  Opcode.child_opcodes second =
    Some (first_page_filled page_size (Z.land (Opcode.child_op first) 0xff)) /\
  Z.land (Opcode.child_op first) 0xff =
    (Z.land op 0xff + Z.of_nat (slots_begun HAVE_SECCOMP page_size env)) mod 2 ^ 8 /\
  (slots_begun HAVE_SECCOMP page_size env <= Z.to_nat page_size)%nat /\
  (Opcode.setitimer_ok env = false -> slots_begun HAVE_SECCOMP page_size env = 0%nat) /\
  (Opcode.setitimer_ok env = true -> last_turn HAVE_SECCOMP env 0 = true ->
   slots_begun HAVE_SECCOMP page_size env = 1%nat /\
   (Z.land (Opcode.child_op first) 0xff - Z.land op 0xff) mod 2 ^ 8 = 1).
Proof.
  intros Hps Hgen Hgen' first second.
  destruct (child_inc8 HAVE_SECCOMP page_size op env Hps Hgen) as [Hmem Hop].
  destruct (child_inc8 HAVE_SECCOMP page_size (Opcode.child_op first) env' Hps Hgen')
    as [Hmem' _].
  split; [exact Hmem |]. split; [exact Hmem' |]. split; [exact Hop |].
  split; [| split].
  - unfold slots_begun. destruct (Opcode.setitimer_ok env); [apply calls_begun_le | lia].
  - intros Htimer. unfold slots_begun. rewrite Htimer. reflexivity.
  - intros Htimer Hlast.
    assert (Hone : slots_begun HAVE_SECCOMP page_size env = 1%nat).
    { unfold slots_begun. rewrite Htimer.
      apply (calls_begun_last_turn_first HAVE_SECCOMP (Z.to_nat page_size) env);
        [lia | exact Hlast]. }
    split; [exact Hone |].
    fold first in Hop. rewrite Hop, Hone, Zminus_mod_idemp_l.
    replace (Z.land op 0xff + Z.of_nat 1 - Z.land op 0xff) with 1 by lia.
    reflexivity.
Qed.

Lemma C6_inc8_first_page_witness :
  0 < 4096 /\
  reaches_generator all_calls_return = true /\
  let first :=
    Opcode.stress_opcode_child true (Opcode.stress_opcode_inc 8) 8 4096 0x90
      all_calls_return in
  let second :=
    Opcode.stress_opcode_child true (Opcode.stress_opcode_inc 8) 8 4096
      (Opcode.child_op first) all_calls_return in
  Opcode.child_opcodes first = Some (first_page_filled 4096 (Z.land 0x90 0xff)) /\
  Opcode.child_opcodes second =
    Some (first_page_filled 4096 (Z.land (Opcode.child_op first) 0xff)) /\
  Z.land (Opcode.child_op first) 0xff =
    (Z.land 0x90 0xff + Z.of_nat (slots_begun true 4096 all_calls_return)) mod 2 ^ 8 /\
  (slots_begun true 4096 all_calls_return <= Z.to_nat 4096)%nat /\
  (Opcode.setitimer_ok all_calls_return = false ->
   slots_begun true 4096 all_calls_return = 0%nat) /\
  (Opcode.setitimer_ok all_calls_return = true ->
   last_turn true all_calls_return 0 = true ->
   slots_begun true 4096 all_calls_return = 1%nat /\
   (Z.land (Opcode.child_op first) 0xff - Z.land 0x90 0xff) mod 2 ^ 8 = 1).
Proof.
  split; [lia |]. split; [reflexivity |].
  apply (C6_inc8_first_page true 4096 0x90 all_calls_return all_calls_return);
    [lia | reflexivity | reflexivity].
Defined.

(** C6, as the specification states it, fails on a 4096-byte page with
    [*op = 0xc3], in a build with the filter and with every call into
    the generated code returning: the byte at offset 8192 of the
    mapping lies between the guard pages, in the second interior page,
    and it is still 0 and not [0xc3], the byte the generator wrote at
    offset 4096. *)
Lemma C6_inc8_leaves_interior_pages_zero :
  let first :=
    Opcode.stress_opcode_child true (Opcode.stress_opcode_inc 8) 8 4096 0xc3
      all_calls_return in
  4096 <= 8192 < 4096 * (Opcode.PAGES - 1) /\
  Z.land 0xc3 0xff = 0xc3 /\
  (Opcode.child_opcodes first ≫= (fun mem => mem !! Z.to_nat 4096)) = Some 0xc3 /\
  (Opcode.child_opcodes first ≫= (fun mem => mem !! Z.to_nat 8192)) = Some 0 /\
  0 <> 0xc3.
Proof.
  intros first.
  destruct (child_inc8 true 4096 0xc3 all_calls_return ltac:(lia) eq_refl) as [Hmem _].
  fold first in Hmem. rewrite Hmem. cbn [mbind option_bind].
  split; [unfold Opcode.PAGES; lia |]. split; [reflexivity |].
  rewrite !first_page_filled_lookup by lia.
  split; [| split]; [reflexivity | reflexivity | discriminate].
Qed.

(** The same child, with the filter: the first call returns, the
    [seccomp] call of the second turn is trapped, and the child leaves
    through [stress_badhandler] with the counter advanced once. *)
Example child_trapped_in_second_turn :
  Opcode.child_op
    (Opcode.stress_opcode_child true (Opcode.stress_opcode_inc 8) 8 4096 0xc3
       all_calls_return) = 0xc4 /\
  Opcode.child_end
    (Opcode.stress_opcode_child true (Opcode.stress_opcode_inc 8) 8 4096 0xc3
       all_calls_return) = Opcode.Exited EXIT_FAILURE.
Proof.
  rewrite (child_runs true (Opcode.stress_opcode_inc 8) 8 4096 0xc3 all_calls_return
             ltac:(lia) eq_refl).
  split; reflexivity.
Qed.

(** Without the filter the same child makes all 4096 calls, exits with
    status 0 and leaves the counter where it was modulo [2 ^ 8]. *)
Example child_without_filter_wraps :
  Opcode.child_op
    (Opcode.stress_opcode_child false (fun _ _ _ _ mem => mem) 8 4096 0xc3
       all_calls_return) = 0xc3 /\
  Opcode.child_end
    (Opcode.stress_opcode_child false (fun _ _ _ _ mem => mem) 8 4096 0xc3
       all_calls_return) = Opcode.Exited EXIT_SUCCESS.
Proof.
  rewrite (child_runs false (fun _ _ _ _ mem => mem) 8 4096 0xc3 all_calls_return
             ltac:(lia) eq_refl).
  split; vm_compute; reflexivity.
Qed.

Example child_faults_in_first_call :
  Opcode.child_op
    (Opcode.stress_opcode_child true (fun _ _ _ _ mem => mem) 8 4096 0xff
       first_call_faults) = 0 /\
  Opcode.child_end
    (Opcode.stress_opcode_child true (fun _ _ _ _ mem => mem) 8 4096 0xff
       first_call_faults) = Opcode.Exited EXIT_FAILURE.
Proof.
  rewrite (child_runs true (fun _ _ _ _ mem => mem) 8 4096 0xff first_call_faults
             ltac:(lia) eq_refl).
  split; reflexivity.
Qed.

Example inc16_units :
  Opcode.stress_opcode_inc 16 4 2 10 0xbeef (replicate 12 0) =
    [0; 0; 0xef; 0xbe; 0xef; 0xbe; 0; 0; 0; 0; 0; 0].
Proof. reflexivity. Qed.

Example inc48_slop :
  Opcode.stress_opcode_inc 48 8 2 11 0x060504030201 (replicate 12 0xaa) =
    [0xaa; 0xaa; 1; 2; 3; 4; 5; 6; 0; 0; 0; 0xaa].
Proof. reflexivity. Qed.

(** * Further properties of the two stressors *)

(** ** The advice of [stress_memthrash] *)

Lemma gtb_false (a b : Z) : a <= b -> (a >? b) = false.
Proof. intros H. rewrite Z.gtb_ltb. apply Z.ltb_ge. exact H. Qed.

Lemma gtb_true (a b : Z) : b < a -> (a >? b) = true.
Proof. intros H. rewrite Z.gtb_ltb. apply Z.ltb_lt. exact H. Qed.

Lemma memthrash_max_product (w c : Z) :
  0 <= w < 2 ^ 32 -> 1 <= c <= 2 ^ 31 ->
  (u32 (Memthrash.stress_memthrash_max w c * w) >? c) = negb (cpu_optimal w c).
Proof.
  intros Hw Hc. unfold cpu_optimal.
  destruct (Z.eq_dec w 0) as [-> | Hw0].
  - rewrite memthrash_max_covering by lia. cbn [Z.eqb orb negb].
    apply gtb_false. rewrite Z.mul_0_r. change (u32 0) with 0. lia.
  - destruct (Z.eqb_spec w 0) as [| _]; [contradiction |]. cbn [orb].
    destruct (Z_lt_le_dec w c) as [Hlt | Hge].
    + rewrite memthrash_max_dividing by lia.
      destruct (Z.leb_spec w c); [| lia]. cbn [andb].
      pose proof (ceil_div_bounds c w ltac:(lia)) as Hb.
      pose proof (Z.div_mod c w ltac:(lia)) as Hd.
      pose proof (Z.mod_pos_bound c w ltac:(lia)) as Hr.
      assert (0 <= c / w) by (apply Z.div_pos; lia).
      destruct (Z.eqb_spec (c mod w) 0) as [Hz | Hnz].
      * rewrite ceil_div_exact by lia. rewrite u32_small by nia.
        cbn [negb]. apply gtb_false. nia.
      * rewrite ceil_div_inexact by lia. rewrite u32_small by nia.
        cbn [negb]. apply gtb_true. nia.
    + rewrite memthrash_max_covering by lia. rewrite Z.mul_1_l, u32_small by lia.
      destruct (Z.eq_dec w c) as [-> | Hne].
      * rewrite Z.leb_refl, Z_mod_same_full. cbn [Z.eqb andb negb]. apply gtb_false. lia.
      * destruct (Z.leb_spec w c); [lia |]. cbn [andb negb]. apply gtb_true. lia.
Qed.

Lemma memthrash_messages_instance_0 (cfg : Memthrash.build_config) (w c : Z) :
  0 <= w < 2 ^ 32 -> 1 <= c <= 2 ^ 31 ->
  Memthrash.stress_memthrash_messages cfg 0 w c None =
    if cpu_optimal w c then
      Some [Memthrash.Dbg_using_method "all";
            Memthrash.Inf_starting (Memthrash.stress_memthrash_max w c) w c]
    else
      match Memthrash.stress_memthash_optimal w c with
      | Some n =>
          Some [Memthrash.Dbg_using_method "all";
                Memthrash.Inf_starting (Memthrash.stress_memthrash_max w c) w c;
                Memthrash.Inf_not_optimal n]
      | None => None
      end.
Proof.
  intros Hw Hc. unfold Memthrash.stress_memthrash_messages.
  cbn [default]. rewrite memthrash_methods_first. cbn [Z.eqb Memthrash.name].
  rewrite (u32_small c) by lia. rewrite memthrash_max_product by lia.
  destruct (cpu_optimal w c); reflexivity.
Qed.

Lemma optimal_loop_positive (c : Z) (fuel : nat) :
  forall n r, Memthrash.optimal_loop fuel n c = Some r -> 1 <= r.
Proof.
  induction fuel as [| fuel IH]; intros n r; cbn [Memthrash.optimal_loop];
    [discriminate |].
  destruct (Z.gtb_spec n 1).
  - destruct (c mod n =? 0); [intros [= <-]; lia | apply IH].
  - intros [= <-]. lia.
Qed.

(** X1. On a machine of [c] CPUs ([c] at most [2 ^ 31]), instance 0 of
    [stress_memthrash] logs the "not an optimal choice" hint exactly
    when the [w] instances are not [cpu_optimal]: when [w] exceeds [c],
    or [w] is positive and does not divide [c].  The value it proposes
    is the result of [stress_memthash_optimal]. *)
Theorem X1_hint_iff_suboptimal (cfg : Memthrash.build_config) (w c : Z) :
  0 <= w < 2 ^ 32 -> 1 <= c <= 2 ^ 31 ->
  exists n,
    Memthrash.stress_memthash_optimal w c = Some n /\
    Memthrash.stress_memthrash_messages cfg 0 w c None =
      Some ([Memthrash.Dbg_using_method "all";
             Memthrash.Inf_starting (Memthrash.stress_memthrash_max w c) w c]
            ++ if cpu_optimal w c then [] else [Memthrash.Inf_not_optimal n]).
Proof.
  intros Hw Hc.
  destruct (optimal_loop_spec (S (Z.to_nat w)) c ltac:(lia) w Hw ltac:(lia))
    as (n & Hn & _).
  exists n. split; [exact Hn |].
  rewrite memthrash_messages_instance_0 by lia.
  unfold Memthrash.stress_memthash_optimal. rewrite Hn.
  destruct (cpu_optimal w c); reflexivity.
Qed.

Lemma X1_hint_iff_suboptimal_witness :
  0 <= 3 < 2 ^ 32 /\ 1 <= 8 <= 2 ^ 31 /\
  exists n,
    Memthrash.stress_memthash_optimal 3 8 = Some n /\
    Memthrash.stress_memthrash_messages linux_x86_64 0 3 8 None =
      Some ([Memthrash.Dbg_using_method "all";
             Memthrash.Inf_starting (Memthrash.stress_memthrash_max 3 8) 3 8]
            ++ if cpu_optimal 3 8 then [] else [Memthrash.Inf_not_optimal n]).
Proof.
  split; [lia |]. split; [lia |].
  apply (X1_hint_iff_suboptimal linux_x86_64 3 8); lia.
Defined.

Example memthrash_messages_3_on_8 :
  Memthrash.stress_memthrash_messages linux_x86_64 0 3 8 None =
    Some [Memthrash.Dbg_using_method "all"; Memthrash.Inf_starting 3 3 8;
          Memthrash.Inf_not_optimal 2].
Proof. reflexivity. Qed.

(** X2. Taking the advice ends it: with the proposed number [n] of
    instances, each instance runs [c / n] threads, the [n] instances
    cover the [c] CPUs exactly, and no hint is logged. *)
Theorem X2_advice_is_optimal (cfg : Memthrash.build_config) (w c : Z) :
  0 <= w < 2 ^ 32 -> 1 <= c <= 2 ^ 31 ->
  exists n,
    Memthrash.stress_memthash_optimal w c = Some n /\
    1 <= n <= c /\
    Memthrash.stress_memthrash_max n c * n = c /\
    Memthrash.stress_memthrash_messages cfg 0 n c None =
      Some [Memthrash.Dbg_using_method "all";
            Memthrash.Inf_starting (Memthrash.stress_memthrash_max n c) n c].
Proof.
  intros Hw Hc.
  destruct (optimal_loop_spec (S (Z.to_nat w)) c ltac:(lia) w Hw ltac:(lia))
    as (n & Hn & _ & Hdiv & _).
  pose proof (optimal_loop_positive c _ _ _ Hn) as Hpos.
  assert (Hn1 : 1 <= n <= c) by (split; [lia | apply Z.divide_pos_le; [lia | exact Hdiv]]).
  exists n. split; [exact Hn |]. split; [exact Hn1 |].
  assert (Hmod : c mod n = 0) by (apply Z.mod_divide; [lia | exact Hdiv]).
  assert (Hopt : cpu_optimal n c = true).
  { unfold cpu_optimal. rewrite Hmod.
    destruct (Z.leb_spec n c); [| lia]. cbn. apply orb_true_r. }
  split.
  - destruct (Z.eq_dec n c) as [-> | Hne].
    + rewrite memthrash_max_covering by lia. lia.
    + rewrite memthrash_max_dividing by lia. rewrite ceil_div_exact by lia.
      pose proof (Z.div_mod c n ltac:(lia)). lia.
  - rewrite memthrash_messages_instance_0 by lia. rewrite Hopt. reflexivity.
Qed.

Lemma X2_advice_is_optimal_witness :
  0 <= 7 < 2 ^ 32 /\ 1 <= 12 <= 2 ^ 31 /\
  exists n,
    Memthrash.stress_memthash_optimal 7 12 = Some n /\
    1 <= n <= 12 /\
    Memthrash.stress_memthrash_max n 12 * n = 12 /\
    Memthrash.stress_memthrash_messages linux_x86_64 0 n 12 None =
      Some [Memthrash.Dbg_using_method "all";
            Memthrash.Inf_starting (Memthrash.stress_memthrash_max n 12) n 12].
Proof.
  split; [lia |]. split; [lia |].
  apply (X2_advice_is_optimal linux_x86_64 7 12); lia.
Defined.

(** ** The sizes the worker passes, and the stride the "tlb" method finds *)

Lemma shiftl_1_pow4 (j : Z) : 0 <= j -> Z.shiftl 1 (2 * j) = 4 ^ j.
Proof.
  intros Hj. rewrite Z.shiftl_1_l. change 4 with (2 ^ 2).
  rewrite <- Z.pow_mul_r by lia. reflexivity.
Qed.

Lemma memthrash_sweep_sizes (fuel : nat) :
  forall (j : Z) (go : list bool),
    Memthrash.MATRIX_SIZE_MIN_SHIFT <= j ->
    Forall (fun s => exists shift,
                Memthrash.MATRIX_SIZE_MIN_SHIFT <= shift <= Memthrash.MATRIX_SIZE_MAX_SHIFT
                /\ s = 4 ^ shift)
           (fst (Memthrash.memthrash_sweep fuel j go)).
Proof.
  induction fuel as [| fuel IH]; intros j go Hj; cbn [Memthrash.memthrash_sweep];
    [constructor |].
  destruct (Z.leb_spec j Memthrash.MATRIX_SIZE_MAX_SHIFT) as [Hle | Hgt]; [| constructor].
  destruct go as [| [] go']; [constructor | | constructor].
  specialize (IH (j + 1) go' ltac:(lia)).
  destruct (Memthrash.memthrash_sweep fuel (j + 1) go') as [calls rest].
  cbn [fst] in *. constructor; [| exact IH].
  exists j. split; [lia |]. apply shiftl_1_pow4.
  unfold Memthrash.MATRIX_SIZE_MIN_SHIFT in Hj. lia.
Qed.

Lemma memthrash_func_sizes (fuel : nat) :
  forall go : list bool,
    Forall (fun s => exists shift,
                Memthrash.MATRIX_SIZE_MIN_SHIFT <= shift <= Memthrash.MATRIX_SIZE_MAX_SHIFT
                /\ s = 4 ^ shift)
           (Memthrash.memthrash_func_loop fuel go).
Proof.
  induction fuel as [| fuel IH]; intros go; cbn [Memthrash.memthrash_func_loop];
    [constructor |].
  destruct go as [| [] go']; [constructor | | constructor].
  pose proof (memthrash_sweep_sizes
                (Z.to_nat (2 + Memthrash.MATRIX_SIZE_MAX_SHIFT - Memthrash.MATRIX_SIZE_MIN_SHIFT))
                Memthrash.MATRIX_SIZE_MIN_SHIFT go' ltac:(lia)) as Hsweep.
  destruct (Memthrash.memthrash_sweep _ Memthrash.MATRIX_SIZE_MIN_SHIFT go') as [calls rest].
  cbn [fst] in Hsweep. apply Forall_app. split; [exact Hsweep | apply IH].
Qed.

Lemma shift_cases (shift : Z) :
  Memthrash.MATRIX_SIZE_MIN_SHIFT <= shift <= Memthrash.MATRIX_SIZE_MAX_SHIFT ->
  shift = 10 \/ shift = 11 \/ shift = 12 \/ shift = 13 \/ shift = 14.
Proof. unfold Memthrash.MATRIX_SIZE_MIN_SHIFT, Memthrash.MATRIX_SIZE_MAX_SHIFT. lia. Qed.

(** X3. Whatever the stop conditions answer and however long the worker
    runs, every [mem_size] it passes to the method is one of
    [4 ^ 10 .. 4 ^ 14]: a multiple of 256 bytes no larger than the
    arena, and a size that "tlb" finds in the prime-stride table (for
    any [stress_get_prime64]), so that the worker never makes "tlb" fall
    back on its default stride. *)
Theorem X3_worker_sizes_are_table_sizes (stress_get_prime64 : Z -> Z)
  (go : list bool) (default_stride : Z) :
  Forall (fun s =>
            exists shift,
              s = 4 ^ shift /\
              s ∈ size_ladder /\
              s mod 256 = 0 /\ 2 ^ 20 <= s <= Memthrash.MEM_SIZE /\
              Memthrash.tlb_find_stride (S (Z.to_nat Memthrash.MEM_SIZE_PRIMES)) 0
                (Memthrash.stress_memthrash_find_primes stress_get_prime64) s default_stride
              = Memthrash.prime_stride (prime_stride_entry stress_get_prime64 shift))
         (Memthrash.stress_memthrash_func go).
Proof.
  unfold Memthrash.stress_memthrash_func.
  eapply Forall_impl; [apply memthrash_func_sizes |].
  intros s (shift & Hshift & ->). exists shift.
  destruct (shift_cases shift Hshift) as [-> | [-> | [-> | [-> | ->]]]];
    (split; [reflexivity |]);
    (split; [unfold size_ladder; cbn [fmap list_fmap];
             repeat (rewrite elem_of_cons); auto 10 |]);
    (split; [reflexivity |]);
    (split; [vm_compute; split; discriminate | reflexivity]).
Qed.

Example worker_stops_mid_sweep :
  Memthrash.stress_memthrash_func [true; true; true; false; true; true] =
    [4 ^ 10; 4 ^ 11; 4 ^ 10].
Proof. reflexivity. Qed.

Example tlb_default_stride_for_other_sizes :
  Memthrash.tlb_find_stride 6 0 (Memthrash.stress_memthrash_find_primes spec_next_prime)
    (2 ^ 21) (65537 * 64) = 65537 * 64.
Proof. vm_compute. reflexivity. Qed.

(** ** The walk of the "tlb" method *)

Lemma pow2_mask (m x : Z) :
  0 <= m <= 64 -> Z.land (u64 x) (2 ^ m - 1) = x mod 2 ^ m.
Proof.
  intros Hm. replace (2 ^ m - 1) with (Z.ones m) by (rewrite Z.ones_equiv; lia).
  rewrite Z.land_ones by lia. unfold u64.
  apply Z.mod_mod_divide. exists (2 ^ (64 - m)).
  rewrite <- Z.pow_add_r by lia. f_equal. lia.
Qed.

Lemma tlb_offsets_closed (m stride : Z) (n : nat) :
  0 <= m <= 64 ->
  forall k, 0 <= k < 2 ^ m ->
    tlb_offsets n k stride (2 ^ m - 1) =
      (fun j : nat => (k + Z.of_nat j * stride) mod 2 ^ m) <$> seq 0 n.
Proof.
  intros Hm. induction n as [| n IH]; intros k Hk; [reflexivity |].
  cbn [tlb_offsets seq fmap list_fmap]. f_equal.
  - rewrite Z.mul_0_l, Z.add_0_r. symmetry. apply Z.mod_small. exact Hk.
  - rewrite pow2_mask by exact Hm.
    rewrite IH by (apply Z.mod_pos_bound; lia).
    rewrite <- fmap_S_seq, <- list_fmap_compose. apply list_fmap_ext.
    intros i j _. unfold compose.
    rewrite Zplus_mod_idemp_l. f_equal. lia.
Qed.

Lemma pow2_divides_odd_multiple (p e : Z) :
  Z.odd p = true -> 0 <= e ->
  forall d, Z.divide (2 ^ e) (d * p) -> Z.divide (2 ^ e) d.
Proof.
  intros Hodd He. revert e He. apply (natlike_ind (fun e => forall d, _ -> _)).
  - intros d _. change (2 ^ 0) with 1. apply Z.divide_1_l.
  - intros e He IH d [q Hq]. rewrite Z.pow_succ_r in * by exact He.
    assert (Heven : Z.even (d * p) = true).
    { rewrite Hq. rewrite Z.even_mul, (Z.even_mul 2). cbn. apply orb_true_r. }
    rewrite Z.even_mul, <- (Z.negb_odd p), Hodd in Heven.
    cbn [negb] in Heven. rewrite orb_false_r, <- Z.negb_odd in Heven.
    apply negb_true_iff in Heven.
    assert (Hd : exists d', d = 2 * d').
    { exists (d / 2). pose proof (Z.div_mod d 2 ltac:(lia)) as Hdm.
      rewrite Zmod_odd, Heven in Hdm. lia. }
    destruct Hd as [d' ->].
    destruct (IH d') as [q' Hq']; [exists q; nia |].
    exists q'. nia.
Qed.

Lemma odd_multiples_distinct (p e j1 j2 : Z) :
  Z.odd p = true -> 0 <= e ->
  0 <= j1 < 2 ^ e -> 0 <= j2 < 2 ^ e ->
  (j1 * p) mod 2 ^ e = (j2 * p) mod 2 ^ e -> j1 = j2.
Proof.
  intros Hodd He H1 H2 Heq.
  assert (Hdiv : Z.divide (2 ^ e) ((j1 - j2) * p)).
  { apply Z.mod_divide; [lia |].
    rewrite Z.mul_sub_distr_r, Zminus_mod, Heq, Z.sub_diag. apply Zmod_0_l. }
  apply (pow2_divides_odd_multiple p e Hodd He) in Hdiv.
  destruct Hdiv as [q Hq].
  assert (q = 0) by nia. lia.
Qed.

Lemma tlb_line (m p offset j : Z) :
  6 <= m -> 0 <= offset < 64 ->
  (offset + j * (64 * p)) mod 2 ^ m = offset + 64 * ((j * p) mod 2 ^ (m - 6)).
Proof.
  intros Hm Hoff.
  assert (Hpow : 2 ^ m = 64 * 2 ^ (m - 6)).
  { change 64 with (2 ^ 6). rewrite <- Z.pow_add_r by lia. f_equal. lia. }
  assert (Hpos : 0 < 2 ^ (m - 6)) by (apply Z.pow_pos_nonneg; lia).
  pose proof (Z.div_mod (j * p) (2 ^ (m - 6)) ltac:(lia)) as Hd.
  pose proof (Z.mod_pos_bound (j * p) (2 ^ (m - 6)) Hpos) as Hr.
  symmetry. apply Z.mod_unique_pos with (q := (j * p) / 2 ^ (m - 6)); [lia |].
  rewrite Hpow. nia.
Qed.

Lemma tlb_reads_run (stride mask : Z) (mem : list Z) (n : nat) :
  forall k,
    Forall (fun k => 0 <= k < Z.of_nat (length mem)) (tlb_offsets n k stride mask) ->
    Memthrash.tlb_reads n k stride mask mem = Some (tt, mem).
Proof.
  induction n as [| n IH]; intros k Hin; [reflexivity |].
  cbn [tlb_offsets] in Hin. apply Forall_cons in Hin. destruct Hin as [Hk Hin].
  cbn [Memthrash.tlb_reads]. unfold mbind, mem_op_bind, load.
  destruct (Z.leb_spec 0 k); [| lia].
  destruct (lookup_lt_is_Some_2 mem (Z.to_nat k) ltac:(lia)) as [v Hv].
  rewrite Hv. apply IH. exact Hin.
Qed.

Lemma write_bytes_length (offsets : list Z) :
  forall j mem, length (write_bytes offsets j mem) = length mem.
Proof.
  induction offsets as [| k rest IH]; intros j mem; [reflexivity |].
  cbn [write_bytes]. rewrite IH. apply length_insert.
Qed.

Lemma tlb_writes_run (stride mask : Z) (n : nat) :
  forall j k (mem : list Z),
    Forall (fun k => 0 <= k < Z.of_nat (length mem)) (tlb_offsets n k stride mask) ->
    Memthrash.tlb_writes n j k stride mask mem =
      Some (tt, write_bytes (tlb_offsets n k stride mask) j mem).
Proof.
  induction n as [| n IH]; intros j k mem Hin; [reflexivity |].
  cbn [tlb_offsets] in Hin. apply Forall_cons in Hin. destruct Hin as [Hk Hin].
  cbn [Memthrash.tlb_writes tlb_offsets write_bytes]. unfold mbind, mem_op_bind, store.
  destruct (Z.leb_spec 0 k); [| lia].
  destruct (Z.ltb_spec k (Z.of_nat (length mem))); [| lia]. cbn [andb].
  apply IH. rewrite length_insert. exact Hin.
Qed.

(** X4. On a region of [2 ^ m] bytes ([6 <= m < 64]) inside the arena,
    with a stride of 64 times an odd number (the prime of the table),
    one run of the "tlb" method stays inside the region, reads and then
    writes one byte in each of its [2 ^ m / 64] cache lines, and touches
    no cache line twice in a pass: the lines visited are a permutation
    of all the lines of the region. *)
Theorem X4_tlb_visits_each_line_once (primes : list Memthrash.stress_memthrash_primes_t)
  (mwc16 m p : Z) (mem : list Z) :
  6 <= m < 64 ->
  2 ^ m <= Z.of_nat (length mem) ->
  Memthrash.tlb_find_stride (S (Z.to_nat Memthrash.MEM_SIZE_PRIMES)) 0 primes (2 ^ m)
    (u64 (65537 * Memthrash.STRESS_CACHE_LINE_SIZE)) = 64 * p ->
  Z.odd p = true ->
  let offsets :=
    tlb_offsets (Z.to_nat (2 ^ m / 64)) (Z.land mwc16 63) (64 * p) (2 ^ m - 1) in
  Memthrash.stress_memthrash_tlb primes mwc16 (2 ^ m) mem =
    Some (tt, write_bytes offsets 0 mem) /\
  Forall (fun k => 0 <= k < 2 ^ m) offsets /\
  (fun k => k / 64) <$> offsets ≡ₚ seqZ 0 (2 ^ m / 64).
Proof.
  intros Hm Hlen Hstride Hodd offsets.
  assert (Hpow : 2 ^ m = 64 * 2 ^ (m - 6)).
  { change 64 with (2 ^ 6). rewrite <- Z.pow_add_r by lia. f_equal. lia. }
  assert (Hpos : 0 < 2 ^ (m - 6)) by (apply Z.pow_pos_nonneg; lia).
  assert (Hlines : 2 ^ m / 64 = 2 ^ (m - 6)).
  { rewrite Hpow, Z.mul_comm. apply Z.div_mul. lia. }
  assert (Hoff : 0 <= Z.land mwc16 63 < 64).
  { change 63 with (Z.ones 6). rewrite Z.land_ones by lia. apply Z.mod_pos_bound. lia. }
  assert (Hclosed : offsets =
            (fun j : nat => Z.land mwc16 63 + 64 * ((Z.of_nat j * p) mod 2 ^ (m - 6)))
              <$> seq 0 (Z.to_nat (2 ^ (m - 6)))).
  { unfold offsets. rewrite Hlines, tlb_offsets_closed by lia.
    apply list_fmap_ext. intros i j _. apply tlb_line; lia. }
  assert (Hrange : Forall (fun k => 0 <= k < 2 ^ m) offsets).
  { rewrite Hclosed. apply Forall_fmap, Forall_forall. intros j _. cbn.
    pose proof (Z.mod_pos_bound (Z.of_nat j * p) (2 ^ (m - 6)) Hpos). lia. }
  assert (Hmem : Forall (fun k => 0 <= k < Z.of_nat (length mem)) offsets).
  { eapply Forall_impl; [exact Hrange |]. cbn. intros k Hk. lia. }
  split; [| split; [exact Hrange |]].
  - unfold Memthrash.stress_memthrash_tlb.
    change (Z.shiftr (2 ^ m) Memthrash.STRESS_CACHE_LINE_SHIFT) with (Z.shiftr (2 ^ m) 6).
    rewrite Z.shiftr_div_pow2 by lia. change (2 ^ 6) with 64.
    change (Memthrash.STRESS_CACHE_LINE_SIZE - 1) with 63.
    rewrite Hstride.
    rewrite (u64_small (2 ^ m - 1)).
    2:{ assert (2 ^ m < 2 ^ 64) by (apply Z.pow_lt_mono_r; lia).
        assert (0 < 2 ^ m) by (apply Z.pow_pos_nonneg; lia). lia. }
    fold offsets. unfold mbind at 1. unfold mem_op_bind.
    unfold offsets at 1. rewrite tlb_reads_run by exact Hmem.
    apply tlb_writes_run. exact Hmem.
  - assert (Hlinesof : (fun k => k / 64) <$> offsets =
              (fun j : nat => (Z.of_nat j * p) mod 2 ^ (m - 6))
                <$> seq 0 (Z.to_nat (2 ^ (m - 6)))).
    { rewrite Hclosed, <- list_fmap_compose. apply list_fmap_ext.
      intros i j _. unfold compose.
      pose proof (Z.mod_pos_bound (Z.of_nat j * p) (2 ^ (m - 6)) Hpos).
      symmetry. apply Z.div_unique_pos with (r := Z.land mwc16 63); lia. }
    rewrite Hlinesof, Hlines.
    apply submseteq_length_Permutation.
    + apply NoDup_submseteq.
      * apply NoDup_fmap_2_strong; [| apply NoDup_seq].
        intros j1 j2 Hj1 Hj2 Heq.
        apply elem_of_seq in Hj1. apply elem_of_seq in Hj2.
        apply Nat2Z.inj.
        apply (odd_multiples_distinct p (m - 6)); try assumption; lia.
      * intros x Hx. apply list_elem_of_fmap in Hx. destruct Hx as (j & -> & _).
        apply elem_of_seqZ.
        pose proof (Z.mod_pos_bound (Z.of_nat j * p) (2 ^ (m - 6)) Hpos). lia.
    + rewrite length_seqZ, length_fmap, length_seq. lia.
Qed.

Lemma X4_tlb_visits_each_line_once_witness :
  6 <= 8 < 64 /\
  2 ^ 8 <= Z.of_nat (length (replicate 256 0)) /\
  Memthrash.tlb_find_stride (S (Z.to_nat Memthrash.MEM_SIZE_PRIMES)) 0
    (Memthrash.stress_memthrash_find_primes spec_next_prime) (2 ^ 8)
    (u64 (65537 * Memthrash.STRESS_CACHE_LINE_SIZE)) = 64 * 65537 /\
  Z.odd 65537 = true /\
  let offsets := tlb_offsets (Z.to_nat (2 ^ 8 / 64)) (Z.land 0x1234 63) (64 * 65537) (2 ^ 8 - 1) in
  Memthrash.stress_memthrash_tlb (Memthrash.stress_memthrash_find_primes spec_next_prime)
    0x1234 (2 ^ 8) (replicate 256 0) =
    Some (tt, write_bytes offsets 0 (replicate 256 0)) /\
  Forall (fun k => 0 <= k < 2 ^ 8) offsets /\
  (fun k => k / 64) <$> offsets ≡ₚ seqZ 0 (2 ^ 8 / 64).
Proof.
  assert (H1 : 6 <= 8 < 64) by lia.
  assert (H2 : 2 ^ 8 <= Z.of_nat (length (replicate 256 0)))
    by (rewrite length_replicate; lia).
  assert (H3 : Memthrash.tlb_find_stride (S (Z.to_nat Memthrash.MEM_SIZE_PRIMES)) 0
                 (Memthrash.stress_memthrash_find_primes spec_next_prime) (2 ^ 8)
                 (u64 (65537 * Memthrash.STRESS_CACHE_LINE_SIZE)) = 64 * 65537)
    by (vm_compute; reflexivity).
  split; [exact H1 |]. split; [exact H2 |]. split; [exact H3 |]. split; [reflexivity |].
  exact (X4_tlb_visits_each_line_once
           (Memthrash.stress_memthrash_find_primes spec_next_prime)
           0x1234 8 65537 (replicate 256 0) H1 H2 H3 eq_refl).
Defined.

Example tlb_on_256_bytes :
  tlb_offsets 4 (Z.land 0x1234 63) (64 * 65537) 255 = [52; 116; 180; 244].
Proof. reflexivity. Qed.

(** ** The "inc" generator at every opcode size *)

Lemma store_le_closed (width : nat) :
  forall (pre old post : list Z) (v : Z),
    length old = width ->
    Opcode.store_le width (pre ++ old ++ post) (Z.of_nat (length pre)) v =
      pre ++ le_bytes width v ++ post.
Proof.
  induction width as [| width IH]; intros pre old post v Hlen.
  - destruct old; [reflexivity | discriminate].
  - destruct old as [| x old]; [discriminate |].
    cbn [Opcode.store_le le_bytes]. unfold Opcode.store8. rewrite Nat2Z.id.
    replace (<[length pre:=u8 v]> (pre ++ (x :: old) ++ post))
      with ((pre ++ [u8 v]) ++ old ++ post).
    2:{ rewrite <- app_assoc. cbn [app].
        pose proof (insert_app_r pre (x :: old ++ post) 0 (u8 v)) as Hins.
        rewrite Nat.add_0_r in Hins. rewrite Hins. reflexivity. }
    replace (Z.of_nat (length pre) + 1) with (Z.of_nat (length (pre ++ [u8 v])))
      by (rewrite length_app; cbn [length]; lia).
    rewrite IH by (cbn [length] in Hlen; lia).
    rewrite <- app_assoc. reflexivity.
Qed.

Lemma le_bytes_length (width : nat) : forall v, length (le_bytes width v) = width.
Proof. induction width as [| width IH]; intros v; cbn [le_bytes length]; [| rewrite IH]; reflexivity. Qed.

Lemma fill_units_closed (width : nat) (v : Z) (n : nat) :
  forall (pre old post : list Z),
    length old = (n * width)%nat ->
    Opcode.fill_units n width (pre ++ old ++ post) (Z.of_nat (length pre)) v =
      (pre ++ concat (replicate n (le_bytes width v)) ++ post,
       Z.of_nat (length pre) + Z.of_nat (n * width)).
Proof.
  induction n as [| n IH]; intros pre old post Hlen.
  - destruct old; [| discriminate]. cbn. rewrite Z.add_0_r. reflexivity.
  - cbn [Opcode.fill_units replicate concat].
    rewrite <- (take_drop width old), <- app_assoc.
    assert (Htake : length (take width old) = width) by (rewrite length_take; lia).
    rewrite store_le_closed by exact Htake.
    replace (pre ++ le_bytes width v ++ drop width old ++ post)
      with ((pre ++ le_bytes width v) ++ drop width old ++ post)
      by (rewrite <- app_assoc; reflexivity).
    replace (Z.of_nat (length pre) + Z.of_nat width)
      with (Z.of_nat (length (pre ++ le_bytes width v)))
      by (rewrite length_app, le_bytes_length; lia).
    rewrite IH by (rewrite length_drop; lia).
    rewrite length_app, le_bytes_length, <- !app_assoc. f_equal. lia.
Qed.

Lemma zero_slop_closed (n : nat) :
  forall (pre old post : list Z),
    length old = n ->
    Opcode.zero_slop n (pre ++ old ++ post) (Z.of_nat (length pre))
      (Z.of_nat (length pre) + Z.of_nat n) =
      pre ++ replicate n 0 ++ post.
Proof.
  induction n as [| n IH]; intros pre old post Hlen.
  - destruct old; [reflexivity | discriminate].
  - destruct old as [| x old]; [discriminate |].
    cbn [Opcode.zero_slop]. destruct (Z.ltb_spec (Z.of_nat (length pre))
                                        (Z.of_nat (length pre) + Z.of_nat (S n))); [| lia].
    unfold Opcode.store8. rewrite Nat2Z.id.
    replace (<[length pre:=u8 0]> (pre ++ (x :: old) ++ post))
      with ((pre ++ [0]) ++ old ++ post).
    2:{ rewrite <- app_assoc. cbn [app].
        pose proof (insert_app_r pre (x :: old ++ post) 0 (u8 0)) as Hins.
        rewrite Nat.add_0_r in Hins. rewrite Hins. reflexivity. }
    replace (Z.of_nat (length pre) + 1) with (Z.of_nat (length (pre ++ [0])))
      by (rewrite length_app; cbn [length]; lia).
    replace (Z.of_nat (length pre) + Z.of_nat (S n))
      with (Z.of_nat (length (pre ++ [0])) + Z.of_nat n)
      by (rewrite length_app; cbn [length]; lia).
    rewrite IH by (cbn [length] in Hlen; lia).
    rewrite <- app_assoc. reflexivity.
Qed.

Lemma inc_units_fit (size page_size op : Z) :
  0 <= page_size ->
  let '(n, width, v) := inc_units size page_size op in
  (n * width <= Z.to_nat page_size)%nat.
Proof.
  intros Hps. unfold inc_units.
  repeat match goal with |- context [?a =? ?b] => destruct (a =? b) end.
  - lia.
  - rewrite Z.shiftr_div_pow2 by lia. change (2 ^ 1) with 2.
    pose proof (Z.div_mod page_size 2 ltac:(lia)).
    pose proof (Z.mod_pos_bound page_size 2 ltac:(lia)).
    assert (0 <= page_size / 2) by (apply Z.div_pos; lia). nia.
  - pose proof (Z.div_mod page_size 6 ltac:(lia)).
    pose proof (Z.mod_pos_bound page_size 6 ltac:(lia)).
    assert (0 <= page_size / 6) by (apply Z.div_pos; lia). nia.
  - rewrite Z.shiftr_div_pow2 by lia. change (2 ^ 3) with 8.
    pose proof (Z.div_mod page_size 8 ltac:(lia)).
    pose proof (Z.mod_pos_bound page_size 8 ltac:(lia)).
    assert (0 <= page_size / 8) by (apply Z.div_pos; lia). nia.
  - rewrite Z.shiftr_div_pow2 by lia. change (2 ^ 2) with 4.
    pose proof (Z.div_mod page_size 4 ltac:(lia)).
    pose proof (Z.mod_pos_bound page_size 4 ltac:(lia)).
    assert (0 <= page_size / 4) by (apply Z.div_pos; lia). nia.
Qed.

Lemma fill_interior (n width : nat) (v : Z) (low interior high : list Z) :
  (n * width <= length interior)%nat ->
  Opcode.fill_units n width (low ++ interior ++ high) (Z.of_nat (length low)) v =
    (low ++ (concat (replicate n (le_bytes width v)) ++ drop (n * width) interior) ++ high,
     Z.of_nat (length low) + Z.of_nat (n * width)).
Proof.
  intros Hfit.
  rewrite <- (take_drop (n * width) interior) at 1.
  rewrite <- (app_assoc (take _ _)).
  rewrite fill_units_closed by (rewrite length_take; lia).
  rewrite <- !app_assoc. reflexivity.
Qed.

Lemma concat_replicate_length (n width : nat) (v : Z) :
  length (concat (replicate n (le_bytes width v))) = (n * width)%nat.
Proof.
  induction n as [| n IH]; [reflexivity |].
  cbn [replicate concat]. rewrite length_app, le_bytes_length, IH. lia.
Qed.

Lemma stress_opcode_inc_closed (STRESS_OPCODE_SIZE page_size op : Z)
  (low interior high : list Z) :
  0 <= page_size <= Z.of_nat (length interior) ->
  Opcode.stress_opcode_inc STRESS_OPCODE_SIZE page_size
    (Z.of_nat (length low)) (Z.of_nat (length low) + Z.of_nat (length interior)) op
    (low ++ interior ++ high) =
    low ++ inc_interior STRESS_OPCODE_SIZE page_size op interior ++ high /\
  length (inc_interior STRESS_OPCODE_SIZE page_size op interior) = length interior.
Proof.
  intros Hps.
  pose proof (inc_units_fit STRESS_OPCODE_SIZE page_size op ltac:(lia)) as Hfit.
  unfold Opcode.stress_opcode_inc, inc_interior.
  unfold inc_units in *.
  destruct (Z.eqb_spec STRESS_OPCODE_SIZE 8) as [-> | H8];
    [| destruct (Z.eqb_spec STRESS_OPCODE_SIZE 16) as [-> | H16];
       [| destruct (Z.eqb_spec STRESS_OPCODE_SIZE 48) as [-> | H48];
          [| destruct (Z.eqb_spec STRESS_OPCODE_SIZE 64) as [-> | H64]]]];
    cbn [Z.eqb Pos.eqb].
  1, 2, 4, 5:
    rewrite fill_interior by lia; cbn [fst];
    (split; [reflexivity |]);
    rewrite length_app, concat_replicate_length, length_drop; lia.
  rewrite fill_interior by lia.
  set (n := Z.to_nat (page_size / 6)) in *.
  replace (Z.of_nat (length low) + Z.of_nat (length interior)
           - (Z.of_nat (length low) + Z.of_nat (n * 6)))
    with (Z.of_nat (length interior - n * 6)) by lia.
  rewrite Nat2Z.id.
  pose proof (zero_slop_closed (length interior - n * 6)
                (low ++ concat (replicate n (le_bytes 6 op)))
                (drop (n * 6) interior) high
                ltac:(rewrite length_drop; reflexivity)) as Hslop.
  rewrite length_app, concat_replicate_length in Hslop.
  replace (Z.of_nat (length low + n * 6) + Z.of_nat (length interior - n * 6))
    with (Z.of_nat (length low) + Z.of_nat (length interior)) in Hslop by lia.
  replace (Z.of_nat (length low + n * 6))
    with (Z.of_nat (length low) + Z.of_nat (n * 6)) in Hslop by lia.
  rewrite <- !app_assoc in Hslop. rewrite <- !app_assoc. rewrite Hslop.
  split; [reflexivity |].
  rewrite length_app, concat_replicate_length, length_replicate. lia.
Qed.

(** X5. For every opcode size, the "inc" generator writes between
    [ops_begin] and [ops_end] only, provided a page fits there: the
    bytes before [ops_begin] (the low guard page) and from [ops_end] on
    (the high guard page) are left as they were.  In between it writes
    the units of [inc_units], least significant byte first; the 48-bit
    size zeroes the rest up to [ops_end], the other sizes leave it. *)
Theorem X5_inc_writes_inside_interior (STRESS_OPCODE_SIZE page_size op : Z)
  (low interior high : list Z) :
  0 <= page_size <= Z.of_nat (length interior) ->
  Opcode.stress_opcode_inc STRESS_OPCODE_SIZE page_size
    (Z.of_nat (length low)) (Z.of_nat (length low) + Z.of_nat (length interior)) op
    (low ++ interior ++ high) =
    low ++ inc_interior STRESS_OPCODE_SIZE page_size op interior ++ high /\
  length (inc_interior STRESS_OPCODE_SIZE page_size op interior) = length interior.
Proof.
  apply stress_opcode_inc_closed.
Qed.

Lemma X5_inc_writes_inside_interior_witness :
  0 <= 8 <= Z.of_nat (length (replicate 12 0xaa)) /\
  Opcode.stress_opcode_inc 48 8
    (Z.of_nat (length [0xee; 0xee])) (Z.of_nat (length [0xee; 0xee]) + Z.of_nat (length (replicate 12 0xaa)))
    0x060504030201 ([0xee; 0xee] ++ replicate 12 0xaa ++ [0xff; 0xff]) =
    [0xee; 0xee] ++ inc_interior 48 8 0x060504030201 (replicate 12 0xaa) ++ [0xff; 0xff] /\
  length (inc_interior 48 8 0x060504030201 (replicate 12 0xaa)) = length (replicate 12 0xaa).
Proof.
  split; [cbn; lia |].
  apply (X5_inc_writes_inside_interior 48 8 0x060504030201
           [0xee; 0xee] (replicate 12 0xaa) [0xff; 0xff]).
  cbn; lia.
Defined.

Lemma le_decode_bytes (width : nat) :
  forall v, le_decode (le_bytes width v) = v mod 2 ^ (8 * Z.of_nat width).
Proof.
  induction width as [| width IH]; intros v.
  - cbn. symmetry. apply Z.mod_1_r.
  - cbn [le_bytes le_decode]. rewrite IH, Z.shiftr_div_pow2 by lia.
    replace (8 * Z.of_nat (S width)) with (8 + 8 * Z.of_nat width) by lia.
    rewrite Z.pow_add_r by lia. unfold u8. change (2 ^ 8) with 256.
    rewrite Z.rem_mul_r; [reflexivity | lia |].
    apply Z.pow_pos_nonneg; lia.
Qed.

Lemma inc_unit_decodes (STRESS_OPCODE_SIZE page_size op : Z) :
  STRESS_OPCODE_SIZE ∈ [8; 16; 32; 48; 64] ->
  exists v,
    inc_units STRESS_OPCODE_SIZE page_size op =
      (Z.to_nat (page_size / Z.shiftr STRESS_OPCODE_SIZE 3),
       Z.to_nat (Z.shiftr STRESS_OPCODE_SIZE 3), v) /\
    le_decode (le_bytes (Z.to_nat (Z.shiftr STRESS_OPCODE_SIZE 3)) v) =
      op mod 2 ^ STRESS_OPCODE_SIZE.
Proof.
  intros Hsize.
  assert (Hland : forall k, 0 <= k -> Z.land op (2 ^ k - 1) mod 2 ^ k = op mod 2 ^ k).
  { intros k Hk. replace (2 ^ k - 1) with (Z.ones k) by (rewrite Z.ones_equiv; lia).
    rewrite Z.land_ones by lia. apply Zmod_mod. }
  repeat (apply elem_of_cons in Hsize; destruct Hsize as [-> | Hsize]);
    [.. | apply elem_of_nil in Hsize; contradiction];
    cbn [inc_units Z.eqb Pos.eqb]; rewrite ?(Z.shiftr_div_pow2 page_size) by lia.
  - exists (Z.land op 0xff). change (Z.shiftr 8 3) with 1. rewrite Z.div_1_r.
    split; [reflexivity |]. rewrite le_decode_bytes. apply (Hland 8). lia.
  - exists (Z.land op 0xffff). split; [reflexivity |].
    rewrite le_decode_bytes. apply (Hland 16). lia.
  - exists (Z.land op 0xffffffff). split; [reflexivity |].
    rewrite le_decode_bytes. apply (Hland 32). lia.
  - exists op. split; [reflexivity |]. rewrite le_decode_bytes. reflexivity.
  - exists op. split; [reflexivity |]. rewrite le_decode_bytes. reflexivity.
Qed.

Lemma unit_at (n w i : nat) (blk low rest : list Z) :
  length blk = w -> (i < n)%nat ->
  take w (drop (length low + i * w) (low ++ concat (replicate n blk) ++ rest)) = blk.
Proof.
  intros Hblk Hi. rewrite drop_app_add.
  replace n with (i + S (n - S i))%nat by lia.
  rewrite replicate_add, concat_app, <- app_assoc.
  rewrite drop_app_length'.
  - cbn [replicate concat]. rewrite <- !app_assoc.
    apply take_app_length'. symmetry. exact Hblk.
  - clear Hi. induction i as [| i IH]; [reflexivity |].
    cbn [replicate concat]. rewrite length_app, <- IH. lia.
Qed.

(** X6. At each of the five opcode sizes, when a page fits between
    [ops_begin] and [ops_end], the mapping that the "inc" generator
    leaves holds, at the address of every call the child makes (turn
    [i] calls [ops_begin + i * opcode_bytes], for [i] below
    [opcode_loops = page_size / opcode_bytes]), a unit of
    [opcode_bytes] bytes that reads back, least significant byte first,
    as the low [STRESS_OPCODE_SIZE] bits of the counter [*op]. *)
Theorem X6_inc_unit_decodes_to_counter (STRESS_OPCODE_SIZE page_size op : Z)
  (low interior high : list Z) (i : nat) :
  STRESS_OPCODE_SIZE ∈ [8; 16; 32; 48; 64] ->
  0 <= page_size <= Z.of_nat (length interior) ->
  let opcode_bytes := Z.shiftr STRESS_OPCODE_SIZE 3 in
  let opcode_loops := page_size / opcode_bytes in
  let ops_begin := Z.of_nat (length low) in
  let ops_end := ops_begin + Z.of_nat (length interior) in
  Z.of_nat i < opcode_loops ->
  le_decode
    (take (Z.to_nat opcode_bytes)
       (drop (Z.to_nat (ops_begin + Z.of_nat i * opcode_bytes))
          (Opcode.stress_opcode_inc STRESS_OPCODE_SIZE page_size ops_begin ops_end op
             (low ++ interior ++ high)))) =
    op mod 2 ^ STRESS_OPCODE_SIZE.
Proof.
  intros Hsize Hps opcode_bytes opcode_loops ops_begin ops_end Hi.
  destruct (stress_opcode_inc_closed STRESS_OPCODE_SIZE page_size op low interior high Hps)
    as [Hmem _].
  unfold ops_end, ops_begin. rewrite Hmem.
  destruct (inc_unit_decodes STRESS_OPCODE_SIZE page_size op Hsize) as (v & Hunits & Hdec).
  unfold inc_interior. rewrite Hunits. fold opcode_bytes. fold opcode_bytes in Hdec.
  assert (Hbytes : 0 < opcode_bytes).
  { unfold opcode_bytes.
    repeat (apply elem_of_cons in Hsize; destruct Hsize as [-> | Hsize]);
      [.. | apply elem_of_nil in Hsize; contradiction]; reflexivity. }
  replace (Z.to_nat (Z.of_nat (length low) + Z.of_nat i * opcode_bytes))
    with (length low + i * Z.to_nat opcode_bytes)%nat by nia.
  rewrite <- app_assoc.
  rewrite (unit_at (Z.to_nat (page_size / opcode_bytes)) (Z.to_nat opcode_bytes) i
             (le_bytes (Z.to_nat opcode_bytes) v));
    [exact Hdec | apply le_bytes_length | unfold opcode_loops in Hi; lia].
Qed.

Lemma X6_inc_unit_decodes_to_counter_witness :
  48 ∈ [8; 16; 32; 48; 64] /\
  0 <= 14 <= Z.of_nat (length (replicate 16 0xaa)) /\
  Z.of_nat 1 < 14 / Z.shiftr 48 3 /\
  le_decode
    (take (Z.to_nat (Z.shiftr 48 3))
       (drop (Z.to_nat (Z.of_nat (length [0xee; 0xee]) + Z.of_nat 1 * Z.shiftr 48 3))
          (Opcode.stress_opcode_inc 48 14 (Z.of_nat (length [0xee; 0xee]))
             (Z.of_nat (length [0xee; 0xee]) + Z.of_nat (length (replicate 16 0xaa)))
             0xa1b2c3d4e5f60718
             ([0xee; 0xee] ++ replicate 16 0xaa ++ [0xff; 0xff])))) =
    0xa1b2c3d4e5f60718 mod 2 ^ 48.
Proof.
  assert (H1 : 48 ∈ [8; 16; 32; 48; 64]) by (repeat (rewrite elem_of_cons); auto 10).
  assert (H2 : 0 <= 14 <= Z.of_nat (length (replicate 16 0xaa))) by (cbn; lia).
  assert (H3 : Z.of_nat 1 < 14 / Z.shiftr 48 3) by reflexivity.
  split; [exact H1 |]. split; [exact H2 |]. split; [exact H3 |].
  exact (X6_inc_unit_decodes_to_counter 48 14 0xa1b2c3d4e5f60718
           [0xee; 0xee] (replicate 16 0xaa) [0xff; 0xff] 1 H1 H2 H3).
Defined.

Example inc48_second_unit :
  take 6 (drop 8 (Opcode.stress_opcode_inc 48 14 2 18 0xa1b2c3d4e5f60718
                    ([0xee; 0xee] ++ replicate 16 0xaa ++ [0xff; 0xff]))) =
    [0x18; 0x07; 0xf6; 0xe5; 0xd4; 0xc3].
Proof. reflexivity. Qed.

(** ** The "random" and "mixed" generators *)

Lemma store_le_at (width : nat) (pre old post : list Z) (addr v : Z) :
  addr = Z.of_nat (length pre) -> length old = width ->
  Opcode.store_le width (pre ++ old ++ post) addr v = pre ++ le_bytes width v ++ post.
Proof. intros -> Hlen. apply store_le_closed. exact Hlen. Qed.

Lemma opcode_random_closed (n : nat) :
  forall (mwc32 : list Z) (pre interior high : list Z),
    length interior = (4 * n)%nat ->
    (n <= length mwc32)%nat ->
    Opcode.stress_opcode_random mwc32 (Z.of_nat (length pre))
      (Z.of_nat (length pre) + Z.of_nat (length interior)) (pre ++ interior ++ high) =
      Some (pre ++ concat (le_bytes 4 <$> take n mwc32) ++ high, drop n mwc32).
Proof.
  induction n as [| n IH]; intros mwc32 pre interior high Hlen Hn.
  - destruct interior; [| discriminate]. cbn [length]. rewrite Z.add_0_r.
    destruct mwc32 as [| r rest]; cbn [Opcode.stress_opcode_random];
      rewrite Z.ltb_irrefl; reflexivity.
  - destruct mwc32 as [| r rest]; [cbn [length] in Hn; lia |].
    cbn [Opcode.stress_opcode_random take drop fmap list_fmap concat].
    destruct (Z.ltb_spec (Z.of_nat (length pre))
                (Z.of_nat (length pre) + Z.of_nat (length interior))); [| lia].
    rewrite <- (take_drop 4 interior), <- (app_assoc (take 4 interior)).
    rewrite store_le_closed by (rewrite length_take; lia).
    replace (pre ++ le_bytes 4 r ++ drop 4 interior ++ high)
      with ((pre ++ le_bytes 4 r) ++ drop 4 interior ++ high)
      by (rewrite <- app_assoc; reflexivity).
    replace (Z.of_nat (length pre) + 4)
      with (Z.of_nat (length (pre ++ le_bytes 4 r)))
      by (rewrite length_app, le_bytes_length; lia).
    replace (Z.of_nat (length pre) + Z.of_nat (length (take 4 interior ++ drop 4 interior)))
      with (Z.of_nat (length (pre ++ le_bytes 4 r)) + Z.of_nat (length (drop 4 interior)))
      by (rewrite take_drop, length_app, le_bytes_length, length_drop; lia).
    rewrite IH by (rewrite ?length_drop; cbn [length] in Hn; lia).
    rewrite <- !app_assoc. reflexivity.
Qed.

(** X7. When the room between [ops_begin] and [ops_end] is a whole
    number [n] of 32-bit words, the "random" generator uses exactly [n]
    results of [stress_mwc32], writes them one after the other, least
    significant byte first, over the whole of that room, and leaves the
    bytes before [ops_begin] and from [ops_end] on (the guard pages) as
    they were. *)
Theorem X7_random_fills_interior (n : nat) (mwc32 low interior high : list Z) :
  length interior = (4 * n)%nat ->
  (n <= length mwc32)%nat ->
  Opcode.stress_opcode_random mwc32 (Z.of_nat (length low))
    (Z.of_nat (length low) + Z.of_nat (length interior)) (low ++ interior ++ high) =
    Some (low ++ concat (le_bytes 4 <$> take n mwc32) ++ high, drop n mwc32) /\
  length (concat (le_bytes 4 <$> take n mwc32)) = length interior /\
  le_decode <$> (le_bytes 4 <$> take n mwc32) = (fun r => r mod 2 ^ 32) <$> take n mwc32.
Proof.
  intros Hlen Hn. split; [apply opcode_random_closed; assumption |]. split.
  - rewrite Hlen. clear Hlen. revert mwc32 Hn.
    induction n as [| n IH]; intros [| r rest] Hn; cbn [length] in Hn; try lia;
      [reflexivity | reflexivity |].
    cbn [take fmap list_fmap concat]. rewrite length_app, le_bytes_length.
    rewrite IH by lia. lia.
  - rewrite <- list_fmap_compose. apply list_fmap_ext. intros i r _.
    unfold compose. apply (le_decode_bytes 4).
Qed.

Lemma X7_random_fills_interior_witness :
  length (replicate 8 0) = (4 * 2)%nat /\
  (2 <= length [0x11223344; 0xdeadbeef; 0x5]%Z)%nat /\
  Opcode.stress_opcode_random [0x11223344; 0xdeadbeef; 0x5] (Z.of_nat (length [0xee]))
    (Z.of_nat (length [0xee]) + Z.of_nat (length (replicate 8 0)))
    ([0xee] ++ replicate 8 0 ++ [0xff]) =
    Some ([0xee] ++ concat (le_bytes 4 <$> take 2 [0x11223344; 0xdeadbeef; 0x5]) ++ [0xff],
          drop 2 [0x11223344; 0xdeadbeef; 0x5]) /\
  length (concat (le_bytes 4 <$> take 2 [0x11223344; 0xdeadbeef; 0x5])) =
    length (replicate 8 0) /\
  le_decode <$> (le_bytes 4 <$> take 2 [0x11223344; 0xdeadbeef; 0x5]) =
    (fun r => r mod 2 ^ 32) <$> take 2 [0x11223344; 0xdeadbeef; 0x5].
Proof.
  split; [reflexivity |]. split; [cbn; lia |].
  apply (X7_random_fills_interior 2 [0x11223344; 0xdeadbeef; 0x5] [0xee] (replicate 8 0) [0xff]);
    [reflexivity | cbn; lia].
Defined.

Example opcode_random_bytes :
  Opcode.stress_opcode_random [0x11223344; 0xdeadbeef; 0x5] 1 9 (0xee :: replicate 8 0 ++ [0xff]) =
    Some ([0xee; 0x44; 0x33; 0x22; 0x11; 0xef; 0xbe; 0xad; 0xde; 0xff], [0x5]).
Proof. reflexivity. Qed.

Lemma store_le_progress (width : nat) (pre done interior post : list Z) (addr v : Z) :
  addr = Z.of_nat (length pre) + Z.of_nat (length done) ->
  (length done + width <= length interior)%nat ->
  Opcode.store_le width (pre ++ done ++ drop (length done) interior ++ post) addr v =
    pre ++ (done ++ le_bytes width v)
        ++ drop (length (done ++ le_bytes width v)) interior ++ post.
Proof.
  intros -> Hfit.
  rewrite <- (take_drop width (drop (length done) interior)).
  rewrite drop_drop, <- (app_assoc (take width _)).
  rewrite (app_assoc pre done).
  replace (Z.of_nat (length pre) + Z.of_nat (length done))
    with (Z.of_nat (length (pre ++ done))) by (rewrite length_app; lia).
  rewrite store_le_closed by (rewrite length_take, length_drop; lia).
  rewrite length_app, le_bytes_length, <- !app_assoc. reflexivity.
Qed.

Lemma mixed_block_stored (tmp rnd : Z) (pre interior post : list Z) :
  (64 <= length interior)%nat ->
  let ops := Z.of_nat (length pre) in
  let mem := pre ++ interior ++ post in
  let mem := Opcode.store_le 8 mem ops tmp in
  let mem := Opcode.store_le 8 mem (ops + 8) (Z.lxor tmp 0xffffffff) in
  let mem := Opcode.store_le 8 mem (ops + 16) (Z.lxor (Z.shiftr tmp 1) tmp) in
  let mem := Opcode.store_le 8 mem (ops + 24) (Opcode.reverse64 tmp) in
  let mem := Opcode.store_le 8 mem (ops + 32) rnd in
  let mem := Opcode.store_le 8 mem (ops + 40) (Z.lxor rnd 0xffffffff) in
  let mem := Opcode.store_le 8 mem (ops + 48) (Z.lxor (Z.shiftr rnd 1) rnd) in
  let mem := Opcode.store_le 8 mem (ops + 56) (Opcode.reverse64 rnd) in
  mem = pre ++ mixed_block tmp rnd ++ drop 64 interior ++ post.
Proof.
  intros Hlen. cbv zeta.
  change (pre ++ interior ++ post) with (pre ++ [] ++ drop (length (@nil Z)) interior ++ post).
  do 8 (rewrite store_le_progress;
        [| rewrite ?length_app, ?le_bytes_length; cbn [length]; lia
         | rewrite ?length_app, ?le_bytes_length; cbn [length]; lia]).
  unfold mixed_block. rewrite !length_app, !le_bytes_length. cbn [length app].
  rewrite <- !app_assoc. reflexivity.
Qed.

Lemma mixed_block_length (tmp rnd : Z) : length (mixed_block tmp rnd) = 64%nat.
Proof. unfold mixed_block. rewrite !length_app, !le_bytes_length. reflexivity. Qed.

Lemma opcode_mixed_closed (tmp : Z) (n : nat) :
  forall (mwc64 : list Z) (pre interior high : list Z),
    length interior = (64 * n)%nat ->
    (n <= length mwc64)%nat ->
    Opcode.stress_opcode_mixed mwc64 tmp (Z.of_nat (length pre))
      (Z.of_nat (length pre) + Z.of_nat (length interior)) (pre ++ interior ++ high) =
      Some (pre ++ concat (mixed_block tmp <$> take n mwc64) ++ high, drop n mwc64).
Proof.
  induction n as [| n IH]; intros mwc64 pre interior high Hlen Hn.
  - destruct interior; [| discriminate]. cbn [length]. rewrite Z.add_0_r.
    destruct mwc64 as [| r rest]; cbn [Opcode.stress_opcode_mixed];
      rewrite Z.ltb_irrefl; reflexivity.
  - destruct mwc64 as [| rnd rest]; [cbn [length] in Hn; lia |].
    cbn [Opcode.stress_opcode_mixed take drop fmap list_fmap concat].
    destruct (Z.ltb_spec (Z.of_nat (length pre))
                (Z.of_nat (length pre) + Z.of_nat (length interior))); [| lia].
    pose proof (mixed_block_stored tmp rnd pre interior high ltac:(lia)) as Hblock.
    cbv zeta in Hblock. rewrite Hblock. clear Hblock.
    replace (pre ++ mixed_block tmp rnd ++ drop 64 interior ++ high)
      with ((pre ++ mixed_block tmp rnd) ++ drop 64 interior ++ high)
      by (rewrite <- app_assoc; reflexivity).
    replace (Z.of_nat (length pre) + 64)
      with (Z.of_nat (length (pre ++ mixed_block tmp rnd)))
      by (rewrite length_app, mixed_block_length; lia).
    replace (Z.of_nat (length pre) + Z.of_nat (length interior))
      with (Z.of_nat (length (pre ++ mixed_block tmp rnd))
            + Z.of_nat (length (drop 64 interior)))
      by (rewrite length_app, mixed_block_length, length_drop; lia).
    rewrite IH by (rewrite ?length_drop; cbn [length] in Hn; lia).
    rewrite <- !app_assoc. reflexivity.
Qed.

(** X8. When the room between [ops_begin] and [ops_end] is a whole
    number [n] of 64-byte blocks, the "mixed" generator uses exactly [n]
    results of [stress_mwc64] and writes one [mixed_block] per result
    over the whole of that room, leaving the bytes before [ops_begin]
    and from [ops_end] on (the guard pages) as they were.  In each block
    the fourth word is the bit reversal of the first, which
    [reverse64] turns back into the low 64 bits of the counter. *)
Theorem X8_mixed_fills_interior (tmp : Z) (n : nat) (mwc64 low interior high : list Z) :
  length interior = (64 * n)%nat ->
  (n <= length mwc64)%nat ->
  0 <= tmp < 2 ^ 64 ->
  Opcode.stress_opcode_mixed mwc64 tmp (Z.of_nat (length low))
    (Z.of_nat (length low) + Z.of_nat (length interior)) (low ++ interior ++ high) =
    Some (low ++ concat (mixed_block tmp <$> take n mwc64) ++ high, drop n mwc64) /\
  length (concat (mixed_block tmp <$> take n mwc64)) = length interior /\
  Forall (fun block =>
            le_decode (take 8 block) = tmp /\
            Opcode.reverse64 (le_decode (take 8 (drop 24 block))) = tmp)
         (mixed_block tmp <$> take n mwc64).
Proof.
  intros Hlen Hn Htmp. split; [apply opcode_mixed_closed; assumption |]. split.
  - rewrite Hlen. clear Hlen. revert mwc64 Hn.
    induction n as [| n IH]; intros [| r rest] Hn; cbn [length] in Hn; try lia;
      [reflexivity | reflexivity |].
    cbn [take fmap list_fmap concat]. rewrite length_app, mixed_block_length.
    rewrite IH by lia. lia.
  - apply Forall_fmap, Forall_forall. intros rnd _. cbn beta.
    assert (Hinv : Opcode.reverse64 (Opcode.reverse64 tmp) = tmp).
    { apply Z.bits_inj'. intros i Hi.
      destruct (Z_lt_le_dec i 64) as [Hlt | Hge].
      - destruct (reverse64_source_involutive i ltac:(lia)) as [Hin Hback].
        rewrite reverse64_testbit by lia. rewrite reverse64_testbit by exact Hin.
        rewrite Hback. reflexivity.
      - rewrite (testbit_above_64 tmp i) by assumption.
        apply testbit_above_64; [apply reverse64_range | exact Hge]. }
    unfold mixed_block. split.
    + rewrite take_app_length' by (rewrite le_bytes_length; reflexivity).
      rewrite (le_decode_bytes 8). apply Z.mod_small. exact Htmp.
    + match goal with
      | |- context [?b0 ++ ?b1 ++ ?b2 ++ ?tail] =>
          replace (b0 ++ b1 ++ b2 ++ tail) with ((b0 ++ b1 ++ b2) ++ tail)
            by (rewrite <- !app_assoc; reflexivity)
      end.
      rewrite drop_app_length' by (rewrite !length_app, !le_bytes_length; reflexivity).
      rewrite take_app_length' by (rewrite le_bytes_length; reflexivity).
      rewrite (le_decode_bytes 8).
      rewrite Z.mod_small by apply reverse64_range. exact Hinv.
Qed.

Lemma X8_mixed_fills_interior_witness :
  length (replicate 64 0) = (64 * 1)%nat /\
  (1 <= length [0x1122334455667788; 0x5]%Z)%nat /\
  0 <= 0x90 < 2 ^ 64 /\
  Opcode.stress_opcode_mixed [0x1122334455667788; 0x5] 0x90 (Z.of_nat (length [0xee]))
    (Z.of_nat (length [0xee]) + Z.of_nat (length (replicate 64 0)))
    ([0xee] ++ replicate 64 0 ++ [0xff]) =
    Some ([0xee] ++ concat (mixed_block 0x90 <$> take 1 [0x1122334455667788; 0x5]) ++ [0xff],
          drop 1 [0x1122334455667788; 0x5]) /\
  length (concat (mixed_block 0x90 <$> take 1 [0x1122334455667788; 0x5])) =
    length (replicate 64 0) /\
  Forall (fun block =>
            le_decode (take 8 block) = 0x90 /\
            Opcode.reverse64 (le_decode (take 8 (drop 24 block))) = 0x90)
         (mixed_block 0x90 <$> take 1 [0x1122334455667788; 0x5]).
Proof.
  split; [reflexivity |]. split; [cbn; lia |]. split; [lia |].
  apply (X8_mixed_fills_interior 0x90 1 [0x1122334455667788; 0x5] [0xee]
           (replicate 64 0) [0xff]); [reflexivity | cbn; lia | lia].
Defined.

(** ** Running accesses on a part of the memory *)

Lemma load_at (pre l : list Z) (k : Z) :
  0 <= k ->
  load (Z.of_nat (length pre) + k) (pre ++ l) =
    match l !! Z.to_nat k with
    | Some v => Some (v, pre ++ l)
    | None => None
    end.
Proof.
  intros Hk. unfold load.
  destruct (Z.leb_spec 0 (Z.of_nat (length pre) + k)); [| lia].
  replace (Z.to_nat (Z.of_nat (length pre) + k)) with (length pre + Z.to_nat k)%nat by lia.
  rewrite lookup_app_r by lia.
  replace (length pre + Z.to_nat k - length pre)%nat with (Z.to_nat k) by lia.
  reflexivity.
Qed.

Lemma store_at (pre l : list Z) (k v : Z) :
  0 <= k ->
  store (Z.of_nat (length pre) + k) v (pre ++ l) =
    if (Z.to_nat k <? length l)%nat
    then Some (tt, pre ++ <[Z.to_nat k := v]> l)
    else None.
Proof.
  intros Hk. unfold store. rewrite length_app.
  destruct (Z.leb_spec 0 (Z.of_nat (length pre) + k)); [| lia]. cbn [andb].
  destruct (Nat.ltb_spec (Z.to_nat k) (length l));
    destruct (Z.ltb_spec (Z.of_nat (length pre) + k) (Z.of_nat (length pre + length l)));
    try lia; [| reflexivity].
  replace (Z.to_nat (Z.of_nat (length pre) + k)) with (length pre + Z.to_nat k)%nat by lia.
  rewrite insert_app_r. reflexivity.
Qed.

(** Run the loads and stores of a straight-line body at [length pre + k]
    on [pre ++ (c0 :: c1 :: ...)]. *)
Ltac run_accesses :=
  repeat (first
    [ progress unfold mbind, mem_op_bind, mret, mem_op_ret
    | rewrite <- !Z.add_assoc
    | rewrite load_at by lia
    | rewrite store_at by lia
    | progress simpl ]).

Lemma chunks_apply_length (step : nat) (f : list Z -> list Z) :
  (forall blk, length blk = step -> length (f blk) = step) ->
  forall (n : nat) (l : list Z),
    (n * step <= length l)%nat -> length (chunks_apply n step f l) = length l.
Proof.
  intros Hf. induction n as [| n IH]; intros l Hl; [reflexivity |].
  cbn [chunks_apply]. rewrite length_app, Hf by (rewrite length_take; lia).
  rewrite IH by (rewrite length_drop; lia). rewrite length_drop. lia.
Qed.

Lemma chunks_apply_twice (step : nat) (f : list Z -> list Z) :
  (forall blk, length blk = step -> length (f blk) = step /\ f (f blk) = blk) ->
  forall (n : nat) (l : list Z),
    (n * step <= length l)%nat ->
    chunks_apply n step f (chunks_apply n step f l) = l.
Proof.
  intros Hf. induction n as [| n IH]; intros l Hl; [reflexivity |].
  cbn [chunks_apply].
  destruct (Hf (take step l) ltac:(rewrite length_take; lia)) as [Hlen Hinv].
  rewrite take_app_length' by (symmetry; exact Hlen).
  rewrite drop_app_length' by (symmetry; exact Hlen).
  rewrite Hinv, IH by (rewrite length_drop; lia).
  apply take_drop.
Qed.

Lemma chunks_apply_app (step : nat) (f : list Z -> list Z) (n : nat) :
  forall (l rest : list Z),
    length l = (n * step)%nat ->
    chunks_apply n step f (l ++ rest) = chunks_apply n step f l ++ rest.
Proof.
  induction n as [| n IH]; intros l rest Hl.
  - destruct l; [reflexivity | discriminate].
  - cbn [chunks_apply].
    rewrite take_app_le, drop_app_le by lia.
    rewrite IH by (rewrite length_drop; lia).
    rewrite <- app_assoc. reflexivity.
Qed.

Lemma ptr_loop_blocks (cell : Z) (step : nat) (body : Z -> mem_op unit)
  (f : list Z -> list Z) :
  0 < cell -> (0 < step)%nat ->
  (forall blk, length blk = step -> length (f blk) = step) ->
  (forall pre blk post, length blk = step ->
     body (Z.of_nat (length pre)) (pre ++ blk ++ post) = Some (tt, pre ++ f blk ++ post)) ->
  forall (n fuel : nat) (pre region post : list Z),
    length region = (n * step)%nat -> (n < fuel)%nat ->
    Memthrash.ptr_loop fuel cell (Z.of_nat step) body (Z.of_nat (length pre))
      (cell * (Z.of_nat (length pre) + Z.of_nat (n * step))) (pre ++ region ++ post) =
      Some (tt, pre ++ chunks_apply n step f region ++ post).
Proof.
  intros Hcell Hstep Hlenf Hbody.
  induction n as [| n IH]; intros fuel pre region post Hlen Hfuel.
  - destruct region; [| discriminate].
    destruct fuel as [| fuel]; [lia |]. cbn [Memthrash.ptr_loop chunks_apply].
    destruct (Z.ltb_spec (cell * Z.of_nat (length pre))
                (cell * (Z.of_nat (length pre) + Z.of_nat (0 * step)))); [nia |].
    reflexivity.
  - destruct fuel as [| fuel]; [lia |]. cbn [Memthrash.ptr_loop chunks_apply].
    destruct (Z.ltb_spec (cell * Z.of_nat (length pre))
                (cell * (Z.of_nat (length pre) + Z.of_nat (S n * step)))); [| nia].
    rewrite <- (take_drop step region) at 1. rewrite <- (app_assoc (take step region)).
    unfold mbind at 1. unfold mem_op_bind.
    rewrite Hbody by (rewrite length_take; lia).
    pose proof (Hlenf (take step region) ltac:(rewrite length_take; lia)) as Hf1.
    replace (pre ++ f (take step region) ++ drop step region ++ post)
      with ((pre ++ f (take step region)) ++ drop step region ++ post)
      by (rewrite <- app_assoc; reflexivity).
    replace (Z.of_nat (length pre) + Z.of_nat step)
      with (Z.of_nat (length (pre ++ f (take step region))))
      by (rewrite length_app, Hf1; lia).
    replace (cell * (Z.of_nat (length pre) + Z.of_nat (S n * step)))
      with (cell * (Z.of_nat (length (pre ++ f (take step region))) + Z.of_nat (n * step)))
      by (rewrite length_app, Hf1; lia).
    rewrite IH by (rewrite ?length_drop; lia).
    rewrite <- !app_assoc. reflexivity.
Qed.

Lemma ptr_loop_region (cell : Z) (step : nat) (body : Z -> mem_op unit)
  (f : list Z -> list Z) (n : nat) (mem_size : Z) (mem : list Z) :
  0 < cell -> (0 < step)%nat ->
  (forall blk, length blk = step -> length (f blk) = step) ->
  (forall pre blk post, length blk = step ->
     body (Z.of_nat (length pre)) (pre ++ blk ++ post) = Some (tt, pre ++ f blk ++ post)) ->
  mem_size = cell * Z.of_nat (n * step) ->
  (n * step <= length mem)%nat ->
  Memthrash.ptr_loop (S (Z.to_nat mem_size)) cell (Z.of_nat step) body 0 mem_size mem =
    Some (tt, chunks_apply n step f (take (n * step) mem) ++ drop (n * step) mem).
Proof.
  intros Hcell Hstep Hlenf Hbody Hsize Hfit.
  pose proof (ptr_loop_blocks cell step body f Hcell Hstep Hlenf Hbody n
                (S (Z.to_nat mem_size)) [] (take (n * step) mem) (drop (n * step) mem)
                ltac:(rewrite length_take; lia) ltac:(nia)) as Hloop.
  cbn [length app] in Hloop. cbn [Z.of_nat] in Hloop. rewrite Z.add_0_l in Hloop.
  rewrite <- Hsize, take_drop in Hloop. exact Hloop.
Qed.

(** ** "flip", "swap64" and "memset64" *)

Lemma flip_mem_body_run (pre blk post : list Z) :
  length blk = 1%nat ->
  Memthrash.flip_mem_body (Z.of_nat (length pre)) (pre ++ blk ++ post) =
    Some (tt, pre ++ (complement64 <$> blk) ++ post).
Proof.
  intros Hlen. destruct blk as [| v [| ? ?]]; try discriminate.
  unfold Memthrash.flip_mem_body.
  rewrite <- (Z.add_0_r (Z.of_nat (length pre))).
  cbn [app fmap list_fmap]. run_accesses. reflexivity.
Qed.

Lemma chunks_apply_fmap (g : Z -> Z) (n : nat) :
  forall l : list Z, length l = n -> chunks_apply n 1 (fmap g) l = g <$> l.
Proof.
  induction n as [| n IH]; intros l Hl.
  - destruct l; [reflexivity | discriminate].
  - destruct l as [| x l]; [discriminate |].
    cbn [chunks_apply take drop fmap list_fmap app]. f_equal. apply IH.
    cbn [length] in Hl. lia.
Qed.

Lemma complement64_twice (v : Z) : complement64 (complement64 v) = v.
Proof.
  unfold complement64. rewrite Z.lxor_assoc, Z.lxor_nilpotent. apply Z.lxor_0_r.
Qed.

(** X9. On a region of [mem_size = 8 * n] bytes inside the arena, "flip"
    inverts every bit of the [n] words of the region and touches no
    word after them; run twice, it leaves the arena as it found it. *)
Theorem X9_flip_is_an_involution (mem_size : Z) (n : nat) (mem : list Z) :
  mem_size = 8 * Z.of_nat n ->
  (n <= length mem)%nat ->
  Memthrash.stress_memthrash_flip_mem mem_size mem =
    Some (tt, (complement64 <$> take n mem) ++ drop n mem) /\
  (Memthrash.stress_memthrash_flip_mem mem_size;;
   Memthrash.stress_memthrash_flip_mem mem_size) mem = Some (tt, mem).
Proof.
  intros Hsize Hfit.
  assert (Hrun : forall m : list Z, (n <= length m)%nat ->
            Memthrash.stress_memthrash_flip_mem mem_size m =
              Some (tt, (complement64 <$> take n m) ++ drop n m)).
  { intros m Hm. unfold Memthrash.stress_memthrash_flip_mem.
    change 1 with (Z.of_nat 1).
    rewrite (ptr_loop_region 8 1 Memthrash.flip_mem_body (fmap complement64) n mem_size m);
      try lia.
    - rewrite Nat.mul_1_r, chunks_apply_fmap by (rewrite length_take; lia). reflexivity.
    - intros blk Hblk. rewrite length_fmap. exact Hblk.
    - intros pre blk post Hblk. apply flip_mem_body_run. exact Hblk. }
  split; [apply Hrun; exact Hfit |].
  unfold mbind, mem_op_bind. rewrite (Hrun mem Hfit).
  rewrite Hrun by (rewrite length_app, length_fmap, length_take, length_drop; lia).
  rewrite take_app_length' by (rewrite length_fmap, length_take; lia).
  rewrite drop_app_length' by (rewrite length_fmap, length_take; lia).
  rewrite <- list_fmap_compose.
  rewrite (list_fmap_ext (complement64 ∘ complement64) id (take n mem) )
    by (intros i v _; apply complement64_twice).
  rewrite list_fmap_id. rewrite take_drop. reflexivity.
Qed.

Lemma X9_flip_is_an_involution_witness :
  16 = 8 * Z.of_nat 2 /\
  (2 <= length [0x0; 0xffffffffffffffff; 0x1234]%Z)%nat /\
  Memthrash.stress_memthrash_flip_mem 16 [0x0; 0xffffffffffffffff; 0x1234] =
    Some (tt, (complement64 <$> take 2 [0x0; 0xffffffffffffffff; 0x1234])
               ++ drop 2 [0x0; 0xffffffffffffffff; 0x1234]) /\
  (Memthrash.stress_memthrash_flip_mem 16;;
   Memthrash.stress_memthrash_flip_mem 16) [0x0; 0xffffffffffffffff; 0x1234] =
    Some (tt, [0x0; 0xffffffffffffffff; 0x1234]).
Proof.
  split; [reflexivity |]. split; [cbn; lia |].
  apply (X9_flip_is_an_involution 16 2 [0x0; 0xffffffffffffffff; 0x1234]);
    [reflexivity | cbn; lia].
Defined.

Example flip_two_words :
  Memthrash.stress_memthrash_flip_mem 16 [0x0; 0xffffffffffffffff; 0x1234] =
    Some (tt, [0xffffffffffffffff; 0x0; 0x1234]).
Proof. reflexivity. Qed.

Example flip_past_the_array :
  Memthrash.stress_memthrash_flip_mem 32 [0x0; 0xffffffffffffffff; 0x1234] = None.
Proof. reflexivity. Qed.

Tactic Notation "explicit_cells" ident(blk) integer(n) :=
  do n (destruct blk as [| ? blk]; [discriminate |]);
  destruct blk; [| discriminate].

Lemma swap64_body_run (pre blk post : list Z) :
  length blk = 16%nat ->
  Memthrash.swap64_body (Z.of_nat (length pre)) (pre ++ blk ++ post) =
    Some (tt, pre ++ swap64_words blk ++ post).
Proof.
  intros Hlen. explicit_cells blk 16.
  unfold Memthrash.swap64_body, Memthrash.swap64_block, swap64_words.
  run_accesses. reflexivity.
Qed.

Lemma swap64_words_twice (blk : list Z) :
  length blk = 16%nat ->
  length (swap64_words blk) = 16%nat /\ swap64_words (swap64_words blk) = blk.
Proof.
  intros Hlen. explicit_cells blk 16. split; reflexivity.
Qed.

Lemma swap64_words_permutation (blk : list Z) :
  length blk = 16%nat -> swap64_words blk ≡ₚ blk.
Proof.
  intros Hlen. explicit_cells blk 16.
  match goal with
  | |- _ ≡ₚ [?c0; ?c1; ?c2; ?c3; ?c4; ?c5; ?c6; ?c7;
             ?c8; ?c9; ?c10; ?c11; ?c12; ?c13; ?c14; ?c15] =>
      change (([c4; c5; c6; c7] ++ [c0; c1; c2; c3])
                ++ ([c12; c13; c14; c15] ++ [c8; c9; c10; c11])
              ≡ₚ ([c0; c1; c2; c3] ++ [c4; c5; c6; c7])
                   ++ ([c8; c9; c10; c11] ++ [c12; c13; c14; c15]))
  end.
  apply Permutation_app; apply Permutation_app_comm.
Qed.

Lemma chunks_apply_permutation (step : nat) (f : list Z -> list Z) :
  (forall blk, length blk = step -> f blk ≡ₚ blk) ->
  forall (n : nat) (l : list Z),
    (n * step <= length l)%nat -> chunks_apply n step f l ≡ₚ l.
Proof.
  intros Hf. induction n as [| n IH]; intros l Hl; [reflexivity |].
  cbn [chunks_apply].
  rewrite Hf by (rewrite length_take; lia).
  rewrite IH by (rewrite length_drop; lia).
  rewrite take_drop. reflexivity.
Qed.

(** X10. On a region of [mem_size = 128 * n] bytes inside the arena,
    "swap64" exchanges the two halves of every group of eight words of
    the region and touches no word after it: the arena keeps its words
    (it is permuted), and a second run puts every word back. *)
Theorem X10_swap64_is_an_involution (mem_size : Z) (n : nat) (mem : list Z) :
  mem_size = 128 * Z.of_nat n ->
  (n * 16 <= length mem)%nat ->
  Memthrash.stress_memthrash_swap64 mem_size mem =
    Some (tt, chunks_apply n 16 swap64_words (take (n * 16) mem) ++ drop (n * 16) mem) /\
  chunks_apply n 16 swap64_words (take (n * 16) mem) ++ drop (n * 16) mem ≡ₚ mem /\
  (Memthrash.stress_memthrash_swap64 mem_size;;
   Memthrash.stress_memthrash_swap64 mem_size) mem = Some (tt, mem).
Proof.
  intros Hsize Hfit.
  assert (Hrun : forall m : list Z, (n * 16 <= length m)%nat ->
            Memthrash.stress_memthrash_swap64 mem_size m =
              Some (tt, chunks_apply n 16 swap64_words (take (n * 16) m)
                          ++ drop (n * 16) m)).
  { intros m Hm. unfold Memthrash.stress_memthrash_swap64.
    change 16 with (Z.of_nat 16).
    apply (ptr_loop_region 8 16 Memthrash.swap64_body swap64_words n mem_size m);
      try lia.
    - intros blk Hblk. apply swap64_words_twice. exact Hblk.
    - intros pre blk post Hblk. apply swap64_body_run. exact Hblk. }
  assert (Hlen : length (chunks_apply n 16 swap64_words (take (n * 16) mem)) = (n * 16)%nat).
  { rewrite chunks_apply_length; [rewrite length_take; lia | | rewrite length_take; lia].
    intros blk Hblk. apply swap64_words_twice. exact Hblk. }
  split; [apply Hrun; exact Hfit |]. split.
  - rewrite chunks_apply_permutation;
      [rewrite take_drop; reflexivity | | rewrite length_take; lia].
    intros blk Hblk. apply swap64_words_permutation. exact Hblk.
  - unfold mbind, mem_op_bind. rewrite (Hrun mem Hfit).
    rewrite Hrun by (rewrite length_app, Hlen; lia).
    rewrite take_app_length' by (symmetry; exact Hlen).
    rewrite drop_app_length' by (symmetry; exact Hlen).
    rewrite chunks_apply_twice;
      [rewrite take_drop; reflexivity | | rewrite length_take; lia].
    intros blk Hblk. apply swap64_words_twice. exact Hblk.
Qed.

Lemma X10_swap64_is_an_involution_witness :
  128 = 128 * Z.of_nat 1 /\
  (1 * 16 <= length (seqZ 0 20))%nat /\
  Memthrash.stress_memthrash_swap64 128 (seqZ 0 20) =
    Some (tt, chunks_apply 1 16 swap64_words (take (1 * 16) (seqZ 0 20))
               ++ drop (1 * 16) (seqZ 0 20)) /\
  chunks_apply 1 16 swap64_words (take (1 * 16) (seqZ 0 20))
    ++ drop (1 * 16) (seqZ 0 20) ≡ₚ seqZ 0 20 /\
  (Memthrash.stress_memthrash_swap64 128;;
   Memthrash.stress_memthrash_swap64 128) (seqZ 0 20) = Some (tt, seqZ 0 20).
Proof.
  split; [reflexivity |]. split; [rewrite length_seqZ; lia |].
  apply (X10_swap64_is_an_involution 128 1 (seqZ 0 20));
    [reflexivity | rewrite length_seqZ; lia].
Defined.

Example swap64_one_pass :
  Memthrash.stress_memthrash_swap64 128 (seqZ 0 20) =
    Some (tt, [4; 5; 6; 7; 0; 1; 2; 3; 12; 13; 14; 15; 8; 9; 10; 11; 16; 17; 18; 19]).
Proof. reflexivity. Qed.

(** ** "memset64" *)

Lemma memset64_body_run (val : Z) (pre blk post : list Z) :
  length blk = 8%nat ->
  Memthrash.memset64_body val (Z.of_nat (length pre)) (pre ++ blk ++ post) =
    Some (tt, pre ++ replicate 8 val ++ post).
Proof.
  intros Hlen. explicit_cells blk 8.
  unfold Memthrash.memset64_body. run_accesses. reflexivity.
Qed.

Lemma chunks_apply_const (step : nat) (fill : list Z) (n : nat) :
  length fill = step ->
  forall l : list Z, length l = (n * step)%nat ->
    chunks_apply n step (fun _ => fill) l = concat (replicate n fill).
Proof.
  intros Hfill. induction n as [| n IH]; intros l Hl.
  - destruct l; [reflexivity | discriminate].
  - cbn [chunks_apply replicate concat]. f_equal. apply IH.
    rewrite length_drop. lia.
Qed.

Lemma concat_replicate_replicate (n k : nat) (v : Z) :
  concat (replicate n (replicate k v)) = replicate (n * k) v.
Proof.
  induction n as [| n IH]; [reflexivity |].
  cbn [replicate concat Nat.mul]. rewrite IH, <- replicate_add. reflexivity.
Qed.

(** X11. On a region of [mem_size = 64 * n] bytes inside the arena,
    "memset64" sets each of the [8 * n] words of the region to the one
    value drawn from [stress_mwc64] and touches no word after it. *)
Theorem X11_memset64_fills_the_region (val mem_size : Z) (n : nat) (mem : list Z) :
  mem_size = 64 * Z.of_nat n ->
  (n * 8 <= length mem)%nat ->
  Memthrash.stress_memthrash_memset64 val mem_size mem =
    Some (tt, replicate (n * 8) val ++ drop (n * 8) mem).
Proof.
  intros Hsize Hfit. unfold Memthrash.stress_memthrash_memset64.
  change 8 with (Z.of_nat 8) at 2.
  rewrite (ptr_loop_region 8 8 (Memthrash.memset64_body val) (fun _ => replicate 8 val)
             n mem_size mem); try lia.
  - rewrite (chunks_apply_const 8 (replicate 8 val)) by (rewrite ?length_take; reflexivity || lia).
    rewrite concat_replicate_replicate. reflexivity.
  - intros blk _. apply length_replicate.
  - intros pre blk post Hblk. apply memset64_body_run. exact Hblk.
Qed.

Lemma X11_memset64_fills_the_region_witness :
  64 = 64 * Z.of_nat 1 /\
  (1 * 8 <= length (seqZ 0 10))%nat /\
  Memthrash.stress_memthrash_memset64 0xabcd 64 (seqZ 0 10) =
    Some (tt, replicate (1 * 8) 0xabcd ++ drop (1 * 8) (seqZ 0 10)).
Proof.
  split; [reflexivity |]. split; [rewrite length_seqZ; lia |].
  apply (X11_memset64_fills_the_region 0xabcd 64 1 (seqZ 0 10));
    [reflexivity | rewrite length_seqZ; lia].
Defined.

Example memset64_rounds_up_to_eight_words :
  Memthrash.stress_memthrash_memset64 0xabcd 8 (seqZ 0 10) =
    Some (tt, replicate 8 0xabcd ++ [8; 9]).
Proof. reflexivity. Qed.

(** ** "copy128" *)

Lemma copy128_body_run (pre a b c post : list Z) :
  length a = 8%nat -> length b = 8%nat -> length c = 8%nat ->
  Memthrash.copy128_body (Z.of_nat (length pre)) (pre ++ a ++ b ++ c ++ post) =
    Some (tt, pre ++ b ++ c ++ c ++ post).
Proof.
  intros Ha Hb Hc. explicit_cells a 8. explicit_cells b 8. explicit_cells c 8.
  unfold Memthrash.copy128_body, Memthrash.copy128_block.
  run_accesses. reflexivity.
Qed.

Lemma copy128_body_fault (pre a b : list Z) :
  length a = 8%nat -> length b = 8%nat ->
  Memthrash.copy128_body (Z.of_nat (length pre)) (pre ++ a ++ b) = None.
Proof.
  intros Ha Hb. explicit_cells a 8. explicit_cells b 8.
  unfold Memthrash.copy128_body, Memthrash.copy128_block.
  run_accesses. reflexivity.
Qed.

Lemma three_chunks (rest : list Z) :
  (24 <= length rest)%nat ->
  rest = take 8 rest ++ take 8 (drop 8 rest) ++ take 8 (drop 16 rest) ++ drop 24 rest /\
  take 8 (drop 8 rest) ++ take 8 (drop 16 rest) ++ take 8 (drop 16 rest) ++ drop 24 rest =
    take 16 (drop 8 rest) ++ drop 16 rest.
Proof.
  intros Hlen.
  assert (H16 : drop 16 rest = take 8 (drop 16 rest) ++ drop 24 rest).
  { rewrite <- (take_drop 8 (drop 16 rest)) at 1. rewrite drop_drop. reflexivity. }
  assert (H8 : drop 8 rest = take 8 (drop 8 rest) ++ drop 16 rest).
  { rewrite <- (take_drop 8 (drop 8 rest)) at 1. rewrite drop_drop. reflexivity. }
  split.
  - rewrite <- H16, <- H8. symmetry. apply take_drop.
  - pose proof (take_take_drop (drop 8 rest) 8 8) as H. rewrite drop_drop in H.
    change (8 + 8)%nat with 16%nat in H.
    rewrite <- H16, <- H, <- app_assoc. reflexivity.
Qed.

Lemma copy128_loop (n : nat) :
  forall (fuel : nat) (pre rest : list Z),
    (16 * n + 8 <= length rest)%nat -> (n < fuel)%nat ->
    Memthrash.ptr_loop fuel 16 16 Memthrash.copy128_body (Z.of_nat (length pre))
      (16 * (Z.of_nat (length pre) + 16 * Z.of_nat n) - 128) (pre ++ rest) =
      Some (tt, pre ++ take (16 * n) (drop 8 rest) ++ drop (16 * n) rest).
Proof.
  induction n as [| n IH]; intros fuel pre rest Hlen Hfuel.
  - destruct fuel as [| fuel]; [lia |]. cbn [Memthrash.ptr_loop].
    destruct (Z.ltb_spec (16 * Z.of_nat (length pre))
                (16 * (Z.of_nat (length pre) + 16 * Z.of_nat 0) - 128)); [lia |].
    reflexivity.
  - destruct fuel as [| fuel]; [lia |]. cbn [Memthrash.ptr_loop].
    destruct (Z.ltb_spec (16 * Z.of_nat (length pre))
                (16 * (Z.of_nat (length pre) + 16 * Z.of_nat (S n)) - 128)); [| lia].
    destruct (three_chunks rest ltac:(lia)) as (Hrest & Hnew).
    unfold mbind at 1. unfold mem_op_bind.
    rewrite Hrest at 1.
    rewrite copy128_body_run by (rewrite length_take, ?length_drop; lia).
    rewrite Hnew.
    rewrite (app_assoc pre).
    replace (Z.of_nat (length pre) + 16)
      with (Z.of_nat (length (pre ++ take 16 (drop 8 rest))))
      by (rewrite length_app, length_take, length_drop; lia).
    replace (16 * (Z.of_nat (length pre) + 16 * Z.of_nat (S n)) - 128)
      with (16 * (Z.of_nat (length (pre ++ take 16 (drop 8 rest))) + 16 * Z.of_nat n) - 128)
      by (rewrite length_app, length_take, length_drop; lia).
    rewrite IH by (rewrite ?length_drop; lia).
    rewrite <- !app_assoc, !drop_drop.
    replace (16 * S n)%nat with (16 + 16 * n)%nat by lia.
    rewrite <- (take_take_drop (drop 8 rest) 16 (16 * n)), drop_drop.
    replace (8 + 16)%nat with (16 + 8)%nat by lia.
    rewrite <- app_assoc. reflexivity.
Qed.

Lemma copy128_loop_fault (n : nat) :
  forall (fuel : nat) (pre rest : list Z),
    (1 <= n)%nat -> length rest = (16 * n)%nat -> (n < fuel)%nat ->
    Memthrash.ptr_loop fuel 16 16 Memthrash.copy128_body (Z.of_nat (length pre))
      (16 * (Z.of_nat (length pre) + 16 * Z.of_nat n) - 128) (pre ++ rest) = None.
Proof.
  induction n as [| n IH]; intros fuel pre rest Hn Hlen Hfuel; [lia |].
  destruct fuel as [| fuel]; [lia |]. cbn [Memthrash.ptr_loop].
  destruct (Z.ltb_spec (16 * Z.of_nat (length pre))
              (16 * (Z.of_nat (length pre) + 16 * Z.of_nat (S n)) - 128)); [| lia].
  unfold mbind at 1. unfold mem_op_bind.
  destruct n as [| n].
  - rewrite <- (take_drop 8 rest).
    rewrite copy128_body_fault by (rewrite ?length_take, ?length_drop; lia).
    reflexivity.
  - destruct (three_chunks rest ltac:(lia)) as (Hrest & Hnew).
    rewrite Hrest at 1.
    rewrite copy128_body_run by (rewrite length_take, ?length_drop; lia).
    rewrite Hnew.
    rewrite (app_assoc pre).
    replace (Z.of_nat (length pre) + 16)
      with (Z.of_nat (length (pre ++ take 16 (drop 8 rest))))
      by (rewrite length_app, length_take, length_drop; lia).
    replace (16 * (Z.of_nat (length pre) + 16 * Z.of_nat (S (S n))) - 128)
      with (16 * (Z.of_nat (length (pre ++ take 16 (drop 8 rest)))
                  + 16 * Z.of_nat (S n)) - 128)
      by (rewrite length_app, length_take, length_drop; lia).
    apply IH; [lia | rewrite length_drop; lia | lia].
Qed.

(** X12. On a region of [mem_size = 256 * n] bytes ([n >= 1]; every
    size the worker passes is one), "copy128" gives each 128-bit word of
    the region the value of the word eight places (128 bytes) further
    on, and for the last eight words it reads the 128 bytes that follow
    the region.  On an array that ends where the region ends, as the
    arena does for [mem_size = MEM_SIZE], that read is outside the
    array. *)
Theorem X12_copy128_reads_past_the_region (mem_size : Z) (n : nat)
  (region after : list Z) :
  (1 <= n)%nat ->
  mem_size = 256 * Z.of_nat n ->
  length region = (16 * n)%nat ->
  (8 <= length after)%nat ->
  Memthrash.stress_memthrash_copy128 mem_size (region ++ after) =
    Some (tt, (drop 8 region ++ take 8 after) ++ after) /\
  Memthrash.stress_memthrash_copy128 mem_size region = None.
Proof.
  intros Hn Hsize Hregion Hafter. unfold Memthrash.stress_memthrash_copy128.
  replace (mem_size - 128) with (16 * (Z.of_nat (length (@nil Z)) + 16 * Z.of_nat n) - 128)
    by (cbn [length]; lia).
  change 0 with (Z.of_nat (length (@nil Z))) at 1.
  split.
  - pose proof (copy128_loop n (S (Z.to_nat mem_size)) [] (region ++ after)) as Hrun.
    cbn [app] in Hrun. rewrite Hrun by (rewrite ?length_app; lia).
    f_equal. f_equal.
    rewrite (drop_app_length' region after (16 * n)) by (symmetry; exact Hregion).
    f_equal.
    rewrite drop_app_le by lia.
    rewrite take_app_ge by (rewrite length_drop; lia).
    rewrite length_drop. f_equal. f_equal. lia.
  - apply (copy128_loop_fault n (S (Z.to_nat mem_size)) [] region); lia.
Qed.

Lemma X12_copy128_reads_past_the_region_witness :
  (1 <= 1)%nat /\ 256 = 256 * Z.of_nat 1 /\
  length (seqZ 0 16) = (16 * 1)%nat /\ (8 <= length (seqZ 100 9))%nat /\
  Memthrash.stress_memthrash_copy128 256 (seqZ 0 16 ++ seqZ 100 9) =
    Some (tt, (drop 8 (seqZ 0 16) ++ take 8 (seqZ 100 9)) ++ seqZ 100 9) /\
  Memthrash.stress_memthrash_copy128 256 (seqZ 0 16) = None.
Proof.
  assert (H1 : (1 <= 1)%nat) by lia.
  assert (H2 : 256 = 256 * Z.of_nat 1) by reflexivity.
  assert (H3 : length (seqZ 0 16) = (16 * 1)%nat) by (rewrite length_seqZ; reflexivity).
  assert (H4 : (8 <= length (seqZ 100 9))%nat) by (rewrite length_seqZ; lia).
  split; [exact H1 |]. split; [exact H2 |]. split; [exact H3 |]. split; [exact H4 |].
  exact (X12_copy128_reads_past_the_region 256 1 (seqZ 0 16) (seqZ 100 9) H1 H2 H3 H4).
Defined.

Example copy128_with_room :
  Memthrash.stress_memthrash_copy128 256 (seqZ 0 24) =
    Some (tt, seqZ 8 16 ++ seqZ 16 8).
Proof. reflexivity. Qed.

Example copy128_without_room :
  Memthrash.stress_memthrash_copy128 256 (seqZ 0 16) = None.
Proof. reflexivity. Qed.

Example arena_is_a_worker_size :
  Memthrash.MEM_SIZE = 4 ^ 14 /\ Memthrash.MEM_SIZE = 256 * 2 ^ 20.
Proof. split; reflexivity. Qed.

(** ** "swapfwdrev" *)

Lemma swap_cells_length (i j : nat) (m : list Z) :
  length (swap_cells i j m) = length m.
Proof.
  unfold swap_cells. destruct (m !! i), (m !! j); rewrite ?length_insert; reflexivity.
Qed.

Lemma swap_cells_comm (i j : nat) (m : list Z) :
  swap_cells i j m = swap_cells j i m.
Proof.
  unfold swap_cells.
  destruct (m !! i) as [x |] eqn:Hi; destruct (m !! j) as [y |] eqn:Hj; try reflexivity.
  destruct (decide (i = j)) as [-> | Hne].
  - rewrite Hi in Hj. inversion Hj. reflexivity.
  - apply list_insert_insert_ne. congruence.
Qed.

Lemma swap_cells_twice (i j : nat) (m : list Z) :
  swap_cells i j (swap_cells i j m) = m.
Proof.
  destruct (m !! i) as [x |] eqn:Hi; destruct (m !! j) as [y |] eqn:Hj;
    try (unfold swap_cells; rewrite ?Hi, ?Hj; cbn; rewrite ?Hi, ?Hj; reflexivity).
  pose proof (lookup_lt_Some _ _ _ Hi) as Hli.
  pose proof (lookup_lt_Some _ _ _ Hj) as Hlj.
  assert (Hm1 : swap_cells i j m = <[j := x]> (<[i := y]> m)).
  { unfold swap_cells. rewrite Hi, Hj. reflexivity. }
  rewrite Hm1. unfold swap_cells.
  rewrite (list_lookup_insert_eq (<[i := y]> m) j x) by (rewrite length_insert; exact Hlj).
  destruct (decide (i = j)) as [-> | Hne].
  - rewrite Hi in Hj. inversion Hj; subst y.
    rewrite !list_insert_insert_eq. rewrite list_lookup_insert_eq by exact Hli.
    rewrite list_insert_insert_eq. apply list_insert_id. exact Hi.
  - rewrite (list_lookup_insert_ne _ j i) by congruence.
    rewrite list_lookup_insert_eq by exact Hli.
    apply list_eq. intros k.
    destruct (decide (k = j)) as [-> | Hkj].
    + rewrite list_lookup_insert_eq
        by (rewrite !length_insert; exact Hlj).
      symmetry. exact Hj.
    + rewrite (list_lookup_insert_ne _ j k) by congruence.
      destruct (decide (k = i)) as [-> | Hki].
      * rewrite list_lookup_insert_eq by (rewrite !length_insert; exact Hli).
        symmetry. exact Hi.
      * rewrite !list_lookup_insert_ne by congruence. reflexivity.
Qed.

Lemma swap_pass_length (c : nat) :
  forall (a b1 : nat) (m : list Z), length (swap_pass c a b1 m) = length m.
Proof.
  induction c as [| c IH]; intros a b1 m; cbn [swap_pass]; [reflexivity |].
  rewrite IH. apply swap_cells_length.
Qed.

Lemma swap_pass_last (c : nat) :
  forall (a b1 : nat) (m : list Z),
    swap_pass (S c) a b1 m = swap_cells (a + c) (pred (b1 - c)) (swap_pass c a b1 m).
Proof.
  induction c as [| c IH]; intros a b1 m.
  - cbn [swap_pass]. rewrite Nat.add_0_r, Nat.sub_0_r. reflexivity.
  - change (swap_pass (S (S c)) a b1 m)
      with (swap_pass (S c) (S a) (pred b1) (swap_cells a (pred b1) m)).
    rewrite IH. cbn [swap_pass].
    replace (S a + c)%nat with (a + S c)%nat by lia.
    replace (pred b1 - c)%nat with (b1 - S c)%nat by lia.
    reflexivity.
Qed.

(** Meeting in the middle and going on to the far ends, the exchanges
    undo themselves. *)
Lemma swap_pass_whole (c : nat) :
  forall (a : nat) (m : list Z), swap_pass c a (a + c) m = m.
Proof.
  assert (Hpair : forall c' : nat,
             (forall a m, swap_pass c' a (a + c') m = m) /\
             (forall a m, swap_pass (S c') a (a + S c') m = m)).
  { induction c' as [| c' [IH0 IH1]].
    - split; intros a m; cbn [swap_pass]; [reflexivity |].
      replace (pred (a + 1)) with a by lia.
      destruct (m !! a) as [x |] eqn:Ha; unfold swap_cells; rewrite Ha; [| reflexivity].
      rewrite list_insert_insert_eq. apply list_insert_id. exact Ha.
    - split; [exact IH1 |]. intros a m.
      rewrite swap_pass_last. cbn [swap_pass].
      replace (pred (a + S (S c'))) with (S a + c')%nat by lia.
      rewrite IH0.
      replace (pred (a + S (S c') - S c')) with a by lia.
      replace (S a + c')%nat with (a + S c')%nat by lia.
      rewrite (swap_cells_comm (a + S c') a). apply swap_cells_twice. }
  intros a m. apply (Hpair c).
Qed.

Lemma swap_cells_stored (a b : nat) (x y : Z) (m : list Z) :
  m !! a = Some x -> m !! b = Some y ->
  <[b := x]> (<[a := y]> m) = swap_cells a b m.
Proof. intros Ha Hb. unfold swap_cells. rewrite Ha, Hb. reflexivity. Qed.

Lemma swapfwdrev_first_run (c : nat) :
  forall (fuel a b1 : nat) (m : list Z),
    (c < fuel)%nat -> (c <= b1 <= length m)%nat -> (a + c <= length m)%nat ->
    Memthrash.swapfwdrev_first fuel (Z.of_nat a) (Z.of_nat b1 - 1)
      (8 * Z.of_nat (a + c)) m = Some (tt, swap_pass c a b1 m).
Proof.
  induction c as [| c IH]; intros fuel a b1 m Hfuel Hb Ha;
    (destruct fuel as [| fuel]; [lia |]); cbn [Memthrash.swapfwdrev_first swap_pass].
  - destruct (Z.ltb_spec (8 * Z.of_nat a) (8 * Z.of_nat (a + 0))); [lia | reflexivity].
  - destruct (Z.ltb_spec (8 * Z.of_nat a) (8 * Z.of_nat (a + S c))); [| lia].
    destruct (lookup_lt_is_Some_2 m a ltac:(lia)) as [x Hx].
    destruct (lookup_lt_is_Some_2 m (pred b1) ltac:(lia)) as [y Hy].
    unfold mbind, mem_op_bind, load, store.
    destruct (Z.leb_spec 0 (Z.of_nat a)); [| lia].
    destruct (Z.leb_spec 0 (Z.of_nat b1 - 1)); [| lia].
    rewrite Nat2Z.id.
    replace (Z.to_nat (Z.of_nat b1 - 1)) with (pred b1) by lia.
    rewrite Hx, Hy.
    destruct (Z.ltb_spec (Z.of_nat a) (Z.of_nat (length m))); [| lia].
    cbn [andb]. rewrite length_insert.
    destruct (Z.ltb_spec (Z.of_nat b1 - 1) (Z.of_nat (length m))); [| lia].
    rewrite (swap_cells_stored a (pred b1) x y m Hx Hy).
    replace (Z.of_nat a + 1) with (Z.of_nat (S a)) by lia.
    replace (Z.of_nat b1 - 1 - 1) with (Z.of_nat (pred b1) - 1) by lia.
    replace (8 * Z.of_nat (a + S c)) with (8 * Z.of_nat (S a + c)) by lia.
    apply IH; rewrite ?swap_cells_length; lia.
Qed.

Lemma swapfwdrev_second_run (c : nat) :
  forall (fuel a b1 : nat) (m : list Z),
    (c < fuel)%nat -> (c <= b1 <= length m)%nat -> (a + c <= length m)%nat ->
    Memthrash.swapfwdrev_second fuel (Z.of_nat a) (Z.of_nat b1 - 1)
      (8 * Z.of_nat (a + c)) m = Some (tt, swap_pass c a b1 m).
Proof.
  induction c as [| c IH]; intros fuel a b1 m Hfuel Hb Ha;
    (destruct fuel as [| fuel]; [lia |]); cbn [Memthrash.swapfwdrev_second swap_pass].
  - destruct (Z.ltb_spec (8 * Z.of_nat a) (8 * Z.of_nat (a + 0))); [lia | reflexivity].
  - destruct (Z.ltb_spec (8 * Z.of_nat a) (8 * Z.of_nat (a + S c))); [| lia].
    destruct (lookup_lt_is_Some_2 m a ltac:(lia)) as [x Hx].
    destruct (lookup_lt_is_Some_2 m (pred b1) ltac:(lia)) as [y Hy].
    unfold mbind, mem_op_bind, load, store.
    destruct (Z.leb_spec 0 (Z.of_nat a)); [| lia].
    destruct (Z.leb_spec 0 (Z.of_nat b1 - 1)); [| lia].
    rewrite Nat2Z.id.
    replace (Z.to_nat (Z.of_nat b1 - 1)) with (pred b1) by lia.
    rewrite Hy, Hx.
    destruct (Z.ltb_spec (Z.of_nat b1 - 1) (Z.of_nat (length m))); [| lia].
    cbn [andb]. rewrite length_insert.
    destruct (Z.ltb_spec (Z.of_nat a) (Z.of_nat (length m))); [| lia].
    rewrite (swap_cells_stored (pred b1) a y x m Hy Hx), swap_cells_comm.
    replace (Z.of_nat a + 1) with (Z.of_nat (S a)) by lia.
    replace (Z.of_nat b1 - 1 - 1) with (Z.of_nat (pred b1) - 1) by lia.
    replace (8 * Z.of_nat (a + S c)) with (8 * Z.of_nat (S a + c)) by lia.
    apply IH; rewrite ?swap_cells_length; lia.
Qed.

(** X13. "swapfwdrev" on a region of [n] 64-bit words inside the
    array: each of its two loops lets [fwd] run over the whole region,
    so each exchanges every pair of mirrored words twice and alone
    leaves the array as it found it; the method reads and writes only
    words of the region and changes none. *)
Theorem X13_swapfwdrev_changes_nothing (mem_size : Z) (n : nat) (mem : list Z) :
  mem_size = 8 * Z.of_nat n ->
  (n <= length mem)%nat ->
  Memthrash.swapfwdrev_first (S (Z.to_nat mem_size)) 0 (mem_size / 8 - 1) mem_size mem =
    Some (tt, mem) /\
  Memthrash.swapfwdrev_second (S (Z.to_nat mem_size)) 0 (mem_size / 8 - 1) mem_size mem =
    Some (tt, mem) /\
  Memthrash.stress_memthrash_swapfwdrev mem_size mem = Some (tt, mem).
Proof.
  intros Hsize Hlen.
  assert (Hdiv : mem_size / 8 = Z.of_nat n).
  { rewrite Hsize, Z.mul_comm. apply Z.div_mul. lia. }
  assert (H1 : Memthrash.swapfwdrev_first (S (Z.to_nat mem_size)) 0 (mem_size / 8 - 1)
                 mem_size mem = Some (tt, mem)).
  { rewrite Hdiv. rewrite Hsize at 2.
    rewrite <- (swap_pass_whole n 0 mem) at 2.
    apply (swapfwdrev_first_run n (S (Z.to_nat mem_size)) 0 n mem); lia. }
  assert (H2 : Memthrash.swapfwdrev_second (S (Z.to_nat mem_size)) 0 (mem_size / 8 - 1)
                 mem_size mem = Some (tt, mem)).
  { rewrite Hdiv. rewrite Hsize at 2.
    rewrite <- (swap_pass_whole n 0 mem) at 2.
    apply (swapfwdrev_second_run n (S (Z.to_nat mem_size)) 0 n mem); lia. }
  split; [exact H1 |]. split; [exact H2 |].
  unfold Memthrash.stress_memthrash_swapfwdrev.
  cbv zeta. unfold mbind, mem_op_bind. rewrite H1. exact H2.
Qed.

Lemma X13_swapfwdrev_changes_nothing_witness :
  Memthrash.swapfwdrev_first (S (Z.to_nat 40)) 0 (40 / 8 - 1) 40 (seqZ 0 7) =
    Some (tt, seqZ 0 7) /\
  Memthrash.swapfwdrev_second (S (Z.to_nat 40)) 0 (40 / 8 - 1) 40 (seqZ 0 7) =
    Some (tt, seqZ 0 7) /\
  Memthrash.stress_memthrash_swapfwdrev 40 (seqZ 0 7) = Some (tt, seqZ 0 7).
Proof.
  apply (X13_swapfwdrev_changes_nothing 40 5 (seqZ 0 7)).
  - reflexivity.
  - rewrite length_seqZ. lia.
Defined.

Example swapfwdrev_half_way :
  Memthrash.swapfwdrev_first 3 0 3 16 [1; 2; 3; 4]%Z = Some (tt, [4; 3; 2; 1]%Z).
Proof. reflexivity. Qed.

(** ** The threads of the worker-pool child *)

Lemma attempts_length (n : nat) :
  forall answers, (length (attempts n answers) <= n)%nat.
Proof.
  induction n as [| n IH]; intros [| a rest]; cbn [attempts length]; try lia.
  destruct ((Memthrash.pthread_create_ret a =? 0) &&
            Memthrash.keep_stressing_flag_after a
            || (Memthrash.pthread_create_ret a =? Memthrash.EAGAIN));
    cbn [length]; [specialize (IH rest) |]; lia.
Qed.

(** The creation loop leaves the value of each [pthread_create] it
    called in the slot's [ret] and the other slots as they were. *)
Lemma create_threads_run (n : nat) :
  forall (i : nat) (answers : list Memthrash.create_answer) (info : list Z),
    (n <= length answers)%nat -> (i + n <= length info)%nat ->
    exists events,
      Memthrash.create_threads n i answers info =
        Some (take i info
                ++ (Memthrash.pthread_create_ret <$> attempts n answers)
                ++ drop (i + length (attempts n answers)) info,
              events) /\
      created_slots events = seq i (length (attempts n answers)) /\
      joined_slots events = [].
Proof.
  induction n as [| n IH]; intros i answers info Hans Hinfo.
  - exists [Memthrash.P_pause]. cbn [Memthrash.create_threads attempts fmap list_fmap length].
    rewrite Nat.add_0_r. cbn [app]. rewrite take_drop. repeat split.
  - destruct answers as [| a rest]; [cbn [length] in Hans; lia |].
    cbn [length] in Hans.
    set (r := Memthrash.pthread_create_ret a).
    assert (Hstop : <[i := r]> info = take i info ++ [r] ++ drop (i + 1) info).
    { rewrite insert_take_drop by lia. replace (i + 1)%nat with (S i) by lia. reflexivity. }
    assert (Hcont :
      exists events,
        match Memthrash.create_threads n (S i) rest (<[i := r]> info) with
        | Some (info', events) => Some (info', Memthrash.P_create i :: events)
        | None => None
        end =
          Some (take i info
                  ++ (r :: (Memthrash.pthread_create_ret <$> attempts n rest))
                  ++ drop (i + S (length (attempts n rest))) info,
                events) /\
        created_slots events = seq i (S (length (attempts n rest))) /\
        joined_slots events = []).
    { destruct (IH (S i) rest (<[i := r]> info)) as (events & Hrun & Hcreated & Hjoined);
        [lia | rewrite length_insert; lia |].
      exists (Memthrash.P_create i :: events). rewrite Hrun.
      split; [| split; [change (created_slots (Memthrash.P_create i :: events))
                          with (i :: created_slots events);
                        rewrite Hcreated; reflexivity
                      | exact Hjoined]].
      f_equal. f_equal.
      rewrite (take_S_r _ i r) by (apply list_lookup_insert_eq; lia).
      rewrite take_insert_ge by lia.
      rewrite drop_insert_lt by lia.
      replace (S i + length (attempts n rest))%nat
        with (i + S (length (attempts n rest)))%nat by lia.
      rewrite <- !app_assoc. reflexivity. }
    cbn [Memthrash.create_threads attempts]. fold r.
    destruct (r =? 0) eqn:Hr0; [destruct (Memthrash.keep_stressing_flag_after a) |
                                destruct (r =? Memthrash.EAGAIN) eqn:Hagain];
      cbn [andb orb fmap list_fmap length].
    + exact Hcont.
    + assert (Hagain : (r =? Memthrash.EAGAIN) = false)
        by (apply Z.eqb_eq in Hr0; rewrite Hr0; reflexivity).
      rewrite Hagain. exists [Memthrash.P_create i]. rewrite Hstop. repeat split.
    + exact Hcont.
    + exists [Memthrash.P_create i; Memthrash.P_create_failed r]. rewrite Hstop.
      repeat split.
Qed.

(** The reaping loop joins the slots whose [ret] it finds 0, and
    creates nothing. *)
Lemma reap_threads_joins (n : nat) :
  forall (i : nat) (join_ret : nat -> Z) (info : list Z),
    (i + n <= length info)%nat ->
    joined_slots (snd (Memthrash.reap_threads n i join_ret info)) =
      List.filter (fun j => match info !! j with Some ret => ret =? 0 | None => false end)
        (seq i n) /\
    created_slots (snd (Memthrash.reap_threads n i join_ret info)) = [].
Proof.
  induction n as [| n IH]; intros i join_ret info Hinfo; [split; reflexivity |].
  cbn [Memthrash.reap_threads seq List.filter].
  destruct (lookup_lt_is_Some_2 info i ltac:(lia)) as [ret Hret]. rewrite Hret.
  destruct (ret =? 0).
  - destruct (IH (S i) join_ret (<[i := join_ret i]> info)) as [Hjoined Hcreated];
      [rewrite length_insert; lia |].
    destruct (Memthrash.reap_threads n (S i) join_ret (<[i := join_ret i]> info))
      as [info' events].
    cbn [snd] in *.
    destruct (negb (join_ret i =? 0) && negb (join_ret i =? Memthrash.ESRCH));
      cbn [app]; (split; [| exact Hcreated]);
      match goal with
      | |- joined_slots ?l = _ => change (joined_slots l) with (i :: joined_slots events)
      end;
      rewrite Hjoined; f_equal; apply filter_ext_in; intros j Hj;
      apply in_seq in Hj; rewrite list_lookup_insert_ne by lia; reflexivity.
  - apply IH. lia.
Qed.

(** X14. Once the arena is mapped, the worker-pool child calls
    [pthread_create] on slot after slot until one call fails with
    something other than [EAGAIN], stressing is no longer wanted, or all
    [max_threads] slots are done, and it returns [EXIT_SUCCESS] whatever
    the calls returned.  The reaping loop calls [pthread_join] on every
    slot whose [ret] is 0: those hold the threads that were created, but
    also the slots the creation loop never reached, which [calloc] left
    at 0.  A slot whose creation failed is never joined. *)
Theorem X14_reap_joins_untouched_slots (max_threads : nat)
  (answers : list Memthrash.create_answer) (join_ret : nat -> Z) :
  (max_threads <= length answers)%nat ->
  let tried := attempts max_threads answers in
  exists info events,
    Memthrash.stress_memthrash_child_threads max_threads answers join_ret =
      Some (EXIT_SUCCESS, info, events) /\
    created_slots events = seq 0 (length tried) /\
    (length tried <= max_threads)%nat /\
    joined_slots events = List.filter (thread_or_untouched tried) (seq 0 max_threads).
Proof.
  intros Hans tried.
  destruct (create_threads_run max_threads 0 answers (replicate max_threads 0))
    as (created & Hrun & Hcreated & Hnojoin); [lia | rewrite length_replicate; lia |].
  fold tried in Hrun, Hcreated.
  pose proof (attempts_length max_threads answers) as Hlen. fold tried in Hlen.
  rewrite take_0 in Hrun. cbn [app Nat.add] in Hrun. rewrite drop_replicate in Hrun.
  set (info1 := (Memthrash.pthread_create_ret <$> tried)
                  ++ replicate (max_threads - length tried) 0) in Hrun.
  assert (Hinfo1 : length info1 = max_threads).
  { unfold info1. rewrite length_app, length_fmap, length_replicate. lia. }
  destruct (reap_threads_joins max_threads 0 join_ret info1 ltac:(lia))
    as [Hjoined Hnocreate].
  unfold Memthrash.stress_memthrash_child_threads. rewrite Hrun.
  destruct (Memthrash.reap_threads max_threads 0 join_ret info1) as [info2 reaped].
  cbn [snd] in *.
  exists info2, (created ++ [Memthrash.P_terminate] ++ reaped
                   ++ [Memthrash.P_munmap; Memthrash.P_free]).
  split; [reflexivity |]. split; [| split; [exact Hlen |]].
  - unfold created_slots in *. rewrite !omap_app, Hcreated, Hnocreate.
    cbn [omap app]. apply app_nil_r.
  - unfold joined_slots in *. rewrite !omap_app, Hnojoin, Hjoined.
    cbn [omap app]. rewrite app_nil_r.
    apply filter_ext_in. intros j Hj. apply in_seq in Hj.
    unfold thread_or_untouched, info1.
    destruct (Nat.lt_ge_cases j (length tried)) as [Hlt | Hge].
    + rewrite lookup_app_l by (rewrite length_fmap; exact Hlt).
      rewrite list_lookup_fmap.
      destruct (lookup_lt_is_Some_2 tried j Hlt) as [a Ha]. rewrite Ha. reflexivity.
    + rewrite lookup_app_r by (rewrite length_fmap; exact Hge).
      rewrite lookup_replicate_2 by (rewrite length_fmap; lia).
      rewrite (lookup_ge_None_2 tried j Hge). reflexivity.
Qed.

Lemma X14_reap_joins_untouched_slots_witness :
  let answers :=
    [ {| Memthrash.pthread_create_ret := 0; Memthrash.keep_stressing_flag_after := true |};
      {| Memthrash.pthread_create_ret := 12; Memthrash.keep_stressing_flag_after := true |};
      {| Memthrash.pthread_create_ret := 0; Memthrash.keep_stressing_flag_after := true |};
      {| Memthrash.pthread_create_ret := 0; Memthrash.keep_stressing_flag_after := true |} ] in
  (4 <= length answers)%nat /\
  exists info events,
    Memthrash.stress_memthrash_child_threads 4 answers (fun _ => 0) =
      Some (EXIT_SUCCESS, info, events) /\
    created_slots events = seq 0 (length (attempts 4 answers)) /\
    (length (attempts 4 answers) <= 4)%nat /\
    joined_slots events = List.filter (thread_or_untouched (attempts 4 answers)) (seq 0 4).
Proof.
  intros answers. split; [cbn; lia |].
  apply (X14_reap_joins_untouched_slots 4 answers (fun _ => 0)). cbn. lia.
Defined.

(** The second [pthread_create] fails for lack of memory: the two slots
    after it are joined although nothing was created in them. *)
Example pool_joins_slots_never_created :
  Memthrash.stress_memthrash_child_threads 4
    [ {| Memthrash.pthread_create_ret := 0; Memthrash.keep_stressing_flag_after := true |};
      {| Memthrash.pthread_create_ret := 12; Memthrash.keep_stressing_flag_after := true |};
      {| Memthrash.pthread_create_ret := 0; Memthrash.keep_stressing_flag_after := true |};
      {| Memthrash.pthread_create_ret := 0; Memthrash.keep_stressing_flag_after := true |} ]
    (fun slot => if (slot =? 2)%nat then 3 else if (slot =? 3)%nat then 22 else 0) =
    Some (EXIT_SUCCESS, [0; 12; 3; 22],
          [Memthrash.P_create 0; Memthrash.P_create 1; Memthrash.P_create_failed 12;
           Memthrash.P_terminate;
           Memthrash.P_join 0; Memthrash.P_join 2; Memthrash.P_join 3;
           Memthrash.P_join_failed 22;
           Memthrash.P_munmap; Memthrash.P_free]).
Proof. reflexivity. Qed.

Example pool_skips_EAGAIN_slots :
  Memthrash.stress_memthrash_child_threads 3
    [ {| Memthrash.pthread_create_ret := 11; Memthrash.keep_stressing_flag_after := false |};
      {| Memthrash.pthread_create_ret := 0; Memthrash.keep_stressing_flag_after := true |};
      {| Memthrash.pthread_create_ret := 0; Memthrash.keep_stressing_flag_after := true |} ]
    (fun _ => 0) =
    Some (EXIT_SUCCESS, [11; 0; 0],
          [Memthrash.P_create 0; Memthrash.P_create 1; Memthrash.P_create 2;
           Memthrash.P_pause; Memthrash.P_terminate;
           Memthrash.P_join 1; Memthrash.P_join 2;
           Memthrash.P_munmap; Memthrash.P_free]).
Proof. reflexivity. Qed.

(** ** "swap" *)

Lemma swap_cells_Permutation (i j : nat) (m : list Z) : swap_cells i j m ≡ₚ m.
Proof.
  unfold swap_cells.
  destruct (m !! i) as [x |] eqn:Hi; destruct (m !! j) as [y |] eqn:Hj; try reflexivity.
  apply Permutation_insert_swap; assumption.
Qed.

Lemma swap_cells_drop (i j n : nat) (m : list Z) :
  (i < n)%nat -> (j < n)%nat -> drop n (swap_cells i j m) = drop n m.
Proof.
  intros Hi Hj. unfold swap_cells.
  destruct (m !! i), (m !! j); try reflexivity.
  rewrite !drop_insert_lt by lia. reflexivity.
Qed.

(** The three statements that exchange two cells of the array. *)
Lemma exchange_run (i j : Z) (k : mem_op unit) (m : list Z) :
  0 <= i < Z.of_nat (length m) -> 0 <= j < Z.of_nat (length m) ->
  (tmp ← load i; v ← load j; store i v;; store j tmp;; k) m =
    k (swap_cells (Z.to_nat i) (Z.to_nat j) m).
Proof.
  intros Hi Hj.
  destruct (lookup_lt_is_Some_2 m (Z.to_nat i) ltac:(lia)) as [x Hx].
  destruct (lookup_lt_is_Some_2 m (Z.to_nat j) ltac:(lia)) as [y Hy].
  unfold mbind, mem_op_bind, load, store.
  destruct (Z.leb_spec 0 i); [| lia]. destruct (Z.leb_spec 0 j); [| lia].
  rewrite Hx, Hy.
  destruct (Z.ltb_spec i (Z.of_nat (length m))); [| lia].
  cbn [andb]. rewrite length_insert.
  destruct (Z.ltb_spec j (Z.of_nat (length m))); [| lia].
  rewrite (swap_cells_stored _ _ x y m Hx Hy). reflexivity.
Qed.

Lemma swap_loop_run (mem_size : Z) (n : nat) :
  129 <= mem_size <= 2 ^ 63 ->
  forall (go : list bool) (offset1 offset2 : Z) (mem : list Z),
    mem_size <= Z.of_nat (length mem) ->
    0 <= offset1 < mem_size -> 0 <= offset2 < mem_size ->
    exists mem',
      Memthrash.swap_loop n go offset1 offset2 mem_size mem = Some (tt, mem') /\
      mem' ≡ₚ mem /\
      drop (Z.to_nat mem_size) mem' = drop (Z.to_nat mem_size) mem.
Proof.
  intros Hsize.
  induction n as [| n IH]; intros go offset1 offset2 mem Hlen H1 H2.
  - exists mem. destruct go as [| [|] go]; (split; [reflexivity | split; reflexivity]).
  - destruct go as [| [|] go];
      try (exists mem; split; [reflexivity | split; reflexivity]).
    cbn [Memthrash.swap_loop]. rewrite exchange_run by lia.
    cbv zeta.
    rewrite (u64_small (offset1 + 129)), (u64_small (offset2 + 65)) by lia.
    set (mem1 := swap_cells (Z.to_nat offset1) (Z.to_nat offset2) mem).
    assert (Hlen1 : mem_size <= Z.of_nat (length mem1))
      by (unfold mem1; rewrite swap_cells_length; exact Hlen).
    assert (Hperm1 : mem1 ≡ₚ mem) by apply swap_cells_Permutation.
    assert (Hdrop1 : drop (Z.to_nat mem_size) mem1 = drop (Z.to_nat mem_size) mem)
      by (apply swap_cells_drop; lia).
    assert (Hnext :
      forall o1 o2, 0 <= o1 < mem_size -> 0 <= o2 < mem_size ->
        exists mem',
          Memthrash.swap_loop n go o1 o2 mem_size mem1 = Some (tt, mem') /\
          mem' ≡ₚ mem /\
          drop (Z.to_nat mem_size) mem' = drop (Z.to_nat mem_size) mem).
    { intros o1 o2 Ho1 Ho2.
      destruct (IH go o1 o2 mem1 Hlen1 Ho1 Ho2) as (mem' & Hrun & Hperm & Hdrop).
      exists mem'. split; [exact Hrun |]. split; [| congruence].
      etransitivity; eassumption. }
    destruct (Z.geb_spec (offset1 + 129) mem_size);
      destruct (Z.geb_spec (offset2 + 65) mem_size);
      rewrite ?u64_small by lia; apply Hnext; lia.
Qed.

(** X15. "swap" on a region of at least 129 bytes inside the array:
    both offsets start inside the region, and stepping them by 129 and
    by 65 with one subtraction of [mem_size] keeps them there.  So the
    method never touches a byte outside the region, and what it leaves
    is a rearrangement of the bytes it found. *)
Theorem X15_swap_rearranges_the_region (mwc32_1 mwc32_2 : Z) (go : list bool)
  (mem_size : Z) (mem : list Z) :
  129 <= mem_size <= 2 ^ 63 ->
  mem_size <= Z.of_nat (length mem) ->
  exists mem',
    Memthrash.stress_memthrash_swap mwc32_1 mwc32_2 go mem_size mem = Some (tt, mem') /\
    mem' ≡ₚ mem /\
    drop (Z.to_nat mem_size) mem' = drop (Z.to_nat mem_size) mem.
Proof.
  intros Hsize Hlen. unfold Memthrash.stress_memthrash_swap.
  destruct (Z.eqb_spec mem_size 0); [lia |].
  apply swap_loop_run; try assumption; apply Z.mod_pos_bound; lia.
Qed.

Lemma X15_swap_rearranges_the_region_witness :
  129 <= 130 <= 2 ^ 63 /\
  130 <= Z.of_nat (length (seqZ 0 132)) /\
  exists mem',
    Memthrash.stress_memthrash_swap 1000 7 [true; true; true] 130 (seqZ 0 132) =
      Some (tt, mem') /\
    mem' ≡ₚ seqZ 0 132 /\
    drop (Z.to_nat 130) mem' = drop (Z.to_nat 130) (seqZ 0 132).
Proof.
  assert (Hsize : 129 <= 130 <= 2 ^ 63) by lia.
  assert (Hlen : 130 <= Z.of_nat (length (seqZ 0 132))) by (rewrite length_seqZ; lia).
  split; [exact Hsize |]. split; [exact Hlen |].
  exact (X15_swap_rearranges_the_region 1000 7 [true; true; true] 130 (seqZ 0 132)
           Hsize Hlen).
Defined.

(** With a region of 100 bytes the first offset goes from 99 to 128,
    which is past the region. *)
Example swap_leaves_a_small_region :
  Memthrash.stress_memthrash_swap 99 0 [true; true] 100 (seqZ 0 100) = None /\
  Memthrash.stress_memthrash_swap 99 0 [true; true] 100 (seqZ 0 129) =
    Some (tt, [99] ++ seqZ 1 64 ++ [128] ++ seqZ 66 33 ++ [0] ++ seqZ 100 28 ++ [65]).
Proof. split; vm_compute; reflexivity. Qed.

(** ** "matrix" *)

Lemma matrix_row_run (i : Z) (fuel : nat) :
  0 <= i < Memthrash.MATRIX_SIZE ->
  forall (j : Z) (mem : list Z),
    0 <= j ->
    Memthrash.MEM_SIZE <= Z.of_nat (length mem) ->
    exists mem',
      Memthrash.matrix_row fuel i j mem = Some (tt, mem') /\
      mem' ≡ₚ mem /\
      drop (Z.to_nat Memthrash.MEM_SIZE) mem' = drop (Z.to_nat Memthrash.MEM_SIZE) mem.
Proof.
  change Memthrash.MEM_SIZE with (16384 * 16384).
  change Memthrash.MATRIX_SIZE with 16384.
  intros Hi.
  induction fuel as [| fuel IH]; intros j mem Hj Hlen;
    [exists mem; split; [reflexivity | split; reflexivity] |].
  cbn [Memthrash.matrix_row]. change Memthrash.MATRIX_SIZE with 16384.
  destruct (Z.ltb_spec j 16384);
    [| exists mem; split; [reflexivity | split; reflexivity]].
  cbv zeta.
  rewrite (u64_small (i * 16384 + j)), (u64_small (j * 16384 + i)), (u64_small (j + 16))
    by lia.
  rewrite exchange_run by lia.
  set (mem1 := swap_cells (Z.to_nat (i * 16384 + j)) (Z.to_nat (j * 16384 + i)) mem).
  destruct (IH (j + 16) mem1) as (mem' & Hrun & Hperm & Hdrop);
    [lia | unfold mem1; rewrite swap_cells_length; exact Hlen |].
  exists mem'. split; [exact Hrun |]. split.
  - etransitivity; [exact Hperm | apply swap_cells_Permutation].
  - rewrite Hdrop. apply swap_cells_drop; lia.
Qed.

Lemma matrix_loop_run (terminate : nat -> bool) (mwc8 : nat -> Z) (fuel : nat) :
  forall (turn : nat) (i : Z) (mem : list Z),
    0 <= i < 2 ^ 63 ->
    Memthrash.MEM_SIZE <= Z.of_nat (length mem) ->
    exists mem',
      Memthrash.matrix_loop fuel turn terminate mwc8 i mem = Some (tt, mem') /\
      mem' ≡ₚ mem /\
      drop (Z.to_nat Memthrash.MEM_SIZE) mem' = drop (Z.to_nat Memthrash.MEM_SIZE) mem.
Proof.
  induction fuel as [| fuel IH]; intros turn i mem Hi Hlen;
    [exists mem; split; [reflexivity | split; reflexivity] |].
  cbn [Memthrash.matrix_loop].
  destruct (negb (terminate turn) && (i <? Memthrash.MATRIX_SIZE)) eqn:Hcond;
    [| exists mem; split; [reflexivity | split; reflexivity]].
  apply andb_true_iff in Hcond. destruct Hcond as [_ Hlt]. apply Z.ltb_lt in Hlt.
  destruct (matrix_row_run i (S (Z.to_nat Memthrash.MATRIX_SIZE)) ltac:(lia) 0 mem
              ltac:(lia) Hlen) as (mem1 & Hrow & Hperm1 & Hdrop1).
  unfold mbind at 1. unfold mem_op_bind at 1. rewrite Hrow.
  assert (Hstep : 0 <= Z.land (mwc8 turn) 0xf < 16).
  { change 0xf with (Z.ones 4). rewrite Z.land_ones by lia. apply Z.mod_pos_bound. lia. }
  change Memthrash.MATRIX_SIZE with 16384 in Hlt.
  destruct (IH (S turn) (u64 (i + (Z.land (mwc8 turn) 0xf + 1))) mem1)
    as (mem' & Hrun & Hperm & Hdrop).
  - rewrite u64_small by lia. lia.
  - rewrite (Permutation_length Hperm1). exact Hlen.
  - exists mem'. split; [exact Hrun |]. split; [| congruence].
    etransitivity; eassumption.
Qed.

(** X16. "matrix" exchanges bytes [i * MATRIX_SIZE + j] and
    [j * MATRIX_SIZE + i] for [i, j < MATRIX_SIZE], whatever [mem_size]
    it is given: on an array of at least [MEM_SIZE] bytes it never
    leaves the first [MEM_SIZE] bytes and leaves a rearrangement of
    them, and that holds for every [mem_size], every answer of
    [stress_mwc8] and wherever the thread is told to terminate. *)
Theorem X16_matrix_stays_in_the_arena (terminate : nat -> bool) (mwc8 : nat -> Z)
  (mem_size : Z) (mem : list Z) :
  Memthrash.MEM_SIZE <= Z.of_nat (length mem) ->
  exists mem',
    Memthrash.stress_memthrash_matrix terminate mwc8 mem_size mem = Some (tt, mem') /\
    mem' ≡ₚ mem /\
    drop (Z.to_nat Memthrash.MEM_SIZE) mem' = drop (Z.to_nat Memthrash.MEM_SIZE) mem.
Proof.
  intros Hlen. unfold Memthrash.stress_memthrash_matrix.
  apply matrix_loop_run; [lia | exact Hlen].
Qed.

Lemma X16_matrix_stays_in_the_arena_witness :
  let mem := replicate (Z.to_nat Memthrash.MEM_SIZE) 0 in
  Memthrash.MEM_SIZE <= Z.of_nat (length mem) /\
  exists mem',
    Memthrash.stress_memthrash_matrix (fun _ => false) (fun _ => 0) (2 ^ 20) mem =
      Some (tt, mem') /\
    mem' ≡ₚ mem /\
    drop (Z.to_nat Memthrash.MEM_SIZE) mem' = drop (Z.to_nat Memthrash.MEM_SIZE) mem.
Proof.
  intros mem.
  assert (Hlen : Memthrash.MEM_SIZE <= Z.of_nat (length mem)).
  { unfold mem. rewrite length_replicate, Z2Nat.id; [lia |].
    change Memthrash.MEM_SIZE with (16384 * 16384). lia. }
  split; [exact Hlen |].
  exact (X16_matrix_stays_in_the_arena (fun _ => false) (fun _ => 0) (2 ^ 20) mem Hlen).
Defined.

(** Given the smallest size of the worker, [mem_size = 2 ^ 20], and an
    array of that size, the fifth exchange of the first row is with
    byte [64 * MATRIX_SIZE = 2 ^ 20]. *)
Example matrix_on_a_smaller_array :
  Memthrash.stress_memthrash_matrix (fun _ => false) (fun _ => 0) (2 ^ 20)
    (replicate (Z.to_nat (2 ^ 20)) 0) = None.
Proof. vm_compute. reflexivity. Qed.

(** ** The "chunk" methods *)

Lemma memset_run (c : Z) (n : nat) :
  forall (pre old post : list Z),
    length old = n ->
    Memthrash.memset (Z.of_nat (length pre)) c n (pre ++ old ++ post) =
      Some (tt, pre ++ replicate n (u8 c) ++ post).
Proof.
  induction n as [| n IH]; intros pre old post Hold.
  - destruct old; [reflexivity | discriminate].
  - destruct old as [| x old]; [discriminate |]. cbn [Memthrash.memset replicate].
    unfold mbind, mem_op_bind.
    replace (Z.of_nat (length pre)) with (Z.of_nat (length pre) + 0) at 1 by lia.
    rewrite store_at by lia. change (Z.to_nat 0) with 0%nat. cbn [app length].
    destruct (Nat.ltb_spec 0 (S (length (old ++ post)))); [| lia].
    change (<[0%nat := u8 c]> (x :: old ++ post)) with (u8 c :: old ++ post).
    replace (Z.of_nat (length pre) + 1) with (Z.of_nat (length (pre ++ [u8 c])))
      by (rewrite length_app; cbn [length]; lia).
    replace (pre ++ u8 c :: old ++ post) with ((pre ++ [u8 c]) ++ old ++ post)
      by (rewrite <- app_assoc; reflexivity).
    rewrite IH by (cbn [length] in Hold; lia).
    rewrite <- app_assoc. reflexivity.
Qed.

Lemma memset_chunk (c chunk chunk_size : Z) (mem : list Z) :
  0 <= chunk -> 0 <= chunk_size ->
  (chunk + 1) * chunk_size <= Z.of_nat (length mem) ->
  Memthrash.memset (chunk * chunk_size) c (Z.to_nat chunk_size) mem =
    Some (tt, take (Z.to_nat (chunk * chunk_size)) mem
              ++ replicate (Z.to_nat chunk_size) (u8 c)
              ++ drop (Z.to_nat ((chunk + 1) * chunk_size)) mem).
Proof.
  intros Hchunk Hsize Hlen.
  assert (Hoff : 0 <= chunk * chunk_size) by nia.
  rewrite <- (take_drop (Z.to_nat (chunk * chunk_size)) mem) at 1.
  rewrite <- (take_drop (Z.to_nat chunk_size) (drop (Z.to_nat (chunk * chunk_size)) mem))
    at 1.
  rewrite drop_drop.
  replace (Z.to_nat (chunk * chunk_size) + Z.to_nat chunk_size)%nat
    with (Z.to_nat ((chunk + 1) * chunk_size)) by lia.
  replace (chunk * chunk_size)
    with (Z.of_nat (length (take (Z.to_nat (chunk * chunk_size)) mem))) at 1
    by (rewrite length_take; lia).
  apply memset_run. rewrite length_take, length_drop. lia.
Qed.

Lemma random_chunk_loop_run (terminate : nat -> bool) (mwc32 mwc8 : nat -> Z)
  (chunk_size chunks bound : Z) (n : nat) :
  1 <= chunk_size -> 1 <= chunks -> chunks * chunk_size <= bound < 2 ^ 64 ->
  forall (i : nat) (mem : list Z),
    bound <= Z.of_nat (length mem) ->
    exists mem',
      Memthrash.random_chunk_loop n i terminate mwc32 mwc8 chunk_size chunks mem =
        Some (tt, mem') /\
      length mem' = length mem /\
      drop (Z.to_nat bound) mem' = drop (Z.to_nat bound) mem /\
      forall k, kept_or_set mwc8 mem mem' k.
Proof.
  intros Hsize Hchunks Hbound.
  induction n as [| n IH]; intros i mem Hlen.
  - exists mem. repeat split. intros k. left. reflexivity.
  - cbn [Memthrash.random_chunk_loop].
    destruct (terminate i);
      [exists mem; repeat split; intros k; left; reflexivity |].
    cbv zeta.
    pose proof (Z.mod_pos_bound (mwc32 i) chunks ltac:(lia)) as Hchunk.
    set (chunk := mwc32 i mod chunks) in *.
    assert (Hin : (chunk + 1) * chunk_size <= bound) by nia.
    rewrite u64_small by nia.
    unfold mbind at 1. unfold mem_op_bind at 1.
    rewrite memset_chunk by lia.
    set (mem1 := take (Z.to_nat (chunk * chunk_size)) mem
                   ++ replicate (Z.to_nat chunk_size) (u8 (mwc8 i))
                   ++ drop (Z.to_nat ((chunk + 1) * chunk_size)) mem).
    assert (Hlen1 : length mem1 = length mem).
    { unfold mem1. rewrite !length_app, length_take, length_replicate, length_drop. nia. }
    assert (Hdrop1 : drop (Z.to_nat bound) mem1 = drop (Z.to_nat bound) mem).
    { unfold mem1.
      rewrite app_assoc, drop_app_ge
        by (rewrite length_app, length_take, length_replicate; nia).
      rewrite drop_drop. f_equal.
      rewrite length_app, length_take, length_replicate. nia. }
    assert (Hkept1 : forall k, kept_or_set mwc8 mem mem1 k).
    { intros k. unfold kept_or_set, mem1.
      destruct (Nat.lt_ge_cases k (Z.to_nat (chunk * chunk_size))) as [Hlow | Hhigh].
      - left. rewrite lookup_app_l by (rewrite length_take; nia).
        apply lookup_take_lt. exact Hlow.
      - rewrite lookup_app_r by (rewrite length_take; nia).
        rewrite length_take.
        replace (Z.to_nat (chunk * chunk_size) `min` length mem)%nat
          with (Z.to_nat (chunk * chunk_size)) by nia.
        destruct (Nat.lt_ge_cases (k - Z.to_nat (chunk * chunk_size))
                    (Z.to_nat chunk_size)) as [Hset | Hpast].
        + right. exists i.
          rewrite lookup_app_l by (rewrite length_replicate; exact Hset).
          apply lookup_replicate_2. exact Hset.
        + left. rewrite lookup_app_r by (rewrite length_replicate; exact Hpast).
          rewrite length_replicate, lookup_drop. f_equal. nia. }
    destruct (IH (S i) mem1 ltac:(lia)) as (mem' & Hrun & Hlen' & Hdrop' & Hkept').
    exists mem'. split; [exact Hrun |]. split; [lia |]. split; [congruence |].
    intros k. destruct (Hkept' k) as [Hsame | Hset]; [| right; exact Hset].
    destruct (Hkept1 k) as [Hsame1 | [i1 Hset1]].
    + left. congruence.
    + right. exists i1. congruence.
Qed.

(** X17. The "chunk" methods on a region of [mem_size] bytes inside
    the array, with a chunk of 1 to [mem_size] bytes: every [memset]
    covers one whole chunk of the region, so the method never writes
    past the last whole chunk (nor past the region), and each byte it
    leaves is the byte it found or the byte of a [memset]. *)
Theorem X17_chunks_stay_in_the_region (max : Z) (terminate : nat -> bool)
  (mwc32 mwc8 : nat -> Z) (chunk_size mem_size : Z) (mem : list Z) :
  1 <= chunk_size <= mem_size ->
  mem_size < 2 ^ 64 ->
  mem_size <= Z.of_nat (length mem) ->
  exists mem',
    Memthrash.stress_memthrash_random_chunk max terminate mwc32 mwc8 chunk_size mem_size mem =
      Some (tt, mem') /\
    length mem' = length mem /\
    drop (Z.to_nat (mem_size / chunk_size * chunk_size)) mem' =
      drop (Z.to_nat (mem_size / chunk_size * chunk_size)) mem /\
    drop (Z.to_nat mem_size) mem' = drop (Z.to_nat mem_size) mem /\
    forall k, kept_or_set mwc8 mem mem' k.
Proof.
  intros Hsize Hmax Hlen. unfold Memthrash.stress_memthrash_random_chunk.
  destruct (Z.eqb_spec chunk_size 0); [lia |]. cbv zeta.
  assert (Hchunks : 1 <= mem_size / chunk_size).
  { apply Z.div_le_lower_bound; lia. }
  pose proof (Z.mul_div_le mem_size chunk_size ltac:(lia)) as Hwhole.
  destruct (Z.ltb_spec (mem_size / chunk_size) 1); [lia |].
  destruct (random_chunk_loop_run terminate mwc32 mwc8 chunk_size (mem_size / chunk_size)
              (mem_size / chunk_size * chunk_size) (Z.to_nat max)
              ltac:(lia) Hchunks ltac:(lia) 0%nat mem ltac:(lia))
    as (mem' & Hrun & Hlen' & Hdrop' & Hkept').
  exists mem'. split; [exact Hrun |]. split; [exact Hlen' |]. split; [exact Hdrop' |].
  split; [| exact Hkept'].
  replace (Z.to_nat mem_size)
    with (Z.to_nat (mem_size / chunk_size * chunk_size)
          + (Z.to_nat mem_size - Z.to_nat (mem_size / chunk_size * chunk_size)))%nat
    by lia.
  rewrite <- !drop_drop, Hdrop'. reflexivity.
Qed.

Lemma X17_chunks_stay_in_the_region_witness :
  1 <= 8 <= 20 /\ 20 < 2 ^ 64 /\ 20 <= Z.of_nat (length (seqZ 0 24)) /\
  exists mem',
    Memthrash.stress_memthrash_random_chunk 3 (fun _ => false) (fun i => Z.of_nat i + 5)
      (fun i => 0x1f0 + Z.of_nat i) 8 20 (seqZ 0 24) = Some (tt, mem') /\
    length mem' = length (seqZ 0 24) /\
    drop (Z.to_nat (20 / 8 * 8)) mem' = drop (Z.to_nat (20 / 8 * 8)) (seqZ 0 24) /\
    drop (Z.to_nat 20) mem' = drop (Z.to_nat 20) (seqZ 0 24) /\
    forall k, kept_or_set (fun i => 0x1f0 + Z.of_nat i) (seqZ 0 24) mem' k.
Proof.
  assert (H1 : 1 <= 8 <= 20) by lia.
  assert (H2 : 20 < 2 ^ 64) by lia.
  assert (H3 : 20 <= Z.of_nat (length (seqZ 0 24))) by (rewrite length_seqZ; lia).
  split; [exact H1 |]. split; [exact H2 |]. split; [exact H3 |].
  exact (X17_chunks_stay_in_the_region 3 (fun _ => false) (fun i => Z.of_nat i + 5)
           (fun i => 0x1f0 + Z.of_nat i) 8 20 (seqZ 0 24) H1 H2 H3).
Defined.

Example chunk8_on_20_bytes :
  Memthrash.stress_memthrash_random_chunk8 3 (fun _ => false) (fun i => Z.of_nat i + 5)
    (fun i => 0x1f0 + Z.of_nat i) 20 (seqZ 0 24) =
    Some (tt, replicate 8 0xf1 ++ replicate 8 0xf2 ++ seqZ 16 8).
Proof. reflexivity. Qed.

(** A chunk larger than the region is written all the same, from the
    start of the array. *)
Example chunk_larger_than_the_region :
  Memthrash.stress_memthrash_random_chunkpage 16 1 (fun _ => false) (fun _ => 7)
    (fun _ => 0xaa) 4 (seqZ 0 24) =
    Some (tt, replicate 16 0xaa ++ seqZ 16 8) /\
  Memthrash.stress_memthrash_random_chunkpage 16 1 (fun _ => false) (fun _ => 7)
    (fun _ => 0xaa) 4 (seqZ 0 4) = None.
Proof. split; reflexivity. Qed.

(** ** The "text" generator *)

Lemma store_first (pre post : list Z) (x v : Z) :
  store (Z.of_nat (length pre)) v (pre ++ x :: post) = Some (tt, pre ++ v :: post).
Proof.
  replace (Z.of_nat (length pre)) with (Z.of_nat (length pre) + 0) by lia.
  rewrite store_at by lia. reflexivity.
Qed.

Lemma load_first (pre post : list Z) (x : Z) :
  load (Z.of_nat (length pre)) (pre ++ x :: post) = Some (x, pre ++ x :: post).
Proof.
  replace (Z.of_nat (length pre)) with (Z.of_nat (length pre) + 0) by lia.
  rewrite load_at by lia. reflexivity.
Qed.

Lemma copy_text_run (text : list Z) (n : nat) :
  forall (src : Z) (pre old post : list Z),
    0 <= src -> length old = n -> (Z.to_nat src + n <= length text)%nat ->
    Opcode.copy_text n text src (Z.of_nat (length pre)) (pre ++ old ++ post) =
      Some (tt, pre ++ take n (drop (Z.to_nat src) text) ++ post).
Proof.
  induction n as [| n IH]; intros src pre old post Hsrc Hold Htext.
  - destruct old; [reflexivity | discriminate].
  - destruct old as [| x old]; [discriminate |]. cbn [Opcode.copy_text].
    destruct (lookup_lt_is_Some_2 text (Z.to_nat src) ltac:(lia)) as [b Hb].
    rewrite Hb, (drop_S _ _ _ Hb). cbn [take].
    unfold mbind, mem_op_bind. cbn [app]. rewrite store_first.
    replace (Z.of_nat (length pre) + 1) with (Z.of_nat (length (pre ++ [b])))
      by (rewrite length_app; cbn [length]; lia).
    replace (pre ++ b :: old ++ post) with ((pre ++ [b]) ++ old ++ post)
      by (rewrite <- app_assoc; reflexivity).
    rewrite IH by (cbn [length] in Hold; lia).
    replace (Z.to_nat (src + 1)) with (S (Z.to_nat src)) by lia.
    rewrite <- app_assoc. reflexivity.
Qed.

Lemma corrupt_bit (rnd : Z) :
  0 <= rnd -> u8 (Z.shiftl 1 (Z.land rnd 7)) = 2 ^ (rnd mod 8).
Proof.
  intros Hrnd. change 7 with (Z.ones 3). rewrite Z.land_ones by lia.
  change (2 ^ 3) with 8.
  pose proof (Z.mod_pos_bound rnd 8 ltac:(lia)) as Hk.
  rewrite Z.shiftl_1_l. unfold u8. apply Z.mod_small.
  split; [apply Z.pow_nonneg; lia | apply Z.pow_lt_mono_r; lia].
Qed.

Lemma corrupt_text_run (mwc8 : nat -> Z) (cur : list Z) :
  forall (fuel turn : nat) (pre post : list Z),
    (length cur <= fuel)%nat ->
    Opcode.corrupt_text fuel turn mwc8 (Z.of_nat (length pre))
      (Z.of_nat (length pre) + Z.of_nat (length cur)) (pre ++ cur ++ post) =
      Some (tt, pre ++ imap (fun k t => flip_bit (mwc8 (turn + k)%nat) t) cur ++ post).
Proof.
  induction cur as [| t cur IH]; intros fuel turn pre post Hfuel.
  - destruct fuel as [| fuel]; [reflexivity |]. cbn [Opcode.corrupt_text length].
    destruct (Z.ltb_spec (Z.of_nat (length pre)) (Z.of_nat (length pre) + Z.of_nat 0));
      [lia | reflexivity].
  - destruct fuel as [| fuel]; [cbn [length] in Hfuel; lia |].
    cbn [Opcode.corrupt_text].
    destruct (Z.ltb_spec (Z.of_nat (length pre))
                (Z.of_nat (length pre) + Z.of_nat (length (t :: cur))));
      [| cbn [length] in *; lia].
    cbv zeta. rewrite imap_cons. rewrite Nat.add_0_r.
    assert (Hfirst :
      (if u8 (mwc8 turn) <? 32
       then b ← load (Z.of_nat (length pre));
            store (Z.of_nat (length pre))
              (u8 (Z.lxor b (u8 (Z.shiftl 1 (Z.land (u8 (mwc8 turn)) 7)))))
       else mret tt) (pre ++ (t :: cur) ++ post) =
      Some (tt, (pre ++ [flip_bit (mwc8 turn) t]) ++ cur ++ post)).
    { unfold flip_bit. rewrite <- app_assoc. cbn [app].
      destruct (u8 (mwc8 turn) <? 32); [| reflexivity].
      unfold mbind, mem_op_bind. rewrite load_first, store_first.
      rewrite corrupt_bit by (apply Z.mod_pos_bound; lia). reflexivity. }
    unfold mbind at 1. unfold mem_op_bind at 1. rewrite Hfirst.
    replace (Z.of_nat (length pre) + 1)
      with (Z.of_nat (length (pre ++ [flip_bit (mwc8 turn) t])))
      by (rewrite length_app; cbn [length]; lia).
    replace (Z.of_nat (length pre) + Z.of_nat (length (t :: cur)))
      with (Z.of_nat (length (pre ++ [flip_bit (mwc8 turn) t])) + Z.of_nat (length cur))
      by (rewrite length_app; cbn [length]; lia).
    rewrite IH by (cbn [length] in Hfuel; lia).
    rewrite <- app_assoc. cbn [app]. do 5 f_equal.
    apply imap_ext. intros k x _. unfold compose.
    rewrite Nat.add_succ_comm. reflexivity.
Qed.

Lemma land_align8 (r : Z) :
  0 <= r < 2 ^ 64 -> Z.land r (u64 (Z.lnot 0x7)) = 8 * (r / 8).
Proof.
  intros Hr. change (u64 (Z.lnot 0x7)) with (Z.shiftl (Z.ones 61) 3).
  replace (8 * (r / 8)) with (Z.shiftl (Z.shiftr r 3) 3)
    by (rewrite Z.shiftl_mul_pow2, Z.shiftr_div_pow2 by lia; change (2 ^ 3) with 8; lia).
  apply Z.bits_inj'. intros n Hn.
  rewrite Z.land_spec, !Z.shiftl_spec by lia.
  destruct (Z.ltb_spec n 3) as [Hlow | Hhigh].
  - rewrite (Z.testbit_neg_r (Z.ones 61)), (Z.testbit_neg_r (Z.shiftr r 3)) by lia.
    apply andb_false_r.
  - rewrite Z.shiftr_spec by lia. replace (n - 3 + 3) with n by lia.
    destruct (Z.ltb_spec n 64) as [Hin | Hout].
    + rewrite Z.ones_spec_low by lia. apply andb_true_r.
    + rewrite Z.ones_spec_high by lia. rewrite andb_false_r.
      symmetry. apply (testbit_above_64 r n); lia.
Qed.

Lemma flip_bit_one_bit (rnd t : Z) :
  0 <= t < 256 ->
  0 <= flip_bit rnd t < 256 /\
  bits_apart (flip_bit rnd t) t = if u8 rnd <? 32 then 1%nat else 0%nat.
Proof.
  intros Ht.
  assert (Hall :
    forallb (fun r =>
      forallb (fun b =>
        (0 <=? flip_bit r b) && (flip_bit r b <? 256) &&
        Nat.eqb (bits_apart (flip_bit r b) b) (if r <? 32 then 1%nat else 0%nat))
        (List.map Z.of_nat (List.seq 0 256)))
      (List.map Z.of_nat (List.seq 0 256)) = true) by (vm_compute; reflexivity).
  assert (Hmem : forall z, 0 <= z < 256 -> In z (List.map Z.of_nat (List.seq 0 256))).
  { intros z Hz. apply in_map_iff. exists (Z.to_nat z). split; [lia |].
    apply in_seq. lia. }
  pose proof (Z.mod_pos_bound rnd (2 ^ 8) ltac:(lia)) as Hrnd. fold (u8 rnd) in Hrnd.
  rewrite forallb_forall in Hall. specialize (Hall (u8 rnd) (Hmem _ Hrnd)).
  rewrite forallb_forall in Hall. specialize (Hall t (Hmem _ Ht)).
  assert (Hsame : flip_bit (u8 rnd) t = flip_bit rnd t).
  { unfold flip_bit. replace (u8 (u8 rnd)) with (u8 rnd); [reflexivity |].
    unfold u8. rewrite Zmod_mod. reflexivity. }
  rewrite Hsame in Hall.
  apply andb_true_iff in Hall. destruct Hall as [Hrange Hbits].
  apply andb_true_iff in Hrange. destruct Hrange as [Hlo Hhi].
  apply Z.leb_le in Hlo. apply Z.ltb_lt in Hhi. apply Nat.eqb_eq in Hbits.
  split; [lia | exact Hbits].
Qed.

(** X18. The "text" generator, when the program text (less 8 bytes)
    is at least as long as the interior of the mapping and
    [stress_mwc64modn] returns no more than its argument: it copies the
    window of the text that starts at an offset that is a multiple of 8
    and lies wholly inside the text, with byte [k] passed through
    [flip_bit] for the [k]-th value of [stress_mwc8]; the guard pages
    keep their contents.  A byte of the text has exactly one bit
    flipped where that value is below 32 and is copied as it is
    otherwise. *)
Theorem X18_text_copies_an_aligned_window (text : list Z) (text_addr : Z)
  (mwc64modn : Z -> Z) (mwc8 : nat -> Z) (mwc32 : list Z)
  (low interior high : list Z) :
  let ops_begin := Z.of_nat (length low) in
  let ops_len := Z.of_nat (length interior) in
  let spare := text_addr - 8 - ops_len in
  let offset := Z.land (mwc64modn spare) (u64 (Z.lnot 0x7)) in
  ops_begin + ops_len < 2 ^ 64 ->
  text_addr < 2 ^ 64 ->
  text_addr <= Z.of_nat (length text) ->
  0 <= spare ->
  0 <= mwc64modn spare <= spare ->
  (0 <= offset /\ offset mod 8 = 0 /\ offset + ops_len <= text_addr - 8) /\
  Opcode.stress_opcode_text text text_addr mwc64modn mwc8 mwc32
    ops_begin (ops_begin + ops_len) (low ++ interior ++ high) =
    Some (tt,
          low
          ++ imap (fun k t => flip_bit (mwc8 k) t)
               (take (length interior) (drop (Z.to_nat offset) text))
          ++ high) /\
  (forall rnd t, 0 <= t < 256 ->
     0 <= flip_bit rnd t < 256 /\
     bits_apart (flip_bit rnd t) t = if u8 rnd <? 32 then 1%nat else 0%nat).
Proof.
  intros ops_begin ops_len spare offset Hops Haddr Htext Hspare Hmodn.
  assert (Hoffset : offset = 8 * (mwc64modn spare / 8)).
  { unfold offset. apply land_align8. unfold spare in *. lia. }
  assert (Hbounds : 0 <= offset /\ offset mod 8 = 0 /\ offset + ops_len <= text_addr - 8).
  { pose proof (Z.mul_div_le (mwc64modn spare) 8 ltac:(lia)) as Hle.
    pose proof (Z.div_pos (mwc64modn spare) 8 ltac:(lia) ltac:(lia)) as Hpos.
    rewrite Hoffset. split; [lia |]. split.
    - rewrite Z.mul_comm. apply Z.mod_mul. lia.
    - unfold spare in *. lia. }
  split; [exact Hbounds |]. split; [| intros rnd t; apply flip_bit_one_bit].
  unfold Opcode.stress_opcode_text.
  replace (ops_begin + ops_len - ops_begin) with ops_len by lia.
  rewrite (u64_small ops_len) by (unfold ops_begin, ops_len in *; lia).
  rewrite (u64_small (text_addr - 8)) by (unfold spare, ops_len in *; lia).
  cbv zeta.
  destruct (Z.ltb_spec (text_addr - 8) ops_len); [unfold spare in *; lia |].
  fold spare. rewrite (u64_small spare) by (unfold spare, ops_len in *; lia).
  fold offset.
  replace (Z.to_nat ops_len) with (length interior) by (unfold ops_len; lia).
  unfold mbind, mem_op_bind. unfold ops_begin.
  rewrite copy_text_run;
    [| lia | reflexivity | unfold ops_len, spare in *; lia].
  set (window := take (length interior) (drop (Z.to_nat offset) text)).
  assert (Hwindow : length window = length interior).
  { unfold window. rewrite length_take, length_drop.
    unfold ops_len, spare in *. lia. }
  unfold ops_len. rewrite <- Hwindow.
  apply corrupt_text_run. lia.
Qed.

Lemma X18_text_copies_an_aligned_window_witness :
  let text := seqZ 100 40 in
  let mwc64modn := fun n : Z => n - 1 in
  let mwc8 := fun k : nat => 30 + Z.of_nat k in
  let low := [0; 0] in
  let interior := [0; 0; 0; 0] in
  let high := [0; 0] in
  let offset := Z.land (mwc64modn (40 - 8 - 4)) (u64 (Z.lnot 0x7)) in
  2 + 4 < 2 ^ 64 /\ 40 < 2 ^ 64 /\ 40 <= Z.of_nat (length text) /\
  0 <= 40 - 8 - 4 /\ 0 <= mwc64modn (40 - 8 - 4) <= 40 - 8 - 4 /\
  (0 <= offset /\ offset mod 8 = 0 /\ offset + 4 <= 40 - 8) /\
  Opcode.stress_opcode_text text 40 mwc64modn mwc8 [] 2 (2 + 4) (low ++ interior ++ high) =
    Some (tt,
          low
          ++ imap (fun k t => flip_bit (mwc8 k) t)
               (take (length interior) (drop (Z.to_nat offset) text))
          ++ high) /\
  (forall rnd t, 0 <= t < 256 ->
     0 <= flip_bit rnd t < 256 /\
     bits_apart (flip_bit rnd t) t = if u8 rnd <? 32 then 1%nat else 0%nat).
Proof.
  intros text mwc64modn mwc8 low interior high offset.
  assert (H1 : 2 + 4 < 2 ^ 64) by lia.
  assert (H2 : 40 < 2 ^ 64) by lia.
  assert (H3 : 40 <= Z.of_nat (length text)) by (unfold text; rewrite length_seqZ; lia).
  assert (H4 : 0 <= 40 - 8 - 4) by lia.
  assert (H5 : 0 <= mwc64modn (40 - 8 - 4) <= 40 - 8 - 4) by (unfold mwc64modn; lia).
  split; [exact H1 |]. split; [exact H2 |]. split; [exact H3 |].
  split; [exact H4 |]. split; [exact H5 |].
  exact (X18_text_copies_an_aligned_window text 40 mwc64modn mwc8 [] low interior high
           H1 H2 H3 H4 H5).
Defined.

Example text_window :
  Opcode.stress_opcode_text (seqZ 100 40) 40 (fun n => n - 1) (fun k => 30 + Z.of_nat k) []
    2 6 [0; 0; 0; 0; 0; 0; 0; 0] =
    Some (tt, [0; 0; 124 - 64; 125 + 128; 126; 127; 0; 0]).
Proof. reflexivity. Qed.

(** When [stress_text_addr] returns less than 8, [text_len] wraps and
    the text is never taken to be the shorter. *)
Example text_shorter_than_8_bytes :
  Opcode.stress_opcode_text [] 0 (fun _ => 0) (fun _ => 0) [1; 2; 3] 2 6
    [0; 0; 0; 0; 0; 0; 0; 0] = None /\
  Opcode.stress_opcode_text [] 8 (fun _ => 0) (fun _ => 0) [0x04030201] 2 6
    [0; 0; 0; 0; 0; 0; 0; 0] = Some (tt, [0; 0; 1; 2; 3; 4; 0; 0]).
Proof. split; reflexivity. Qed.

(** ** The shared counter for every opcode size *)

(** X19. The child, for any opcode size from 8 to 64 bits and any
    generator, once its set-up has succeeded: it adds one to the shared
    [*op], modulo [2 ^ size], before each call into the generated code
    that it begins, and it begins the calls up to its last turn, the
    first turn whose call does not return or whose [shim_seccomp] call
    loads the filter.  In a build with the filter that loads in turn 0
    the child begins exactly one call: if that call returns and
    another turn follows, the [seccomp] call of the next turn is trapped
    and the child ends with [_exit(1)].  Where no filter is loaded and
    every call returns, the child makes all [page_size / (size / 8)]
    calls and exits with status 0. *)
Theorem X19_child_counts_calls_begun (HAVE_SECCOMP : bool)
  (generate : Z -> Z -> Z -> Z -> list Z -> list Z)
  (STRESS_OPCODE_SIZE page_size op : Z) (env : Opcode.child_env) :
  8 <= STRESS_OPCODE_SIZE <= 64 ->
  0 <= op < 2 ^ STRESS_OPCODE_SIZE ->
  reaches_generator env = true ->
  Opcode.setitimer_ok env = true ->
  let loops := Z.to_nat (page_size / Z.shiftr STRESS_OPCODE_SIZE 3) in
  let child :=
    Opcode.stress_opcode_child HAVE_SECCOMP generate STRESS_OPCODE_SIZE page_size op env in
  Opcode.child_op child =
    (op + Z.of_nat (calls_begun HAVE_SECCOMP loops env)) mod 2 ^ STRESS_OPCODE_SIZE /\
  Opcode.child_end child = child_ends HAVE_SECCOMP loops env /\
  (calls_begun HAVE_SECCOMP loops env <= loops)%nat /\
  ((1 <= loops)%nat -> HAVE_SECCOMP = true -> Opcode.seccomp_loads env 0 = true ->
   calls_begun HAVE_SECCOMP loops env = 1%nat /\
   child_ends HAVE_SECCOMP loops env =
     match Opcode.call_ends env 0 with
     | Some e => e
     | None =>
         if (1 <? loops)%nat then Opcode.Exited EXIT_FAILURE
         else Opcode.Exited EXIT_SUCCESS
     end) /\
  ((forall j, (j < loops)%nat -> last_turn HAVE_SECCOMP env j = false) ->
   calls_begun HAVE_SECCOMP loops env = loops /\
   child_ends HAVE_SECCOMP loops env = Opcode.Exited EXIT_SUCCESS).
Proof.
  intros Hsize Hop Hgen Htimer loops child.
  unfold child.
  rewrite (child_runs HAVE_SECCOMP generate STRESS_OPCODE_SIZE page_size op env
             ltac:(lia) Hgen).
  rewrite Htimer. fold loops. cbn [Opcode.child_op Opcode.child_end].
  split; [| split; [reflexivity |]]; [| split; [apply calls_begun_le |]]; [| split].
  - destruct loops as [| n]; [| reflexivity].
    unfold calls_begun. cbn [Nat.min]. rewrite Z.add_0_r.
    symmetry. apply Z.mod_small. exact Hop.
  - intros Hloops -> Hloads.
    apply calls_begun_last_turn_first; [exact Hloops |].
    unfold last_turn. rewrite Hloads. destruct (Opcode.call_ends env 0); reflexivity.
  - intros Hnone.
    pose proof (calls_begun_no_last_turn HAVE_SECCOMP env loops 0 Hnone) as Hk.
    unfold calls_begun, child_ends. rewrite Hk. cbn [Nat.add].
    split; [lia |]. rewrite Nat.ltb_irrefl. reflexivity.
Qed.

Lemma X19_child_counts_calls_begun_witness :
  let generate := Opcode.stress_opcode_inc 64 in
  let op := 2 ^ 64 - 1 in
  let loops := Z.to_nat (4096 / Z.shiftr 64 3) in
  let child := Opcode.stress_opcode_child true generate 64 4096 op all_calls_return in
  8 <= 64 <= 64 /\ 0 <= op < 2 ^ 64 /\
  reaches_generator all_calls_return = true /\
  Opcode.setitimer_ok all_calls_return = true /\
  Opcode.child_op child = (op + Z.of_nat (calls_begun true loops all_calls_return)) mod 2 ^ 64 /\
  Opcode.child_end child = child_ends true loops all_calls_return /\
  (calls_begun true loops all_calls_return <= loops)%nat /\
  ((1 <= loops)%nat -> true = true -> Opcode.seccomp_loads all_calls_return 0 = true ->
   calls_begun true loops all_calls_return = 1%nat /\
   child_ends true loops all_calls_return =
     match Opcode.call_ends all_calls_return 0 with
     | Some e => e
     | None =>
         if (1 <? loops)%nat then Opcode.Exited EXIT_FAILURE
         else Opcode.Exited EXIT_SUCCESS
     end) /\
  ((forall j, (j < loops)%nat -> last_turn true all_calls_return j = false) ->
   calls_begun true loops all_calls_return = loops /\
   child_ends true loops all_calls_return = Opcode.Exited EXIT_SUCCESS).
Proof.
  intros generate op loops child.
  assert (H1 : 8 <= 64 <= 64) by lia.
  assert (H2 : 0 <= op < 2 ^ 64) by (unfold op; lia).
  split; [exact H1 |]. split; [exact H2 |].
  split; [reflexivity |]. split; [reflexivity |].
  exact (X19_child_counts_calls_begun true generate 64 4096 op all_calls_return
           H1 H2 eq_refl eq_refl).
Defined.

(** A 64-bit child with the filter is trapped after its first call; the
    same child without the filter makes its eight calls and wraps the
    counter. *)
Example child_64_with_and_without_filter :
  Opcode.child_op
    (Opcode.stress_opcode_child true (fun _ _ _ _ mem => mem) 64 64 (2 ^ 64 - 3)
       all_calls_return) = 2 ^ 64 - 2 /\
  Opcode.child_end
    (Opcode.stress_opcode_child true (fun _ _ _ _ mem => mem) 64 64 (2 ^ 64 - 3)
       all_calls_return) = Opcode.Exited EXIT_FAILURE /\
  Opcode.child_op
    (Opcode.stress_opcode_child false (fun _ _ _ _ mem => mem) 64 64 (2 ^ 64 - 3)
       all_calls_return) = 5 /\
  Opcode.child_end
    (Opcode.stress_opcode_child false (fun _ _ _ _ mem => mem) 64 64 (2 ^ 64 - 3)
       all_calls_return) = Opcode.Exited EXIT_SUCCESS.
Proof. repeat split; reflexivity. Qed.
